(** * Match pruning of IM_OpenCV3.0: the GMS filter and its dispatcher

    A shallow embedding of [src/libGMS/gms_matcher.cpp] and
    [src/match_pruner.cpp], and the properties of the grid indexer, of the
    vote of one grid offset, of the search over the rotation and scale
    hypotheses and of the dispatcher.

    Conventions of the embedding.
    - A C++ [int] is a [Z]; the counters of the program (votes, cell
      populations, inlier counts) are bounded by the number of matches, so
      32-bit wrap-around is not modelled.  A [size_t] is a [nat].
    - [std::vector<T>] and the rows of a [cv::Mat] are lists, read with
      stdpp's lookup and written with stdpp's insert.  C++ does not check the
      index of [operator[]], [cv::Mat::at] or [cv::Mat::ptr]: such an access
      out of range is undefined behaviour, which the embedding renders as
      [None].  Every operation that reads or writes through an index is
      therefore in the option monad, and [None] never stands for a reported
      error: the program reports none.
    - [float] and [double] coordinates and distances are rationals ([Q]) and
      their arithmetic is exact.  The one real-valued test whose rounding
      decides a pairing, [score < mAlpha * sqrt(thresh / numpair)], is left
      to the class [DoubleArith]: every statement below holds for every
      implementation of that test.
    - The members of a class are the fields of a record that every method
      takes and returns. *)

From Stdlib Require Import ZArith QArith Qround Lia.
From stdpp Require Import base option list.

Open Scope Z_scope.

(** ** Containers *)

(** [v[i]] for an [int] index. *)
Definition vget {A} (v : list A) (i : Z) : option A :=
  if 0 <=? i then v !! Z.to_nat i else None.

(** [v[i] = x] for an [int] index. *)
Definition vset {A} (v : list A) (i : Z) (x : A) : option (list A) :=
  if (0 <=? i) && (i <? Z.of_nat (length v))
  then Some (<[Z.to_nat i := x]> v) else None.

(** [for (i = start; i < start + n; i++) body]. *)
Fixpoint for_loop {St} (n : nat) (start : Z) (body : Z → St → option St)
    (s : St) : option St :=
  match n with
  | O => Some s
  | S n' => s' ← body start s; for_loop n' (start + 1) body s'
  end.

(** [for (size_t i = 0; i < n; i++) body], counting upwards from [start]. *)
Fixpoint for_size {St} (n : nat) (start : nat) (body : nat → St → option St)
    (s : St) : option St :=
  match n with
  | O => Some s
  | S n' => s' ← body start s; for_size n' (S start) body s'
  end.

(** ** OpenCV values *)

Record Size := mkSize { width : Z; height : Z }.

Record Point2f := mkPoint2f { pt_x : Q; pt_y : Q }.

(** A [CV_32SC1] matrix, as the list of its rows. *)
Definition Mat := list (list Z).

(** [cv::Mat::zeros(rows, cols, CV_32SC1)], for [rows] and [cols] that are
    not negative. *)
Definition Mat_zeros (rows cols : Z) : Mat :=
  replicate (Z.to_nat rows) (replicate (Z.to_nat cols) 0).

(** [m.setTo(0)]. *)
Definition Mat_setTo0 (m : Mat) : Mat := map (map (λ _, 0)) m.

(** [m.at<int>(i, j)]. *)
Definition Mat_at (m : Mat) (i j : Z) : option Z :=
  row ← vget m i; vget row j.

(** [m.at<int>(i, j)++]. *)
Definition Mat_incr (m : Mat) (i j : Z) : option Mat :=
  row ← vget m i;
  v ← vget row j;
  Some (<[Z.to_nat i := <[Z.to_nat j := v + 1]> row]> m).

(** [cv::sum(row)[0]]. *)
Definition row_sum (row : list Z) : Z := foldr Z.add 0 row.

(** ** Tables of gms_matcher.cpp *)

Definition kRotationPatterns : list (list Z) :=
  [ [1; 2; 3;
     4; 5; 6;
     7; 8; 9];

    [4; 1; 2;
     7; 5; 3;
     8; 9; 6];

    [7; 4; 1;
     8; 5; 2;
     9; 6; 3];

    [8; 7; 4;
     9; 5; 1;
     6; 3; 2];

    [9; 8; 7;
     6; 5; 4;
     3; 2; 1];

    [6; 9; 8;
     3; 5; 7;
     2; 1; 4];

    [3; 6; 9;
     2; 5; 8;
     1; 4; 7];

    [2; 3; 6;
     1; 5; 9;
     4; 7; 8] ].

(** [int(n * kScaleRatios[Scale])] for the five ratios
    [1, 1/2, 1/sqrt 2, sqrt 2, 2]: the truncation of the exact product, for a
    grid dimension [n >= 0] ([n / sqrt 2] and [n * sqrt 2] are the square
    roots of [n * n / 2] and [2 * n * n]).  [Scale] outside of [0 .. 4]
    reads [kScaleRatios] out of range. *)
Definition scaled_dim (Scale : Z) (n : Z) : option Z :=
  match Scale with
  | 0 => Some n
  | 1 => Some (Z.quot n 2)
  | 2 => Some (Z.sqrt (n * n / 2))
  | 3 => Some (Z.sqrt (2 * n * n))
  | 4 => Some (2 * n)
  | _ => None
  end.

(** ** Grid indexer *)

Definition half : Q := 1 # 2.

Definition GetGridIndexLeft (mGridSizeLeft : Size) (pt : Point2f) (type : Z) : Z :=
  let W := inject_Z (width mGridSizeLeft) in
  let H := inject_Z (height mGridSizeLeft) in
  let xy := (0, 0) in
  let xy := if type =? 1
            then (Qfloor (pt_x pt * W), Qfloor (pt_y pt * H)) else xy in
  let xy := if type =? 2
            then (Qfloor (pt_x pt * W + half), Qfloor (pt_y pt * H)) else xy in
  let xy := if type =? 3
            then (Qfloor (pt_x pt * W), Qfloor (pt_y pt * H + half)) else xy in
  let xy := if type =? 4
            then (Qfloor (pt_x pt * W + half), Qfloor (pt_y pt * H + half)) else xy in
  let '(x, y) := xy in
  if (x >=? width mGridSizeLeft) || (y >=? height mGridSizeLeft)
  then -1
  else x + y * width mGridSizeLeft.

Definition GetGridIndexRight (mGridSizeRight : Size) (pt : Point2f) : Z :=
  let x := Qfloor (pt_x pt * inject_Z (width mGridSizeRight)) in
  let y := Qfloor (pt_y pt * inject_Z (height mGridSizeRight)) in
  x + y * width mGridSizeRight.

(** The offsets of the 3 x 3 neighbourhood, as the two nested loops of
    [GetNB9] visit them. *)
Definition nb_offsets : list Z := [-1; 0; 1].

(** [GetNB9] is only called for [idx < width * height], hence with a
    non-zero width: the division cannot trap. *)
Definition GetNB9 (idx : Z) (GridSize : Size) : list Z :=
  let idx_x := Z.rem idx (width GridSize) in
  let idx_y := Z.quot idx (width GridSize) in
  foldl (λ NB9 yi,
    foldl (λ NB9 xi,
      let idx_xx := idx_x + xi in
      let idx_yy := idx_y + yi in
      if (idx_xx <? 0) || (idx_xx >=? width GridSize) ||
         (idx_yy <? 0) || (idx_yy >=? height GridSize)
      then NB9
      else <[Z.to_nat (xi + 4 + yi * 3) := idx_xx + idx_yy * width GridSize]> NB9)
    NB9 nb_offsets)
  (replicate 9 (-1)) nb_offsets.

(** Row [i] of [neighbor] receives the nine entries of [GetNB9 i]. *)
Definition InitializeNeighbors (neighbor : Mat) (GridSize : Size) : Mat :=
  imap (λ i _, GetNB9 (Z.of_nat i) GridSize) neighbor.

(** *** Vocabulary of the neighbour table *)

(** Number of entries of a neighbourhood that are not -1. *)
Definition valid_slots (NB9 : list Z) : Z :=
  foldr (λ v n, if v =? -1 then n else n + 1) 0 NB9.

Inductive CellKind := Corner | Edge | Interior.

Definition on_border (n c : Z) : bool := (c =? 0) || (c =? n - 1).

Definition cell_kind (GridSize : Size) (idx : Z) : CellKind :=
  let idx_x := Z.rem idx (width GridSize) in
  let idx_y := Z.quot idx (width GridSize) in
  match on_border (width GridSize) idx_x, on_border (height GridSize) idx_y with
  | true, true => Corner
  | false, false => Interior
  | _, _ => Edge
  end.

(** The neighbour in slot [k] of the row-major 3 x 3 window around [idx],
    or -1 when it falls outside of the grid. *)
Definition neighbor_slot (GridSize : Size) (idx : Z) (k : Z) : Z :=
  let xx := Z.rem idx (width GridSize) + (k mod 3 - 1) in
  let yy := Z.quot idx (width GridSize) + (k / 3 - 1) in
  if (0 <=? xx) && (xx <? width GridSize) && (0 <=? yy) && (yy <? height GridSize)
  then xx + yy * width GridSize
  else -1.

(** The neighbour table of a grid, as the constructor and [SetScale] build
    it. *)
Definition NeighborTable (GridSize : Size) : Mat :=
  InitializeNeighbors (Mat_zeros (width GridSize * height GridSize) 9) GridSize.

(** ** The GMS matcher *)

(** The one floating-point test of [VerifyCellPairs]:
    [score_below_thresh alpha score thresh numpair] is the value of
    [score < alpha * sqrt(thresh / numpair)] in double arithmetic, where
    [thresh] is the sum of the populations and [numpair] the number of
    valid slot pairs. *)
Class DoubleArith := { score_below_thresh : Q → Z → Z → Z → bool }.

(** The members of [class GMS_Matcher]. *)
Record GMS_Matcher := mkGMS {
  mvP1 : list Point2f;
  mvP2 : list Point2f;
  mvMatches : list (Z * Z);
  mNumberMatches : nat;
  mGridSizeLeft : Size;
  mGridSizeRight : Size;
  mGridNumberLeft : Z;
  mGridNumberRight : Z;
  mMotionStatistics : Mat;
  mNumberPointsInPerCellLeft : list Z;
  mCellPairs : list Z;
  mvMatchPairs : list (Z * Z);
  mvbInlierMask : list bool;
  mGridNeighborLeft : Mat;
  mGridNeighborRight : Mat;
  mAlpha : Q
}.

(** Assignments to single members. *)
Definition set_right_grid (sz : Size) (n : Z) (nb : Mat) (g : GMS_Matcher) :=
  mkGMS (mvP1 g) (mvP2 g) (mvMatches g) (mNumberMatches g) (mGridSizeLeft g)
        sz (mGridNumberLeft g) n
        (mMotionStatistics g) (mNumberPointsInPerCellLeft g) (mCellPairs g)
        (mvMatchPairs g) (mvbInlierMask g) (mGridNeighborLeft g) nb (mAlpha g).

Definition set_mMotionStatistics (m : Mat) (g : GMS_Matcher) :=
  mkGMS (mvP1 g) (mvP2 g) (mvMatches g) (mNumberMatches g) (mGridSizeLeft g)
        (mGridSizeRight g) (mGridNumberLeft g) (mGridNumberRight g)
        m (mNumberPointsInPerCellLeft g) (mCellPairs g)
        (mvMatchPairs g) (mvbInlierMask g) (mGridNeighborLeft g)
        (mGridNeighborRight g) (mAlpha g).

Definition set_mNumberPointsInPerCellLeft (v : list Z) (g : GMS_Matcher) :=
  mkGMS (mvP1 g) (mvP2 g) (mvMatches g) (mNumberMatches g) (mGridSizeLeft g)
        (mGridSizeRight g) (mGridNumberLeft g) (mGridNumberRight g)
        (mMotionStatistics g) v (mCellPairs g)
        (mvMatchPairs g) (mvbInlierMask g) (mGridNeighborLeft g)
        (mGridNeighborRight g) (mAlpha g).

Definition set_mCellPairs (v : list Z) (g : GMS_Matcher) :=
  mkGMS (mvP1 g) (mvP2 g) (mvMatches g) (mNumberMatches g) (mGridSizeLeft g)
        (mGridSizeRight g) (mGridNumberLeft g) (mGridNumberRight g)
        (mMotionStatistics g) (mNumberPointsInPerCellLeft g) v
        (mvMatchPairs g) (mvbInlierMask g) (mGridNeighborLeft g)
        (mGridNeighborRight g) (mAlpha g).

Definition set_mvMatchPairs (v : list (Z * Z)) (g : GMS_Matcher) :=
  mkGMS (mvP1 g) (mvP2 g) (mvMatches g) (mNumberMatches g) (mGridSizeLeft g)
        (mGridSizeRight g) (mGridNumberLeft g) (mGridNumberRight g)
        (mMotionStatistics g) (mNumberPointsInPerCellLeft g) (mCellPairs g)
        v (mvbInlierMask g) (mGridNeighborLeft g)
        (mGridNeighborRight g) (mAlpha g).

Definition set_mvbInlierMask (v : list bool) (g : GMS_Matcher) :=
  mkGMS (mvP1 g) (mvP2 g) (mvMatches g) (mNumberMatches g) (mGridSizeLeft g)
        (mGridSizeRight g) (mGridNumberLeft g) (mGridNumberRight g)
        (mMotionStatistics g) (mNumberPointsInPerCellLeft g) (mCellPairs g)
        (mvMatchPairs g) v (mGridNeighborLeft g)
        (mGridNeighborRight g) (mAlpha g).

(** *** AssignMatchPairs *)

(** One iteration of the loop of [AssignMatchPairs], for match [i]. *)
Definition AssignMatchPair (GridType : Z) (i : nat) (g : GMS_Matcher)
  : option GMS_Matcher :=
  m ← mvMatches g !! i;
  lp ← vget (mvP1 g) m.1;
  rp ← vget (mvP2 g) m.2;
  mp ← mvMatchPairs g !! i;
  let lgidx := GetGridIndexLeft (mGridSizeLeft g) lp GridType in
  let rgidx := if GridType =? 1
               then GetGridIndexRight (mGridSizeRight g) rp
               else mp.2 in
  let g := set_mvMatchPairs (<[i := (lgidx, rgidx)]> (mvMatchPairs g)) g in
  if (lgidx <? 0) || (rgidx <? 0) then Some g
  else
    stats ← Mat_incr (mMotionStatistics g) lgidx rgidx;
    n ← vget (mNumberPointsInPerCellLeft g) lgidx;
    Some (set_mNumberPointsInPerCellLeft
            (<[Z.to_nat lgidx := n + 1]> (mNumberPointsInPerCellLeft g))
            (set_mMotionStatistics stats g)).

Definition AssignMatchPairs (GridType : Z) (g : GMS_Matcher) : option GMS_Matcher :=
  for_size (mNumberMatches g) 0 (AssignMatchPair GridType) g.

(** *** VerifyCellPairs *)

(** The loop over [j] that looks for the largest vote of a row: the state
    is the pair of [mCellPairs[i]] and [max_number]. *)
Definition max_vote_step (value : list Z) (j : Z) (acc : Z * Z) : option (Z * Z) :=
  v ← vget value j;
  if v >? acc.2 then Some (j, v) else Some acc.

Definition max_vote (value : list Z) (mGridNumberRight : Z) (cell_pair : Z)
  : option (Z * Z) :=
  for_loop (Z.to_nat mGridNumberRight) 0 (max_vote_step value) (cell_pair, 0).

(** The loop over the nine slots: the state is [(score, thresh, numpair)]. *)
Definition support_step (stats : Mat) (population : list Z)
    (NB9_lt NB9_rt CurrentRP : list Z) (j : Z) (acc : Z * Z * Z)
  : option (Z * Z * Z) :=
  ll ← vget NB9_lt j;
  p ← vget CurrentRP j;
  rr ← vget NB9_rt (p - 1);
  if (ll =? -1) || (rr =? -1) then Some acc
  else
    v ← Mat_at stats ll rr;
    n ← vget population ll;
    let '(score, thresh, numpair) := acc in
    Some (score + v, thresh + n, numpair + 1).

Definition support (stats : Mat) (population : list Z)
    (NB9_lt NB9_rt CurrentRP : list Z) : option (Z * Z * Z) :=
  for_loop 9 0 (support_step stats population NB9_lt NB9_rt CurrentRP) (0, 0, 0).

(** [(score, thresh, numpair)] of the left cell [i] paired with the right
    cell [idx_grid_rt]. *)
Definition NeighborSupport (CurrentRP : list Z) (i idx_grid_rt : Z)
    (g : GMS_Matcher) : option (Z * Z * Z) :=
  NB9_lt ← vget (mGridNeighborLeft g) i;
  NB9_rt ← vget (mGridNeighborRight g) idx_grid_rt;
  support (mMotionStatistics g) (mNumberPointsInPerCellLeft g)
          NB9_lt NB9_rt CurrentRP.

(** One iteration of the loop of [VerifyCellPairs], for the left cell [i]. *)
Definition VerifyCellPair `{DoubleArith} (CurrentRP : list Z) (i : Z)
    (g : GMS_Matcher) : option GMS_Matcher :=
  value ← vget (mMotionStatistics g) i;
  if row_sum value =? 0 then
    cells ← vset (mCellPairs g) i (-1);
    Some (set_mCellPairs cells g)
  else
    cell_pair ← vget (mCellPairs g) i;
    found ← max_vote value (mGridNumberRight g) cell_pair;
    let idx_grid_rt := found.1 in
    acc ← NeighborSupport CurrentRP i idx_grid_rt g;
    let '(score, thresh, numpair) := acc in
    cells ← vset (mCellPairs g) i
                 (if score_below_thresh (mAlpha g) score thresh numpair
                  then -2 else idx_grid_rt);
    Some (set_mCellPairs cells g).

Definition VerifyCellPairs `{DoubleArith} (RotationType : Z) (g : GMS_Matcher)
  : option GMS_Matcher :=
  CurrentRP ← vget kRotationPatterns (RotationType - 1);
  for_loop (Z.to_nat (mGridNumberLeft g)) 0 (VerifyCellPair CurrentRP) g.

(** *** SetScale *)

Definition SetScale (Scale : Z) (g : GMS_Matcher) : option GMS_Matcher :=
  w ← scaled_dim Scale (width (mGridSizeLeft g));
  h ← scaled_dim Scale (height (mGridSizeLeft g));
  let sz := mkSize w h in
  Some (set_right_grid sz (w * h) (NeighborTable sz) g).

(** *** Run *)

(** The marking loop at the end of one offset pass, for match [i]. *)
Definition MarkInlier (i : nat) (g : GMS_Matcher) : option GMS_Matcher :=
  mp ← mvMatchPairs g !! i;
  if mp.1 =? -1 then Some g
  else
    c ← vget (mCellPairs g) mp.1;
    if c =? mp.2 then
      _ ← mvbInlierMask g !! i;
      Some (set_mvbInlierMask (<[i := true]> (mvbInlierMask g)) g)
    else Some g.

(** Voting and verification of one grid offset: the body of the loop over
    [GridType] up to the marking of the inliers. *)
Definition OffsetVote `{DoubleArith} (RotationType GridType : Z) (g : GMS_Matcher)
  : option GMS_Matcher :=
  let g := set_mMotionStatistics (Mat_setTo0 (mMotionStatistics g)) g in
  let g := set_mCellPairs (replicate (Z.to_nat (mGridNumberLeft g)) (-1)) g in
  let g := set_mNumberPointsInPerCellLeft
             (replicate (Z.to_nat (mGridNumberLeft g)) 0) g in
  g ← AssignMatchPairs GridType g;
  VerifyCellPairs RotationType g.

Definition MarkInliers (g : GMS_Matcher) : option GMS_Matcher :=
  for_size (mNumberMatches g) 0 MarkInlier g.

(** The body of the loop over [GridType]. *)
Definition OffsetPass `{DoubleArith} (RotationType GridType : Z) (g : GMS_Matcher)
  : option GMS_Matcher :=
  g ← OffsetVote RotationType GridType g;
  MarkInliers g.

(** The number of [true] entries of a mask. *)
Definition count_inliers (mask : list bool) : Z :=
  foldl (λ num_inlier (i : bool), if i then num_inlier + 1 else num_inlier) 0 mask.

(** The assignments that open [Run]. *)
Definition RunInit (g : GMS_Matcher) : GMS_Matcher :=
  let g := set_mvbInlierMask (replicate (mNumberMatches g) false) g in
  let g := set_mMotionStatistics
             (Mat_zeros (mGridNumberLeft g) (mGridNumberRight g)) g in
  set_mvMatchPairs (replicate (mNumberMatches g) (0, 0)) g.

Definition Run `{DoubleArith} (RotationType : Z) (g : GMS_Matcher)
  : option (Z * GMS_Matcher) :=
  g ← for_loop 4 1 (OffsetPass RotationType) (RunInit g);
  Some (count_inliers (mvbInlierMask g), g).

(** *** GetInlierMask *)

(** The state of the search loops: [max_inlier], the caller's [vbInliers]
    and the matcher. *)
Definition Search : Type := Z * list bool * GMS_Matcher.

(** [int num_inlier = Run(RotationType); if (num_inlier > max_inlier) ...]. *)
Definition TryRotation `{DoubleArith} (RotationType : Z) (s : Search) : option Search :=
  let '(max_inlier, vbInliers, g) := s in
  r ← Run RotationType g;
  let '(num_inlier, g) := r in
  if num_inlier >? max_inlier
  then Some (num_inlier, mvbInlierMask g, g)
  else Some (max_inlier, vbInliers, g).

Definition GetInlierMask `{DoubleArith} (vbInliers : list bool)
    (WithScale WithRotation : bool) (g : GMS_Matcher) : option Search :=
  let max_inlier := 0 in
  if negb WithScale && negb WithRotation then
    g ← SetScale 0 g;
    r ← Run 1 g;
    let '(max_inlier, g) := r in
    Some (max_inlier, mvbInlierMask g, g)
  else if WithRotation && WithScale then
    for_loop 5 0 (λ Scale '(max_inlier, vbInliers, g),
      g ← SetScale Scale g;
      for_loop 8 1 TryRotation (max_inlier, vbInliers, g))
      (max_inlier, vbInliers, g)
  else if WithRotation && negb WithScale then
    g ← SetScale 0 g;
    for_loop 8 1 TryRotation (max_inlier, vbInliers, g)
  else if negb WithRotation && WithScale then
    for_loop 5 0 (λ Scale '(max_inlier, vbInliers, g),
      g ← SetScale Scale g;
      TryRotation 1 (max_inlier, vbInliers, g))
      (max_inlier, vbInliers, g)
  else Some (max_inlier, vbInliers, g).

(** *** Construction *)

Record KeyPoint := mkKeyPoint { pt : Point2f }.

Record DMatch := mkDMatch { queryIdx : Z; trainIdx : Z; distance : Q }.

Definition NormalizePoints (kp : list KeyPoint) (size : Size) : list Point2f :=
  map (λ k, mkPoint2f (pt_x (pt k) / inject_Z (width size))
                      (pt_y (pt k) / inject_Z (height size))) kp.

Definition ConvertMatches (vDMatches : list DMatch) : list (Z * Z) :=
  map (λ m, (queryIdx m, trainIdx m)) vDMatches.

(** The constructor with parameters.  The members it leaves untouched are
    written by [SetScale] and [Run] before they are read. *)
Definition GMS_Matcher_new (vkp1 : list KeyPoint) (size1 : Size)
    (vkp2 : list KeyPoint) (size2 : Size) (vDMatches : list DMatch)
    (grid_size : Size) (alpha : Q) : GMS_Matcher :=
  {| mvP1 := NormalizePoints vkp1 size1;
     mvP2 := NormalizePoints vkp2 size2;
     mvMatches := ConvertMatches vDMatches;
     mNumberMatches := length vDMatches;
     mGridSizeLeft := grid_size;
     mGridSizeRight := mkSize 0 0;
     mGridNumberLeft := width grid_size * height grid_size;
     mGridNumberRight := 0;
     mMotionStatistics := [];
     mNumberPointsInPerCellLeft := [];
     mCellPairs := [];
     mvMatchPairs := [];
     mvbInlierMask := [];
     mGridNeighborLeft := NeighborTable grid_size;
     mGridNeighborRight := [];
     mAlpha := alpha |}.

(** ** The dispatcher of match_pruner.cpp *)

Inductive PrunerType := PRUNER_RATIO | PRUNER_GMS | PRUNER_LPM.

(** The LPM matcher of [libLPM] is not part of the sources at hand: it is
    used through its constructor and [Match], which take the two point
    sequences, the neighbour count, lambda, tau and the optional labels of a
    previous pass, and give the costs and the labels. *)
Class LPM_Matcher := {
  LPM_Match : list Point2f → list Point2f → Z → Q → Q → option (list bool) →
              list Q * list bool
}.

(** The members of [class MatchPruner]; of the two images only the size is
    ever read. *)
Record MatchPruner := mkPruner {
  query_image_ : Size;
  refer_image_ : Size;
  query_kpts_ : list KeyPoint;
  refer_kpts_ : list KeyPoint;
  putative_matches_ : list (list DMatch);
  pruner_method_ : PrunerType;
  pruned_matches_ : list DMatch;
  scores_ : list Q;
  query_mpts_ : list Point2f;
  refer_mpts_ : list Point2f;
  knn_distances_ : list (list Q)
}.

(** [pruned_matches_.push_back(m); scores_.push_back(score)]. *)
Definition accept_match (m : DMatch) (score : Q) (p : MatchPruner) : MatchPruner :=
  mkPruner (query_image_ p) (refer_image_ p) (query_kpts_ p) (refer_kpts_ p)
           (putative_matches_ p) (pruner_method_ p)
           (pruned_matches_ p ++ [m]) (scores_ p ++ [score])
           (query_mpts_ p) (refer_mpts_ p) (knn_distances_ p).

Definition set_outputs (q r : list Point2f) (knn : list (list Q)) (p : MatchPruner) :=
  mkPruner (query_image_ p) (refer_image_ p) (query_kpts_ p) (refer_kpts_ p)
           (putative_matches_ p) (pruner_method_ p)
           (pruned_matches_ p) (scores_ p) q r knn.

(** [tmp_matches[0].distance / tmp_matches[1].distance < ratio].  A division
    by a zero distance gives an infinity or a NaN, neither of which is below
    the ratio. *)
Definition ratio_score (d0 d1 : Q) : Q := (d0 / d1)%Q.

Definition below_ratio (d1 score ratio : Q) : bool :=
  negb (Qeq_bool d1 0) && negb (Qle_bool ratio score).

(** One iteration of the loop of [PruneMatchesByRatioTest]. *)
Definition RatioTest (ratio : Q) (i : nat) (p : MatchPruner) : option MatchPruner :=
  tmp_matches ← putative_matches_ p !! i;
  m0 ← tmp_matches !! 0%nat;
  m1 ← tmp_matches !! 1%nat;
  let score := ratio_score (distance m0) (distance m1) in
  if below_ratio (distance m1) score ratio
  then Some (accept_match m0 score p)
  else Some p.

Definition PruneMatchesByRatioTest (ratio : Q) (p : MatchPruner) : option MatchPruner :=
  for_size (length (putative_matches_ p)) 0 (RatioTest ratio) p.

(** [initial_matches[i] = putative_matches_[i][0]] for every [i]. *)
Definition initial_matches (putative : list (list DMatch)) : option (list DMatch) :=
  mapM (λ candidates : list DMatch, candidates !! 0%nat) putative.

(** The loops that append the matches whose label is set; [score i] is the
    score of match [i]. *)
Definition accept_labelled (labels : list bool) (initial : list DMatch)
    (score : nat → option Q) (p : MatchPruner) : option MatchPruner :=
  for_size (length labels) 0 (λ i p,
    l ← labels !! i;
    if l : bool then
      m ← initial !! i;
      s ← score i;
      Some (accept_match m s p)
    else Some p) p.

Definition PruneMatchesByGMS `{DoubleArith} (grid_size : Size) (alpha : Q)
    (p : MatchPruner) : option MatchPruner :=
  initial ← initial_matches (putative_matches_ p);
  let gms_matcher :=
    GMS_Matcher_new (query_kpts_ p) (query_image_ p)
                    (refer_kpts_ p) (refer_image_ p) initial grid_size alpha in
  r ← GetInlierMask [] true true gms_matcher;
  let labels := r.1.2 in
  accept_labelled labels initial (λ _, Some 1%Q) p.

Definition PruneMatchesByLPM `{LPM_Matcher} (knn0 : Z) (lambda0 tau0 : Q)
    (knn1 : Z) (lambda1 tau1 : Q) (p : MatchPruner) : option MatchPruner :=
  initial ← initial_matches (putative_matches_ p);
  query_pts ← mapM (λ m, pt <$> vget (query_kpts_ p) (queryIdx m)) initial;
  refer_pts ← mapM (λ m, pt <$> vget (refer_kpts_ p) (trainIdx m)) initial;
  let '(cost0, labels0) := LPM_Match query_pts refer_pts knn0 lambda0 tau0 None in
  let '(cost1, labels1) :=
    LPM_Match query_pts refer_pts knn1 lambda1 tau1 (Some labels0) in
  accept_labelled labels1 initial (λ i, cost1 !! i) p.

(** The row of [knn_distances_] of one pruned match: the loop over [j]. *)
Definition knn_row (putative : list (list DMatch)) (knn : nat) (m : DMatch)
  : option (list Q) :=
  mapM (λ j, candidates ← vget putative (queryIdx m);
             distance <$> candidates !! j) (seq 0 knn).

(** The matched points and the distances of one pruned match: the body of
    the loop over [i] that closes [PruneMatches]. *)
Definition matched_output (p : MatchPruner) (knn : nat) (m : DMatch)
  : option (Point2f * Point2f * list Q) :=
  q ← vget (query_kpts_ p) (queryIdx m);
  r ← vget (refer_kpts_ p) (trainIdx m);
  row ← knn_row (putative_matches_ p) knn m;
  Some (pt q, pt r, row).

Definition PruneMatches `{DoubleArith} `{LPM_Matcher} (p : MatchPruner)
  : option MatchPruner :=
  p ← match pruner_method_ p with
      | PRUNER_RATIO => PruneMatchesByRatioTest (8 # 10) p
      | PRUNER_GMS => PruneMatchesByGMS (mkSize 15 15) 6 p
      | PRUNER_LPM => PruneMatchesByLPM 8 (8 # 10) (2 # 10) 8 (5 # 10) (2 # 10) p
      end;
  first ← putative_matches_ p !! 0%nat;
  let knn := length first in
  out ← mapM (matched_output p knn) (pruned_matches_ p);
  Some (set_outputs (map (λ o, o.1.1) out) (map (λ o, o.1.2) out)
                    (map (λ o, o.2) out) p).

(** The constructor of [MatchPruner] stores its arguments and prunes. *)
Definition MatchPruner_new `{DoubleArith} `{LPM_Matcher} (img0 img1 : Size)
    (keypts0 keypts1 : list KeyPoint) (matches : list (list DMatch))
    (method : PrunerType) : option MatchPruner :=
  PruneMatches (mkPruner img0 img1 keypts0 keypts1 matches method [] [] [] [] []).

(** ** Reference instances of the two interfaces *)

(** The threshold test in exact arithmetic, for [alpha >= 0], [score >= 0]
    and [numpair > 0]: [score < alpha * sqrt(thresh / numpair)] iff
    [score^2 * numpair < alpha^2 * thresh]. *)
Definition exact_below_thresh (alpha : Q) (score thresh numpair : Z) : bool :=
  negb (Qle_bool (alpha * alpha * inject_Z thresh)
                 (inject_Z (score * score * numpair))).

Definition ExactArith : DoubleArith :=
  {| score_below_thresh := exact_below_thresh |}.

(** An LPM matcher that labels every correspondence an inlier of cost 0. *)
Definition KeepAll : LPM_Matcher :=
  {| LPM_Match := λ q _ _ _ _ _, (map (λ _, 0%Q) q, map (λ _, true) q) |}.

(** ** Vocabulary of the statements *)

(** The members that only the constructor writes. *)
Definition inputs (g : GMS_Matcher) :=
  (mvP1 g, mvP2 g, mvMatches g, mNumberMatches g, mGridSizeLeft g,
   mGridNumberLeft g, mGridNeighborLeft g, mAlpha g).

(** The members that only [SetScale] writes. *)
Definition right_grid (g : GMS_Matcher) :=
  (mGridSizeRight g, mGridNumberRight g, mGridNeighborRight g).

(** Both grids are those of a constructed matcher after [SetScale]: no
    dimension is negative and the neighbour tables are in place. *)
Definition grids_ready (g : GMS_Matcher) : Prop :=
  0 ≤ width (mGridSizeLeft g) ∧ 0 ≤ height (mGridSizeLeft g) ∧
  0 ≤ width (mGridSizeRight g) ∧ 0 ≤ height (mGridSizeRight g) ∧
  mGridNeighborLeft g = NeighborTable (mGridSizeLeft g) ∧
  mGridNeighborRight g = NeighborTable (mGridSizeRight g).

(** What the loop of [max_vote] has found after the columns below [j]:
    nothing while no vote is positive, else the first column that holds the
    largest vote. *)
Definition max_vote_inv (value : list Z) (cell_pair j : Z) (acc : Z * Z) : Prop :=
  (acc = (cell_pair, 0) ∧ ∀ k v, k < j → vget value k = Some v → v ≤ 0) ∨
  (0 < acc.2 ∧ 0 ≤ acc.1 < j ∧ vget value acc.1 = Some acc.2 ∧
   (∀ k v, k < j → vget value k = Some v → v ≤ acc.2) ∧
   (∀ k v, k < acc.1 → vget value k = Some v → v < acc.2)).

(** What the pairing [c] of a left cell says about its row [value] of the
    vote matrix, [rightCells] being the number of right cells. *)
Definition pairing_verdict (value : list Z) (rightCells c : Z) : Prop :=
  (c = -1 ∧ Forall (λ v, v = 0) value) ∨
  (c = -2 ∧ Exists (λ v, 0 < v) value) ∨
  (0 ≤ c < rightCells ∧ Exists (λ v, 0 < v) value).

(** The left cell of match [i] under the offset [GridType], and its right
    cell. *)
Definition left_cell (g : GMS_Matcher) (GridType : Z) (i : nat) : option Z :=
  m ← mvMatches g !! i;
  lp ← vget (mvP1 g) m.1;
  Some (GetGridIndexLeft (mGridSizeLeft g) lp GridType).

Definition right_cell (g : GMS_Matcher) (i : nat) : option Z :=
  m ← mvMatches g !! i;
  rp ← vget (mvP2 g) m.2;
  Some (GetGridIndexRight (mGridSizeRight g) rp).

(** Match [i] is marked under the offset whose vote ended in [g]: its left
    cell is not -1 and the pairing of that cell is its right cell. *)
Definition marked (g : GMS_Matcher) (i : nat) : bool :=
  match mvMatchPairs g !! i with
  | Some (l, r) =>
      if l =? -1 then false
      else match vget (mCellPairs g) l with
           | Some c => c =? r
           | None => false
           end
  | None => false
  end.


(** The hypotheses [(Scale, RotationType)] that [GetInlierMask] evaluates,
    in order. *)
Definition searched (WithScale WithRotation : bool) : list (Z * Z) :=
  s ← (if WithScale then [0; 1; 2; 3; 4] else [0]);
  r ← (if WithRotation then [1; 2; 3; 4; 5; 6; 7; 8] else [1]);
  [(s, r)].

(** The inlier count of one hypothesis. *)
Definition hypothesis_count `{DoubleArith} (Scale RotationType : Z)
    (g : GMS_Matcher) : option Z :=
  g ← SetScale Scale g;
  r ← Run RotationType g;
  Some r.1.

(** ** A small matcher to run the definitions on *)

(** Four matches between two 100 x 100 images, on a 2 x 2 grid: three of them
    move a cluster of the top-left cell onto itself. *)
Definition demo_keypoints1 : list KeyPoint :=
  [ mkKeyPoint (mkPoint2f 10 10); mkKeyPoint (mkPoint2f 12 12);
    mkKeyPoint (mkPoint2f 11 13); mkKeyPoint (mkPoint2f 80 80) ].

Definition demo_keypoints2 : list KeyPoint :=
  [ mkKeyPoint (mkPoint2f 10 10); mkKeyPoint (mkPoint2f 12 12);
    mkKeyPoint (mkPoint2f 11 13); mkKeyPoint (mkPoint2f 20 70) ].

Definition demo_matches : list DMatch :=
  [ mkDMatch 0 0 1; mkDMatch 1 1 1; mkDMatch 2 2 1; mkDMatch 3 3 1 ].

Definition demo_matcher : GMS_Matcher :=
  GMS_Matcher_new demo_keypoints1 (mkSize 100 100)
                  demo_keypoints2 (mkSize 100 100)
                  demo_matches (mkSize 2 2) 1.

(** The demo matcher after [SetScale(0)] and the assignments that open
    [Run]. *)
Definition demo_scaled : GMS_Matcher :=
  match SetScale 0 demo_matcher with
  | Some g => g
  | None => demo_matcher
  end.

Definition demo_ready : GMS_Matcher := RunInit demo_scaled.

(** The demo matcher after the vote of the first offset. *)
Definition demo_voted : GMS_Matcher :=
  match @OffsetVote ExactArith 1 1 demo_ready with
  | Some g => g
  | None => demo_matcher
  end.

(** The demo matcher with a support factor that no cell pairing meets. *)
Definition demo_strict : GMS_Matcher :=
  GMS_Matcher_new demo_keypoints1 (mkSize 100 100)
                  demo_keypoints2 (mkSize 100 100)
                  demo_matches (mkSize 2 2) 100.

(** ** Well-formed matchers *)

(** A normalized point of a keypoint inside of its image. *)
Definition in_unit_square (p : Point2f) : Prop :=
  (0 <= pt_x p)%Q ∧ (pt_x p < 1)%Q ∧ (0 <= pt_y p)%Q ∧ (pt_y p < 1)%Q.

(** The matches are as many as [mNumberMatches] says, and each of them
    names two points that exist and lie inside of their images. *)
Definition matches_ok (g : GMS_Matcher) : Prop :=
  length (mvMatches g) = mNumberMatches g ∧
  Forall (λ m, ∃ lp rp,
            vget (mvP1 g) m.1 = Some lp ∧ vget (mvP2 g) m.2 = Some rp ∧
            in_unit_square lp ∧ in_unit_square rp)
         (mvMatches g).

(** The left grid as the constructor leaves it. *)
Definition left_grid_ok (g : GMS_Matcher) : Prop :=
  0 ≤ width (mGridSizeLeft g) ∧ 0 ≤ height (mGridSizeLeft g) ∧
  mGridNumberLeft g = width (mGridSizeLeft g) * height (mGridSizeLeft g) ∧
  mGridNeighborLeft g = NeighborTable (mGridSizeLeft g).

(** The right grid as [SetScale] leaves it, with at least one cell. *)
Definition right_grid_ok (g : GMS_Matcher) : Prop :=
  0 < width (mGridSizeRight g) ∧ 0 < height (mGridSizeRight g) ∧
  mGridNumberRight g = width (mGridSizeRight g) * height (mGridSizeRight g) ∧
  mGridNeighborRight g = NeighborTable (mGridSizeRight g).

Definition matcher_ready (g : GMS_Matcher) : Prop :=
  matches_ok g ∧ left_grid_ok g ∧ right_grid_ok g.

(** A matrix of [rows] rows of [cols] entries. *)
Definition Mat_shape (m : Mat) (rows cols : Z) : Prop :=
  length m = Z.to_nat rows ∧ Forall (λ row, length row = Z.to_nat cols) m.

(** The working members between two offsets of [Run]: the vote matrix has
    one row per left cell and one column per right cell, there is a cell
    pair and a mask entry per match, and the recorded right cells are below
    the number of right cells. *)
Definition working_ok (g : GMS_Matcher) : Prop :=
  Mat_shape (mMotionStatistics g) (mGridNumberLeft g) (mGridNumberRight g) ∧
  length (mvMatchPairs g) = mNumberMatches g ∧
  length (mvbInlierMask g) = mNumberMatches g ∧
  Forall (λ mp : Z * Z, mp.2 < mGridNumberRight g) (mvMatchPairs g).

(** A keypoint inside of an image of the given size. *)
Definition inside_image (size : Size) (k : KeyPoint) : Prop :=
  (0 <= pt_x (pt k))%Q ∧ (pt_x (pt k) < inject_Z (width size))%Q ∧
  (0 <= pt_y (pt k))%Q ∧ (pt_y (pt k) < inject_Z (height size))%Q.

(** A match between two keypoints that exist. *)
Definition match_in_range (vkp1 vkp2 : list KeyPoint) (m : DMatch) : Prop :=
  0 ≤ queryIdx m < Z.of_nat (length vkp1) ∧
  0 ≤ trainIdx m < Z.of_nat (length vkp2).

(** The left grid is large enough for the searches: the scale 1/2 needs two
    columns and two rows to leave a right grid with a cell. *)
Definition grid_fits (WithScale : bool) (grid_size : Size) : Prop :=
  if WithScale then 2 ≤ width grid_size ∧ 2 ≤ height grid_size
  else 1 ≤ width grid_size ∧ 1 ≤ height grid_size.

(** The mask that one hypothesis leaves. *)
Definition hypothesis_mask `{DoubleArith} (Scale RotationType : Z)
    (g : GMS_Matcher) : option (list bool) :=
  g ← SetScale Scale g;
  r ← Run RotationType g;
  Some (mvbInlierMask r.2).

(** [max_inlier] and [mask] are what the search holds once the hypotheses
    [tried] are evaluated, from 0 and the vector of the caller: no tried
    hypothesis has a larger count, and the pair is the initial one or the
    count and the mask of a tried hypothesis. *)
Definition best_of `{DoubleArith} (g : GMS_Matcher) (vbInliers : list bool)
    (tried : Z → Z → Prop) (max_inlier : Z) (mask : list bool) : Prop :=
  (∀ Scale RotationType, tried Scale RotationType →
     ∃ c, hypothesis_count Scale RotationType g = Some c ∧ c ≤ max_inlier) ∧
  ((max_inlier = 0 ∧ mask = vbInliers) ∨
   (0 < max_inlier ∧
    ∃ Scale RotationType,
      tried Scale RotationType ∧
      hypothesis_count Scale RotationType g = Some max_inlier ∧
      hypothesis_mask Scale RotationType g = Some mask)).

(** The demo matches on a grid of one column, and the demo keypoints
    without a match. *)
Definition demo_thin : GMS_Matcher :=
  GMS_Matcher_new demo_keypoints1 (mkSize 100 100)
                  demo_keypoints2 (mkSize 100 100)
                  demo_matches (mkSize 1 3) 1.

Definition demo_unmatched : GMS_Matcher :=
  GMS_Matcher_new demo_keypoints1 (mkSize 100 100)
                  demo_keypoints2 (mkSize 100 100)
                  [] (mkSize 2 2) 1.

(** ** Vocabulary of the dispatcher *)

(** The pruner after the matches of [accepted] are appended with their
    scores, in order. *)
Definition accept_all (accepted : list (DMatch * Q)) (p : MatchPruner)
  : MatchPruner :=
  foldl (λ p ms, accept_match ms.1 ms.2 p) p accepted.

(** The positions of the labels that are set, in increasing order. *)
Definition labelled_indices (labels : list bool) : list nat :=
  filter (λ i, labels !! i = Some true) (seq 0 (length labels)).

(** Two queries with two candidates each between two keypoints per image:
    the first passes the ratio test at 0.8, the second does not. *)
Definition demo_putative : list (list DMatch) :=
  [ [mkDMatch 0 0 1; mkDMatch 0 1 3];
    [mkDMatch 1 1 2; mkDMatch 1 0 (22 # 10)] ].

Definition demo_pruner (method : PrunerType) : MatchPruner :=
  mkPruner (mkSize 100 100) (mkSize 100 100)
           [mkKeyPoint (mkPoint2f 1 1); mkKeyPoint (mkPoint2f 2 2)]
           [mkKeyPoint (mkPoint2f 1 1); mkKeyPoint (mkPoint2f 2 2)]
           demo_putative method [] [] [] [] [].

(** The demo matcher after the resets and the votes of the first offset,
    before the verification. *)
Definition demo_assigned : GMS_Matcher :=
  let g := set_mMotionStatistics (Mat_setTo0 (mMotionStatistics demo_ready))
                                 demo_ready in
  let g := set_mCellPairs (replicate (Z.to_nat (mGridNumberLeft g)) (-1)) g in
  let g := set_mNumberPointsInPerCellLeft
             (replicate (Z.to_nat (mGridNumberLeft g)) 0) g in
  match AssignMatchPairs 1 g with
  | Some g => g
  | None => demo_matcher
  end.

(** Candidate lists as a [knnMatch] with [k] neighbours gives them: one list
    of [k] candidates per query, at least one query, and in every candidate
    the index of a keypoint of each image and of a query. *)
Definition knn_shaped (p : MatchPruner) (k : nat) : Prop :=
  putative_matches_ p ≠ [] ∧
  Forall (λ c, length c = k) (putative_matches_ p) ∧
  Forall (Forall (λ m,
            0 ≤ queryIdx m < Z.of_nat (length (putative_matches_ p)) ∧
            match_in_range (query_kpts_ p) (refer_kpts_ p) m))
         (putative_matches_ p).

(** * Properties *)

(** ** The embedding on small inputs *)

Example GetNB9_centre_3x3 : GetNB9 4 (mkSize 3 3) = [0; 1; 2; 3; 4; 5; 6; 7; 8].
Proof. reflexivity. Qed.

Example GetNB9_corner_3x3 :
  GetNB9 0 (mkSize 3 3) = [-1; -1; -1; -1; 0; 1; -1; 3; 4].
Proof. reflexivity. Qed.

Example GetGridIndexLeft_inside :
  GetGridIndexLeft (mkSize 15 15) (mkPoint2f (1 # 2) (1 # 5)) 1 = 52.
Proof. reflexivity. Qed.

Example GetGridIndexLeft_shifted_out :
  GetGridIndexLeft (mkSize 15 15) (mkPoint2f (99 # 100) (1 # 5)) 2 = -1.
Proof. reflexivity. Qed.

Example scaled_dims_of_15 :
  map (λ Scale, scaled_dim Scale 15) [0; 1; 2; 3; 4; 5]
  = [Some 15; Some 7; Some 10; Some 21; Some 30; None].
Proof. reflexivity. Qed.

Example demo_plain_filter :
  (r ← @GetInlierMask ExactArith [] false false demo_matcher; Some r.1)
  = Some (4, [true; true; true; true]).
Proof. vm_compute. reflexivity. Qed.

(** A reference keypoint on the right border of its image, in the top row:
    its right cell is cell 2, the first cell of the bottom row. *)
Example far_edge_right_cell :
  right_cell
    (GMS_Matcher_new [mkKeyPoint (mkPoint2f 10 10)] (mkSize 100 100)
                     [mkKeyPoint (mkPoint2f 100 10)] (mkSize 100 100)
                     [mkDMatch 0 0 1] (mkSize 2 2) 1) 0
  = Some 0 ∧
  (g ← SetScale 0
         (GMS_Matcher_new [mkKeyPoint (mkPoint2f 10 10)] (mkSize 100 100)
                          [mkKeyPoint (mkPoint2f 100 10)] (mkSize 100 100)
                          [mkDMatch 0 0 1] (mkSize 2 2) 1);
   right_cell g 0)
  = Some 2.
Proof. split; vm_compute; reflexivity. Qed.

(** A reference keypoint in the bottom-right corner of its image: cell 6 of
    a grid of 4 cells, and the vote for it is written out of range. *)
Example far_edge_right_out_of_range :
  let g := GMS_Matcher_new [mkKeyPoint (mkPoint2f 10 10)] (mkSize 100 100)
                           [mkKeyPoint (mkPoint2f 100 100)] (mkSize 100 100)
                           [mkDMatch 0 0 1] (mkSize 2 2) 1 in
  (g ← SetScale 0 g; right_cell g 0) = Some 6 ∧
  @GetInlierMask ExactArith [] false false g = None.
Proof. split; vm_compute; reflexivity. Qed.

Example ratio_test_scenario :
  (p ← @MatchPruner_new ExactArith KeepAll (mkSize 100 100) (mkSize 100 100)
         [mkKeyPoint (mkPoint2f 1 1); mkKeyPoint (mkPoint2f 2 2)]
         [mkKeyPoint (mkPoint2f 1 1); mkKeyPoint (mkPoint2f 2 2)]
         [[mkDMatch 0 0 1; mkDMatch 0 1 3];
          [mkDMatch 1 1 2; mkDMatch 1 0 (22 # 10)]] PRUNER_RATIO;
   Some (pruned_matches_ p, scores_ p, knn_distances_ p))
  = Some ([mkDMatch 0 0 1], [(1 # 3)%Q], [[1%Q; 3%Q]]).
Proof. vm_compute. reflexivity. Qed.

(** ** Grid indexer: the far edge *)

Lemma Qfloor_inject_half (n : Z) : Qfloor (inject_Z n + half) = n.
Proof.
  unfold Qfloor, Qplus, inject_Z, half. cbn.
  change (Z.pos (1 * 2)) with 2.
  replace (n * 2 + 1 * 1) with (1 + n * 2) by lia.
  rewrite Z.div_add by lia. reflexivity.
Qed.

Lemma Qfloor_one_times (x : Q) (n : Z) : (x == 1)%Q → Qfloor (x * inject_Z n) = n.
Proof.
  intros Hx. rewrite (Qfloor_comp _ (inject_Z n)), Qfloor_Z; [reflexivity|].
  rewrite Hx. ring.
Qed.

Lemma Qfloor_one_times_half (x : Q) (n : Z) :
  (x == 1)%Q → Qfloor (x * inject_Z n + half) = n.
Proof.
  intros Hx. rewrite (Qfloor_comp _ (inject_Z n + half)), Qfloor_inject_half;
    [reflexivity|].
  rewrite Hx. ring.
Qed.

(** The left grid excludes a point on the far edge under each of the four
    offsets. *)
Lemma GetGridIndexLeft_far_edge (gs : Size) (p : Point2f) (type : Z) :
  1 ≤ type ≤ 4 →
  (pt_x p == 1)%Q ∨ (pt_y p == 1)%Q →
  GetGridIndexLeft gs p type = -1.
Proof.
  intros Ht Hp. unfold GetGridIndexLeft.
  assert (type = 1 ∨ type = 2 ∨ type = 3 ∨ type = 4) as Hc by lia.
  destruct Hp as [Hx|Hy];
    destruct Hc as [ -> | [ -> | [ -> | -> ] ] ]; cbn [Z.eqb Pos.eqb];
    rewrite ?(Qfloor_one_times _ _ Hx), ?(Qfloor_one_times_half _ _ Hx),
            ?(Qfloor_one_times _ _ Hy), ?(Qfloor_one_times_half _ _ Hy);
    rewrite !Z.geb_leb, ?Z.leb_refl, ?orb_true_r; reflexivity.
Qed.

(** C1. On the right grid a point whose x coordinate is exactly 1.0 is not
    excluded: [GetGridIndexRight] has no bound test and returns the index
    [width * (1 + y)], the first cell of the row below ([y] being the row of
    the point), which for the last row is one past the last cell of the
    grid. *)
Theorem GetGridIndexRight_far_edge (gs : Size) (p : Point2f) :
  (pt_x p == 1)%Q →
  GetGridIndexRight gs p
  = width gs * (1 + Qfloor (pt_y p * inject_Z (height gs))).
Proof.
  intros Hx. unfold GetGridIndexRight.
  rewrite (Qfloor_one_times _ _ Hx). lia.
Qed.

Lemma GetGridIndexRight_far_edge_witness :
  GetGridIndexRight (mkSize 15 15) (mkPoint2f 1 1) = 240 ∧
  GetGridIndexRight (mkSize 15 15) (mkPoint2f 1 (1 # 5)) = 60.
Proof.
  split.
  - rewrite (GetGridIndexRight_far_edge (mkSize 15 15) (mkPoint2f 1 1));
      [reflexivity|reflexivity].
  - rewrite (GetGridIndexRight_far_edge (mkSize 15 15) (mkPoint2f 1 (1 # 5)));
      [reflexivity|reflexivity].
Defined.

(** ** The neighbour table *)

Lemma cell_coordinates (gs : Size) (idx : Z) :
  0 < width gs → 0 ≤ idx < width gs * height gs →
  0 ≤ Z.rem idx (width gs) < width gs ∧
  0 ≤ Z.quot idx (width gs) < height gs.
Proof.
  intros HW Hidx. split.
  - apply Z.rem_bound_pos; lia.
  - split; [apply Z.quot_pos; lia|].
    apply Z.quot_lt_upper_bound; lia.
Qed.

(** The rows of the table are the neighbourhoods of [GetNB9]. *)
Lemma NeighborTable_row (gs : Size) (idx : Z) :
  0 ≤ idx < width gs * height gs →
  vget (NeighborTable gs) idx = Some (GetNB9 idx gs).
Proof.
  intros Hidx. unfold vget, NeighborTable, InitializeNeighbors, Mat_zeros.
  destruct (Z.leb_spec 0 idx); [|lia].
  rewrite list_lookup_imap, lookup_replicate_2 by lia.
  cbn. rewrite Z2Nat.id by lia. reflexivity.
Qed.


(** Decides the comparisons of the goal one by one; meant for goals in which
    the hypotheses settle each of them. *)
Ltac settle_comparisons :=
  rewrite ?Z.geb_leb;
  repeat match goal with
  | |- context [?a <? ?b] => destruct (Z.ltb_spec a b); [try lia|try lia]
  | |- context [?a <=? ?b] => destruct (Z.leb_spec a b); [try lia|try lia]
  | |- context [?a =? ?b] => destruct (Z.eqb_spec a b); [try lia|try lia]
  end.

(** The test of [GetNB9] for the neighbour at offset [(xi, yi)], and the
    slot it fills. *)
Lemma neighbor_slot_offset (gs : Size) (idx xi yi : Z) :
  -1 ≤ xi ≤ 1 → -1 ≤ yi ≤ 1 →
  neighbor_slot gs idx (xi + 4 + yi * 3)
  = if (Z.rem idx (width gs) + xi <? 0) ||
       (Z.rem idx (width gs) + xi >=? width gs) ||
       (Z.quot idx (width gs) + yi <? 0) ||
       (Z.quot idx (width gs) + yi >=? height gs)
    then -1
    else Z.rem idx (width gs) + xi + (Z.quot idx (width gs) + yi) * width gs.
Proof.
  intros Hx Hy. unfold neighbor_slot.
  assert ((xi + 4 + yi * 3) mod 3 - 1 = xi) as ->.
  { assert (xi = -1 ∨ xi = 0 ∨ xi = 1) as [ -> | [ -> | -> ] ] by lia;
    assert (yi = -1 ∨ yi = 0 ∨ yi = 1) as [ -> | [ -> | -> ] ] by lia;
    reflexivity. }
  assert ((xi + 4 + yi * 3) / 3 - 1 = yi) as ->.
  { assert (xi = -1 ∨ xi = 0 ∨ xi = 1) as [ -> | [ -> | -> ] ] by lia;
    assert (yi = -1 ∨ yi = 0 ∨ yi = 1) as [ -> | [ -> | -> ] ] by lia;
    reflexivity. }
  settle_comparisons; reflexivity.
Qed.

(** [GetNB9] in closed form: slot [k] holds the neighbour at row-major
    position [k] of the 3 x 3 window, or -1 when that neighbour is outside
    of the grid. *)
Lemma GetNB9_slots (gs : Size) (idx : Z) :
  GetNB9 idx gs = map (neighbor_slot gs idx) [0; 1; 2; 3; 4; 5; 6; 7; 8].
Proof.
  cbn [map].
  change (neighbor_slot gs idx 0) with (neighbor_slot gs idx (-1 + 4 + -1 * 3)).
  change (neighbor_slot gs idx 1) with (neighbor_slot gs idx (0 + 4 + -1 * 3)).
  change (neighbor_slot gs idx 2) with (neighbor_slot gs idx (1 + 4 + -1 * 3)).
  change (neighbor_slot gs idx 3) with (neighbor_slot gs idx (-1 + 4 + 0 * 3)).
  change (neighbor_slot gs idx 4) with (neighbor_slot gs idx (0 + 4 + 0 * 3)).
  change (neighbor_slot gs idx 5) with (neighbor_slot gs idx (1 + 4 + 0 * 3)).
  change (neighbor_slot gs idx 6) with (neighbor_slot gs idx (-1 + 4 + 1 * 3)).
  change (neighbor_slot gs idx 7) with (neighbor_slot gs idx (0 + 4 + 1 * 3)).
  change (neighbor_slot gs idx 8) with (neighbor_slot gs idx (1 + 4 + 1 * 3)).
  rewrite !neighbor_slot_offset by lia.
  unfold GetNB9, nb_offsets. cbn [foldl].
  repeat match goal with
  | |- context [if ?c || ?d then _ else _] =>
      let b := fresh "b" in set (b := c || d); clearbody b
  end.
  destruct b, b0, b1, b2, b3, b4, b5, b6, b7; reflexivity.
Qed.

(** C9 (as amended). In a grid of at least two columns and two rows, the
    row of the neighbour table of a cell lists the 3 x 3 window around it in
    row-major order with -1 for the neighbours outside of the grid, and has
    exactly 4 valid entries for a corner cell, 6 for an edge cell that is no
    corner and 9 for an interior cell. *)
Theorem NeighborTable_valid_slots (gs : Size) (idx : Z) :
  2 ≤ width gs → 2 ≤ height gs →
  0 ≤ idx < width gs * height gs →
  ∃ NB9,
    vget (NeighborTable gs) idx = Some NB9 ∧
    NB9 = map (neighbor_slot gs idx) [0; 1; 2; 3; 4; 5; 6; 7; 8] ∧
    valid_slots NB9 = match cell_kind gs idx with
                      | Corner => 4
                      | Edge => 6
                      | Interior => 9
                      end.
Proof.
  intros HW HH Hidx. exists (GetNB9 idx gs).
  split; [apply NeighborTable_row; assumption|].
  split; [apply GetNB9_slots|].
  rewrite GetNB9_slots.
  destruct (cell_coordinates gs idx) as [Hx Hy]; [lia|assumption|].
  unfold cell_kind, on_border, neighbor_slot.
  set (x := Z.rem idx (width gs)) in *. set (y := Z.quot idx (width gs)) in *.
  clearbody x y. clear Hidx idx.
  cbn [map].
  change (0 mod 3) with 0; change (1 mod 3) with 1; change (2 mod 3) with 2.
  change (3 mod 3) with 0; change (4 mod 3) with 1; change (5 mod 3) with 2.
  change (6 mod 3) with 0; change (7 mod 3) with 1; change (8 mod 3) with 2.
  change (0 / 3) with 0; change (1 / 3) with 0; change (2 / 3) with 0.
  change (3 / 3) with 1; change (4 / 3) with 1; change (5 / 3) with 1.
  change (6 / 3) with 2; change (7 / 3) with 2; change (8 / 3) with 2.
  cbn [Z.sub Z.add Z.opp Z.pos_sub Pos.pred_double].
  rewrite !Z.add_0_r.
  assert (x = 0 ∨ x = width gs - 1 ∨ 0 < x < width gs - 1) as Cx by lia.
  assert (y = 0 ∨ y = height gs - 1 ∨ 0 < y < height gs - 1) as Cy by lia.
  destruct Cx as [ -> | [ -> | Cx ] ]; destruct Cy as [ -> | [ -> | Cy ] ];
    repeat match goal with
    | |- context [?a <? ?b] => destruct (Z.ltb_spec a b); [try lia|try lia]
    | |- context [?a <=? ?b] => destruct (Z.leb_spec a b); [try lia|try lia]
    end;
    cbn [andb orb valid_slots foldr];
    repeat match goal with
    | |- context [?a =? ?b] =>
        destruct (Z.eqb_spec a b); [try (exfalso; nia)|try (exfalso; nia)]
    end; reflexivity.
Qed.

Lemma NeighborTable_valid_slots_witness :
  ∃ NB9,
    vget (NeighborTable (mkSize 3 3)) 0 = Some NB9 ∧
    NB9 = map (neighbor_slot (mkSize 3 3) 0) [0; 1; 2; 3; 4; 5; 6; 7; 8] ∧
    valid_slots NB9 = 4.
Proof.
  apply (NeighborTable_valid_slots (mkSize 3 3) 0); cbn; lia.
Defined.

(** C9 (as stated) fails on grids of a single column or a single row: the
    only cell of the 1 x 1 grid is a corner, and its row of the table has
    one valid entry, the cell itself, not four. *)
Lemma NeighborTable_single_column :
  cell_kind (mkSize 1 1) 0 = Corner ∧
  vget (NeighborTable (mkSize 1 1)) 0 = Some [-1; -1; -1; -1; 0; -1; -1; -1; -1] ∧
  valid_slots [-1; -1; -1; -1; 0; -1; -1; -1; -1] = 1 ∧
  valid_slots [-1; -1; -1; -1; 0; -1; -1; -1; -1] ≠ 4.
Proof. repeat split. discriminate. Qed.

(** Likewise the middle cell of the 1 x 3 grid is an edge cell with three
    valid entries. *)
Example middle_cell_of_1x3_grid :
  cell_kind (mkSize 1 3) 1 = Edge ∧
  vget (NeighborTable (mkSize 1 3)) 1 = Some [-1; 0; -1; -1; 1; -1; -1; 2; -1] ∧
  valid_slots [-1; 0; -1; -1; 1; -1; -1; 2; -1] = 3.
Proof. repeat split. Qed.

(** ** Loops *)

(** Splits a hypothesis [x ← e; k = Some y] into [e = Some x] and
    [k x = Some y]. *)
Ltac bind_inv H :=
  repeat match type of H with
  | (_ ≫= _) = Some _ =>
      let x := fresh "x" in
      let E := fresh "E" in
      apply bind_Some in H; destruct H as (x & E & H)
  end.

Lemma for_loop_inv {St} (P : Z → St → Prop) (body : Z → St → option St)
    (n : nat) (start : Z) (s s' : St) :
  P start s →
  (∀ i t t', start ≤ i < start + Z.of_nat n → P i t → body i t = Some t' →
             P (i + 1) t') →
  for_loop n start body s = Some s' →
  P (start + Z.of_nat n) s'.
Proof.
  revert start s. induction n as [|n IH]; intros start s Hs Hstep Hrun.
  - cbn in Hrun. injection Hrun as <-. rewrite Z.add_0_r. exact Hs.
  - cbn [for_loop] in Hrun. bind_inv Hrun.
    replace (start + Z.of_nat (S n)) with (start + 1 + Z.of_nat n) by lia.
    apply (IH (start + 1) x).
    + apply (Hstep start s); [lia|assumption|assumption].
    + intros i t t' Hi. apply Hstep. lia.
    + assumption.
Qed.

Lemma for_loop_total {St} (P : Z → St → Prop) (body : Z → St → option St)
    (n : nat) (start : Z) (s : St) :
  P start s →
  (∀ i t, start ≤ i < start + Z.of_nat n → P i t →
          ∃ t', body i t = Some t' ∧ P (i + 1) t') →
  ∃ s', for_loop n start body s = Some s' ∧ P (start + Z.of_nat n) s'.
Proof.
  revert start s. induction n as [|n IH]; intros start s Hs Hstep.
  - exists s. rewrite Z.add_0_r. split; [reflexivity|assumption].
  - destruct (Hstep start s) as (t & Ht & HP); [lia|assumption|].
    destruct (IH (start + 1) t) as (s' & Hs' & HP'); [assumption| |].
    + intros i u Hi. apply Hstep. lia.
    + exists s'. cbn [for_loop]. rewrite Ht. cbn.
      replace (start + Z.of_nat (S n)) with (start + 1 + Z.of_nat n) by lia.
      split; assumption.
Qed.

Lemma for_size_inv {St} (P : nat → St → Prop) (body : nat → St → option St)
    (n start : nat) (s s' : St) :
  P start s →
  (∀ i t t', (start ≤ i < start + n)%nat → P i t → body i t = Some t' →
             P (S i) t') →
  for_size n start body s = Some s' →
  P (start + n)%nat s'.
Proof.
  revert start s. induction n as [|n IH]; intros start s Hs Hstep Hrun.
  - cbn in Hrun. injection Hrun as <-. rewrite Nat.add_0_r. exact Hs.
  - cbn [for_size] in Hrun. bind_inv Hrun.
    replace (start + S n)%nat with (S start + n)%nat by lia.
    apply (IH (S start) x).
    + apply (Hstep start s); [lia|assumption|assumption].
    + intros i t t' Hi. apply Hstep. lia.
    + assumption.
Qed.

Lemma for_size_total {St} (P : nat → St → Prop) (body : nat → St → option St)
    (n start : nat) (s : St) :
  P start s →
  (∀ i t, (start ≤ i < start + n)%nat → P i t →
          ∃ t', body i t = Some t' ∧ P (S i) t') →
  ∃ s', for_size n start body s = Some s' ∧ P (start + n)%nat s'.
Proof.
  revert start s. induction n as [|n IH]; intros start s Hs Hstep.
  - exists s. rewrite Nat.add_0_r. split; [reflexivity|assumption].
  - destruct (Hstep start s) as (t & Ht & HP); [lia|assumption|].
    destruct (IH (S start) t) as (s' & Hs' & HP'); [assumption| |].
    + intros i u Hi. apply Hstep. lia.
    + exists s'. cbn [for_size]. rewrite Ht. cbn.
      replace (start + S n)%nat with (S start + n)%nat by lia.
      split; assumption.
Qed.

(** A loop whose body is undefined at some index of its range, whatever
    the state it is reached in, is undefined. *)
Lemma for_size_stuck {St} (P : St → Prop) (body : nat → St → option St)
    (n start i : nat) (s : St) :
  P s →
  (∀ j t t', P t → body j t = Some t' → P t') →
  (start ≤ i < start + n)%nat →
  (∀ t, P t → body i t = None) →
  for_size n start body s = None.
Proof.
  revert start s. induction n as [|n IH]; intros start s Hs Hstep Hi Hstuck;
    [lia|].
  cbn [for_size]. destruct (decide (i = start)) as [->|Hne].
  - rewrite Hstuck by assumption. reflexivity.
  - destruct (body start s) as [t|] eqn:Hb; [|reflexivity]. cbn.
    apply IH; [eapply Hstep; eassumption|assumption|lia|assumption].
Qed.

(** ** Containers *)

Lemma vget_Some {A} (v : list A) (i : Z) (x : A) :
  vget v i = Some x ↔ 0 ≤ i ∧ v !! Z.to_nat i = Some x.
Proof.
  unfold vget. destruct (Z.leb_spec 0 i).
  - split; [intros Hx; split; [lia|assumption]|intros [_ Hx]; assumption].
  - split; [discriminate|intros [Hi _]; lia].
Qed.

Lemma vget_lt {A} (v : list A) (i : Z) (x : A) :
  vget v i = Some x → 0 ≤ i < Z.of_nat (length v).
Proof.
  intros [Hi Hx]%vget_Some. apply lookup_lt_Some in Hx. lia.
Qed.

Lemma vget_is_Some {A} (v : list A) (i : Z) :
  0 ≤ i < Z.of_nat (length v) → ∃ x, vget v i = Some x.
Proof.
  intros Hi. destruct (lookup_lt_is_Some_2 v (Z.to_nat i)) as [x Hx]; [lia|].
  exists x. apply vget_Some. split; [lia|assumption].
Qed.

Lemma vget_of_nat {A} (v : list A) (i : nat) : vget v (Z.of_nat i) = v !! i.
Proof.
  unfold vget. destruct (Z.leb_spec 0 (Z.of_nat i)); [|lia].
  rewrite Nat2Z.id. reflexivity.
Qed.

(** ** The tentative pairing *)

Lemma max_vote_step_inv (value : list Z) (cell_pair j : Z) (acc acc' : Z * Z) :
  max_vote_inv value cell_pair j acc →
  max_vote_step value j acc = Some acc' →
  max_vote_inv value cell_pair (j + 1) acc'.
Proof.
  unfold max_vote_step. intros Hinv Hstep. bind_inv Hstep.
  rename x into v. destruct (Z.gtb_spec v acc.2) as [Hgt|Hle];
    injection Hstep as <-.
  - right. cbn. pose proof (vget_lt _ _ _ E) as Hj.
    assert (∀ k w, k < j → vget value k = Some w → w ≤ acc.2) as Hbelow.
    { intros k w Hk Hw.
      destruct Hinv as [[-> Hall]|(_ & _ & _ & Hall & _)]; cbn in *;
        apply (Hall k w); assumption. }
    assert (0 ≤ acc.2) as Hnn
      by (destruct Hinv as [[-> _]|[? _]]; cbn in *; lia).
    split; [lia|]. split; [lia|]. split; [assumption|]. split.
    + intros k w Hk Hw. destruct (decide (k = j)) as [->|Hne].
      * rewrite E in Hw. injection Hw as <-. lia.
      * specialize (Hbelow k w ltac:(lia) Hw). lia.
    + intros k w Hk Hw. specialize (Hbelow k w Hk Hw). lia.
  - destruct Hinv as [[-> Hall]|(Hpos & Hrange & Hat & Hall & Hfirst)].
    + left. split; [reflexivity|]. intros k w Hk Hw. cbn in Hle.
      destruct (decide (k = j)) as [->|Hne].
      * rewrite E in Hw. injection Hw as <-. lia.
      * apply (Hall k w); [lia|assumption].
    + right. split; [assumption|]. split; [lia|]. split; [assumption|].
      split; [|assumption]. intros k w Hk Hw.
      destruct (decide (k = j)) as [->|Hne].
      * rewrite E in Hw. injection Hw as <-. lia.
      * apply (Hall k w); [lia|assumption].
Qed.



(** ** The support of a cell pairing *)






(** ** What each step of [Run] leaves untouched *)

Lemma AssignMatchPair_frame (GridType : Z) (i : nat) (g g' : GMS_Matcher) :
  AssignMatchPair GridType i g = Some g' →
  inputs g' = inputs g ∧ right_grid g' = right_grid g ∧
  mCellPairs g' = mCellPairs g ∧ mvbInlierMask g' = mvbInlierMask g.
Proof.
  unfold AssignMatchPair. intros Hrun. bind_inv Hrun. cbn zeta in Hrun.
  destruct (_ || _) in Hrun.
  - injection Hrun as <-. repeat split.
  - bind_inv Hrun. injection Hrun as <-. repeat split.
Qed.

Lemma AssignMatchPairs_frame (GridType : Z) (g g' : GMS_Matcher) :
  AssignMatchPairs GridType g = Some g' →
  inputs g' = inputs g ∧ right_grid g' = right_grid g ∧
  mCellPairs g' = mCellPairs g ∧ mvbInlierMask g' = mvbInlierMask g.
Proof.
  unfold AssignMatchPairs. intros Hrun.
  apply (for_size_inv (λ _ t,
           inputs t = inputs g ∧ right_grid t = right_grid g ∧
           mCellPairs t = mCellPairs g ∧ mvbInlierMask t = mvbInlierMask g))
    in Hrun; [assumption|repeat split|].
  intros i t t' _ (Hi & Hr & Hc & Hm) Hstep.
  apply AssignMatchPair_frame in Hstep as (Hi' & Hr' & Hc' & Hm').
  repeat split; congruence.
Qed.

Lemma VerifyCellPair_frame `{DoubleArith} (CurrentRP : list Z) (i : Z)
    (g g' : GMS_Matcher) :
  VerifyCellPair CurrentRP i g = Some g' →
  ∃ c, vset (mCellPairs g) i c = Some (mCellPairs g') ∧
       g' = set_mCellPairs (mCellPairs g') g.
Proof.
  unfold VerifyCellPair. intros Hrun. bind_inv Hrun.
  destruct (row_sum x =? 0).
  - bind_inv Hrun. injection Hrun as <-. eexists. split; [eassumption|reflexivity].
  - bind_inv Hrun. destruct x2 as [[score thresh] numpair].
    bind_inv Hrun. injection Hrun as <-. eexists. split; [eassumption|reflexivity].
Qed.

(** ** Votes are counts *)

Lemma Mat_setTo0_nonneg (m : Mat) : Forall (Forall (Z.le 0)) (Mat_setTo0 m).
Proof.
  unfold Mat_setTo0. apply Forall_fmap, Forall_true. intros row.
  apply Forall_fmap, Forall_true. intros v. cbn. lia.
Qed.

Lemma Mat_incr_nonneg (m m' : Mat) (i j : Z) :
  Mat_incr m i j = Some m' →
  Forall (Forall (Z.le 0)) m → Forall (Forall (Z.le 0)) m'.
Proof.
  unfold Mat_incr. intros Hrun Hm. bind_inv Hrun. injection Hrun as <-.
  apply vget_Some in E as [_ Hrow]. apply vget_Some in E0 as [_ Hv].
  pose proof (Forall_lookup_1 _ _ _ _ Hm Hrow) as Hx.
  pose proof (Forall_lookup_1 _ _ _ _ Hx Hv) as Hx0. cbn in Hx0.
  apply Forall_insert; [assumption|]. apply Forall_insert; [assumption|]. lia.
Qed.

Lemma AssignMatchPair_nonneg (GridType : Z) (i : nat) (g g' : GMS_Matcher) :
  AssignMatchPair GridType i g = Some g' →
  Forall (Forall (Z.le 0)) (mMotionStatistics g) →
  Forall (Forall (Z.le 0)) (mMotionStatistics g').
Proof.
  unfold AssignMatchPair. intros Hrun Hm. bind_inv Hrun. cbn zeta in Hrun.
  destruct (_ || _) in Hrun.
  - injection Hrun as <-. exact Hm.
  - bind_inv Hrun. injection Hrun as <-. cbn in *.
    eapply Mat_incr_nonneg; eassumption.
Qed.

Lemma AssignMatchPairs_nonneg (GridType : Z) (g g' : GMS_Matcher) :
  AssignMatchPairs GridType g = Some g' →
  Forall (Forall (Z.le 0)) (mMotionStatistics g) →
  Forall (Forall (Z.le 0)) (mMotionStatistics g').
Proof.
  unfold AssignMatchPairs. intros Hrun Hm.
  apply (for_size_inv (λ _ t, Forall (Forall (Z.le 0)) (mMotionStatistics t)))
    in Hrun; [assumption|assumption|].
  intros i t t' _ Ht Hstep. eapply AssignMatchPair_nonneg; eassumption.
Qed.

Lemma row_sum_nonneg (value : list Z) : Forall (Z.le 0) value → 0 ≤ row_sum value.
Proof.
  induction 1 as [|v value Hv _ IH]; cbn; [lia|].
  unfold row_sum in IH. lia.
Qed.

Lemma row_sum_zero (value : list Z) :
  Forall (Z.le 0) value → row_sum value = 0 → Forall (λ v, v = 0) value.
Proof.
  induction 1 as [|v value Hv Hvalue IH]; intros Hsum; [constructor|].
  pose proof (row_sum_nonneg value Hvalue) as Hnn.
  cbn in Hsum. unfold row_sum in Hnn, IH.
  constructor; [lia|apply IH; lia].
Qed.

(** ** The three states of a cell pairing *)

Lemma vset_Some {A} (v v' : list A) (i : Z) (x : A) :
  vset v i x = Some v' →
  0 ≤ i < Z.of_nat (length v) ∧ v' = <[Z.to_nat i := x]> v.
Proof.
  unfold vset. destruct (Z.leb_spec 0 i), (Z.ltb_spec i (Z.of_nat (length v)));
    cbn; intros Hset; try discriminate.
  injection Hset as <-. split; [lia|reflexivity].
Qed.

Lemma max_vote_found (value : list Z) (rightCells cell_pair : Z) (found : Z * Z) :
  0 ≤ rightCells →
  max_vote value rightCells cell_pair = Some found →
  max_vote_inv value cell_pair rightCells found.
Proof.
  unfold max_vote. intros HM Hrun.
  apply (for_loop_inv (max_vote_inv value cell_pair)) in Hrun.
  - rewrite Z.add_0_l, Z2Nat.id in Hrun by lia. assumption.
  - left. split; [reflexivity|]. intros k v Hk [Hk' _]%vget_Some. lia.
  - intros j t t' _. apply max_vote_step_inv.
Qed.

(** One iteration of [VerifyCellPairs] on a cell whose pairing is still the
    -1 of the reset. *)
Lemma VerifyCellPair_verdict `{DoubleArith} (CurrentRP : list Z) (i : Z)
    (g g' : GMS_Matcher) :
  VerifyCellPair CurrentRP i g = Some g' →
  vget (mCellPairs g) i = Some (-1) →
  Forall (Forall (Z.le 0)) (mMotionStatistics g) →
  ∃ c value,
    0 ≤ i < Z.of_nat (length (mCellPairs g)) ∧
    g' = set_mCellPairs (<[Z.to_nat i := c]> (mCellPairs g)) g ∧
    vget (mMotionStatistics g) i = Some value ∧
    pairing_verdict value (mGridNumberRight g) c.
Proof.
  unfold VerifyCellPair. intros Hrun Hcell Hvotes. bind_inv Hrun.
  rename x into value.
  assert (Forall (Z.le 0) value) as Hvalue.
  { apply vget_Some in E as [_ E].
    exact (Forall_lookup_1 _ _ _ _ Hvotes E). }
  destruct (Z.eqb_spec (row_sum value) 0) as [Hsum|Hsum].
  - bind_inv Hrun. injection Hrun as <-.
    apply vset_Some in E0 as [Hi ->].
    exists (-1), value. split; [assumption|]. split; [reflexivity|].
    split; [assumption|]. left. split; [reflexivity|].
    apply row_sum_zero; assumption.
  - bind_inv Hrun. rename x into cell_pair, x0 into found.
    destruct x1 as [[score thresh] numpair]. bind_inv Hrun.
    injection Hrun as <-. apply vset_Some in E3 as [Hi ->].
    rewrite Hcell in E0. injection E0 as <-.
    unfold NeighborSupport in E2. bind_inv E2.
    apply vget_Some in E3 as [Hfound _].
    destruct (Z.le_gt_cases 0 (mGridNumberRight g)) as [HM|HM].
    + apply max_vote_found in E1; [|assumption].
      destruct E1 as [[-> _]|(Hpos & Hrange & Hat & _)]; [cbn in Hfound; lia|].
      assert (Exists (λ v, 0 < v) value) as Hvote.
      { apply Exists_exists. exists found.2. split; [|assumption].
        apply vget_Some in Hat as [_ Hat].
        eapply list_elem_of_lookup_2. eassumption. }
      eexists _, value. split; [assumption|]. split; [reflexivity|].
      split; [assumption|].
      destruct (score_below_thresh _ _ _ _); [right; left|right; right];
        (split; [first [reflexivity|assumption]|assumption]).
    + exfalso. unfold max_vote in E1.
      replace (Z.to_nat (mGridNumberRight g)) with O in E1 by lia.
      cbn in E1. injection E1 as <-. cbn in Hfound. lia.
Qed.

Lemma vget_insert_eq {A} (v : list A) (i : Z) (x : A) :
  0 ≤ i < Z.of_nat (length v) → vget (<[Z.to_nat i := x]> v) i = Some x.
Proof.
  intros Hi. apply vget_Some. split; [lia|].
  apply list_lookup_insert_eq. lia.
Qed.

Lemma vget_insert_ne {A} (v : list A) (i j : Z) (x : A) :
  0 ≤ i → i ≠ j → vget (<[Z.to_nat i := x]> v) j = vget v j.
Proof.
  intros Hi Hne. unfold vget. destruct (Z.leb_spec 0 j); [|reflexivity].
  apply list_lookup_insert_ne. lia.
Qed.

Lemma vget_replicate {A} (n : nat) (x : A) (i : Z) :
  0 ≤ i < Z.of_nat n → vget (replicate n x) i = Some x.
Proof.
  intros Hi. apply vget_Some. split; [lia|].
  apply lookup_replicate_2. lia.
Qed.

(** The pairing that [VerifyCellPairs] leaves in a cell with votes is the
    cell found by the loop of [max_vote], unless it is rejected. *)
Lemma VerifyCellPair_pairing `{DoubleArith} (CurrentRP : list Z) (i : Z)
    (g g' : GMS_Matcher) (value : list Z) :
  VerifyCellPair CurrentRP i g = Some g' →
  vget (mMotionStatistics g) i = Some value →
  row_sum value ≠ 0 →
  ∃ cell_pair found,
    vget (mCellPairs g) i = Some cell_pair ∧
    max_vote value (mGridNumberRight g) cell_pair = Some found ∧
    (vget (mCellPairs g') i = Some (-2) ∨
     vget (mCellPairs g') i = Some found.1).
Proof.
  unfold VerifyCellPair. intros Hrun Hrow Hsum. rewrite Hrow in Hrun.
  cbn [mbind option_bind] in Hrun.
  destruct (Z.eqb_spec (row_sum value) 0) as [Hzero|_]; [contradiction|].
  bind_inv Hrun. rename x into cell_pair, x0 into found.
  destruct x1 as [[score thresh] numpair]. bind_inv Hrun.
  injection Hrun as <-. apply vset_Some in E2 as [Hi ->].
  exists cell_pair, found. split; [assumption|]. split; [assumption|].
  cbn. rewrite vget_insert_eq by assumption.
  destruct (score_below_thresh _ _ _ _); [left|right]; reflexivity.
Qed.

(** [VerifyCellPairs] writes the pairings only, and leaves in each cell the
    verdict on its row. *)
Lemma VerifyCellPairs_verdicts `{DoubleArith} (RotationType : Z)
    (g g' : GMS_Matcher) :
  VerifyCellPairs RotationType g = Some g' →
  mCellPairs g = replicate (Z.to_nat (mGridNumberLeft g)) (-1) →
  Forall (Forall (Z.le 0)) (mMotionStatistics g) →
  g' = set_mCellPairs (mCellPairs g') g ∧
  ∀ i, 0 ≤ i < mGridNumberLeft g →
    ∃ c value,
      vget (mCellPairs g') i = Some c ∧
      vget (mMotionStatistics g) i = Some value ∧
      pairing_verdict value (mGridNumberRight g) c.
Proof.
  unfold VerifyCellPairs. intros Hrun Hreset Hvotes. bind_inv Hrun.
  rename x into CurrentRP.
  apply (for_loop_inv (λ k t,
           t = set_mCellPairs (mCellPairs t) g ∧
           (∀ i, 0 ≤ i < k →
              ∃ c value,
                vget (mCellPairs t) i = Some c ∧
                vget (mMotionStatistics g) i = Some value ∧
                pairing_verdict value (mGridNumberRight g) c) ∧
           (∀ i, k ≤ i < mGridNumberLeft g →
              vget (mCellPairs t) i = Some (-1)))) in Hrun.
  - destruct Hrun as (Hg' & Hdone & _). split; [assumption|].
    intros i Hi. apply Hdone. lia.
  - split; [destruct g; reflexivity|]. split; [intros i Hi; lia|].
    intros i Hi. rewrite Hreset. apply vget_replicate. lia.
  - intros k t t' Hk (Ht & Hdone & Htodo) Hstep.
    assert (mMotionStatistics t = mMotionStatistics g) as Hstats
      by (rewrite Ht; reflexivity).
    assert (mGridNumberRight t = mGridNumberRight g) as Hright
      by (rewrite Ht; reflexivity).
    apply VerifyCellPair_verdict in Hstep
      as (c & value & Hlen & Ht' & Hrow & Hverdict).
    + rewrite Hstats in Hrow. rewrite Hright in Hverdict.
      assert (mCellPairs t' = <[Z.to_nat k := c]> (mCellPairs t)) as Hcells
        by (rewrite Ht'; reflexivity).
      split; [rewrite Ht', Ht; reflexivity|]. split.
      * intros i Hi. destruct (decide (i = k)) as [->|Hne].
        -- exists c, value. rewrite Hcells, vget_insert_eq by assumption.
           repeat split; assumption.
        -- destruct (Hdone i) as (c' & value' & Hc' & Hrest); [lia|].
           exists c', value'. rewrite Hcells, vget_insert_ne by lia.
           split; assumption.
      * intros i Hi. rewrite Hcells, vget_insert_ne by lia.
        apply Htodo. lia.
    + apply Htodo. lia.
    + rewrite Hstats. assumption.
Qed.

(** C8. After the vote of an offset, the pairing of every left cell is in
    exactly one of three states: -1, and its row of the vote matrix is all
    zeros; -2, and its row holds a vote; or the index of a right cell, and
    its row holds a vote.  A cell without votes is thus always -1 and a cell
    with a vote never is. *)
Theorem OffsetVote_pairing_states `{DoubleArith} (RotationType GridType : Z)
    (g g' : GMS_Matcher) (i : Z) :
  OffsetVote RotationType GridType g = Some g' →
  0 ≤ i < mGridNumberLeft g →
  ∃ c value,
    vget (mCellPairs g') i = Some c ∧
    vget (mMotionStatistics g') i = Some value ∧
    pairing_verdict value (mGridNumberRight g) c ∧
    (Forall (λ v, v = 0) value → c = -1) ∧
    (Exists (λ v, 0 < v) value → c ≠ -1).
Proof.
  unfold OffsetVote. intros Hrun Hi. bind_inv Hrun. rename x into g1.
  pose proof (AssignMatchPairs_frame _ _ _ E) as (Hin & Hrg & Hcells & _).
  pose proof (AssignMatchPairs_nonneg _ _ _ E (Mat_setTo0_nonneg _)) as Hvotes.
  injection Hin as _ _ _ _ _ HN _ _. injection Hrg as _ HM _.
  cbn in HN, HM, Hcells.
  apply VerifyCellPairs_verdicts in Hrun as [Hg' Hall];
    [|rewrite Hcells, HN; reflexivity|assumption].
  destruct (Hall i) as (c & value & Hc & Hrow & Hverdict); [lia|].
  rewrite HM in Hverdict.
  exists c, value. split; [assumption|].
  split; [rewrite Hg'; assumption|]. split; [assumption|].
  assert (∀ l : list Z, Forall (λ v, v = 0) l → Exists (λ v, 0 < v) l → False)
    as Hexcl.
  { intros l Hz Hp. apply Exists_exists in Hp as (v & Hv & Hpos).
    rewrite Forall_forall in Hz. specialize (Hz v Hv). lia. }
  split.
  - intros Hz. destruct Hverdict as [[-> _]|[[_ Hp]|[_ Hp]]];
      [reflexivity|destruct (Hexcl _ Hz Hp)..].
  - intros Hp. destruct Hverdict as [[_ Hz]|[[-> _]|[Hc' _]]];
      [destruct (Hexcl _ Hz Hp)|lia..].
Qed.

Lemma OffsetVote_pairing_states_witness :
  ∃ c value,
    vget (mCellPairs demo_voted) 3 = Some c ∧
    vget (mMotionStatistics demo_voted) 3 = Some value ∧
    pairing_verdict value (mGridNumberRight demo_ready) c ∧
    (Forall (λ v, v = 0) value → c = -1) ∧
    (Exists (λ v, 0 < v) value → c ≠ -1).
Proof.
  apply (@OffsetVote_pairing_states ExactArith 1 1 demo_ready demo_voted 3).
  - vm_compute. reflexivity.
  - assert (mGridNumberLeft demo_ready = 4) as -> by (vm_compute; reflexivity).
    lia.
Defined.

(** ** The inliers of one hypothesis *)

Lemma VerifyCellPairs_frame `{DoubleArith} (RotationType : Z) (g g' : GMS_Matcher) :
  VerifyCellPairs RotationType g = Some g' →
  g' = set_mCellPairs (mCellPairs g') g.
Proof.
  unfold VerifyCellPairs. intros Hrun. bind_inv Hrun.
  apply (for_loop_inv (λ _ t, t = set_mCellPairs (mCellPairs t) g)) in Hrun;
    [assumption|destruct g; reflexivity|].
  intros k t t' _ Ht Hstep.
  apply VerifyCellPair_frame in Hstep as (c & _ & Ht').
  rewrite Ht', Ht. reflexivity.
Qed.

Lemma left_cell_inputs (g g' : GMS_Matcher) (GridType : Z) (i : nat) :
  inputs g' = inputs g → left_cell g' GridType i = left_cell g GridType i.
Proof.
  intros Hin. injection Hin as HP1 _ HM _ HL _ _ _.
  unfold left_cell. rewrite HP1, HM, HL. reflexivity.
Qed.

Lemma right_cell_inputs (g g' : GMS_Matcher) (i : nat) :
  inputs g' = inputs g → right_grid g' = right_grid g →
  right_cell g' i = right_cell g i.
Proof.
  intros Hin Hrg. injection Hin as _ HP2 HM _ _ _ _ _. injection Hrg as HR _ _.
  unfold right_cell. rewrite HP2, HM, HR. reflexivity.
Qed.

(** The cells that [AssignMatchPairs] records for a match: its left cell
    under the offset, and its right cell, computed under the first offset
    and kept under the others. *)
Lemma AssignMatchPair_cells (GridType : Z) (i : nat) (g g' : GMS_Matcher) :
  AssignMatchPair GridType i g = Some g' →
  ∃ l r old,
    left_cell g GridType i = Some l ∧ right_cell g i = Some r ∧
    mvMatchPairs g !! i = Some old ∧
    mvMatchPairs g' =
      <[i := (l, if GridType =? 1 then r else old.2)]> (mvMatchPairs g).
Proof.
  unfold AssignMatchPair. intros Hrun. bind_inv Hrun. cbn zeta in Hrun.
  rename x into m, x0 into lp, x1 into rp, x2 into old.
  exists (GetGridIndexLeft (mGridSizeLeft g) lp GridType),
         (GetGridIndexRight (mGridSizeRight g) rp), old.
  unfold left_cell, right_cell. rewrite E. cbn. rewrite E0, E1. cbn.
  split; [reflexivity|]. split; [reflexivity|]. split; [assumption|].
  destruct (_ || _) in Hrun.
  - injection Hrun as <-. reflexivity.
  - bind_inv Hrun. injection Hrun as <-. reflexivity.
Qed.

Lemma AssignMatchPairs_cells (GridType : Z) (g g' : GMS_Matcher) (i : nat) :
  AssignMatchPairs GridType g = Some g' →
  (i < mNumberMatches g)%nat →
  ∃ l r old,
    left_cell g GridType i = Some l ∧ right_cell g i = Some r ∧
    mvMatchPairs g !! i = Some old ∧
    mvMatchPairs g' !! i = Some (l, if GridType =? 1 then r else old.2).
Proof.
  unfold AssignMatchPairs. intros Hrun Hi.
  apply (for_size_inv (λ k t,
           inputs t = inputs g ∧ right_grid t = right_grid g ∧
           (∀ j, (j < k)%nat →
              ∃ l r old,
                left_cell g GridType j = Some l ∧ right_cell g j = Some r ∧
                mvMatchPairs g !! j = Some old ∧
                mvMatchPairs t !! j
                = Some (l, if GridType =? 1 then r else old.2)) ∧
           (∀ j, (k ≤ j)%nat → mvMatchPairs t !! j = mvMatchPairs g !! j)))
    in Hrun.
  - destruct Hrun as (_ & _ & Hdone & _). apply Hdone. lia.
  - split; [reflexivity|]. split; [reflexivity|].
    split; [intros j Hj; lia|reflexivity].
  - intros k t t' Hk (Hin & Hrg & Hdone & Htodo) Hstep.
    pose proof (AssignMatchPair_frame _ _ _ _ Hstep) as (Hin' & Hrg' & _ & _).
    apply AssignMatchPair_cells in Hstep as (l & r & old & Hl & Hr & Hold & Hnew).
    rewrite (left_cell_inputs _ _ _ _ Hin) in Hl.
    rewrite (right_cell_inputs _ _ _ Hin Hrg) in Hr.
    split; [congruence|]. split; [congruence|]. split.
    + intros j Hj. destruct (decide (j = k)) as [->|Hne].
      * exists l, r, old. rewrite <- Htodo by lia.
        split; [assumption|]. split; [assumption|]. split; [assumption|].
        rewrite Hnew. apply list_lookup_insert_eq.
        eapply lookup_lt_Some. eassumption.
      * destruct (Hdone j) as (l' & r' & old' & Hl' & Hr' & Hold' & Hj');
          [lia|].
        exists l', r', old'. rewrite Hnew, list_lookup_insert_ne by lia.
        repeat split; assumption.
    + intros j Hj. rewrite Hnew, list_lookup_insert_ne by lia.
      apply Htodo. lia.
Qed.

(** What the vote of one offset reads and writes. *)
Lemma OffsetVote_effect `{DoubleArith} (RotationType GridType : Z)
    (g g' : GMS_Matcher) :
  OffsetVote RotationType GridType g = Some g' →
  inputs g' = inputs g ∧ right_grid g' = right_grid g ∧
  mvbInlierMask g' = mvbInlierMask g ∧
  ∀ i, (i < mNumberMatches g)%nat →
    ∃ l r old,
      left_cell g GridType i = Some l ∧ right_cell g i = Some r ∧
      mvMatchPairs g !! i = Some old ∧
      mvMatchPairs g' !! i = Some (l, if GridType =? 1 then r else old.2).
Proof.
  unfold OffsetVote. intros Hrun. bind_inv Hrun. rename x into g1.
  pose proof (AssignMatchPairs_frame _ _ _ E) as (Hin & Hrg & _ & Hmask).
  apply VerifyCellPairs_frame in Hrun as Hg'.
  split; [rewrite Hg'; exact Hin|]. split; [rewrite Hg'; exact Hrg|].
  split; [rewrite Hg'; exact Hmask|].
  intros i Hi.
  destruct (AssignMatchPairs_cells _ _ _ i E) as (l & r & old & Hl & Hr & Ho & Hn);
    [exact Hi|].
  exists l, r, old. rewrite Hg'. repeat split; assumption.
Qed.

(** [MarkInliers] sets the entries of the marked matches and writes nothing
    else. *)
Lemma MarkInlier_effect (i : nat) (g g' : GMS_Matcher) :
  MarkInlier i g = Some g' →
  g' = set_mvbInlierMask (mvbInlierMask g') g ∧
  mvbInlierMask g' !! i = (λ b, b || marked g i) <$> mvbInlierMask g !! i ∧
  ∀ j, j ≠ i → mvbInlierMask g' !! j = mvbInlierMask g !! j.
Proof.
  unfold MarkInlier, marked. intros Hrun. bind_inv Hrun.
  rewrite E. destruct x as [l r]. cbn [fst snd] in Hrun.
  assert (∀ m : option bool, m = (λ b, b || false) <$> m) as Hid.
  { intros [b|]; cbn; [rewrite orb_false_r|]; reflexivity. }
  destruct (l =? -1).
  - injection Hrun as <-. split; [destruct g; reflexivity|].
    split; [apply Hid|reflexivity].
  - bind_inv Hrun. rewrite E0. destruct (x =? r).
    + bind_inv Hrun. injection Hrun as <-. cbn.
      split; [reflexivity|]. split.
      * rewrite list_lookup_insert_eq by (eapply lookup_lt_Some; eassumption).
        rewrite E1. cbn. rewrite orb_true_r. reflexivity.
      * intros j Hj. apply list_lookup_insert_ne. congruence.
    + injection Hrun as <-. split; [destruct g; reflexivity|].
      split; [apply Hid|reflexivity].
Qed.

Lemma MarkInliers_effect (g g' : GMS_Matcher) :
  MarkInliers g = Some g' →
  g' = set_mvbInlierMask (mvbInlierMask g') g ∧
  ∀ i, (i < mNumberMatches g)%nat →
    mvbInlierMask g' !! i = (λ b, b || marked g i) <$> mvbInlierMask g !! i.
Proof.
  unfold MarkInliers. intros Hrun.
  apply (for_size_inv (λ k t,
           t = set_mvbInlierMask (mvbInlierMask t) g ∧
           (∀ i, (i < k)%nat →
              mvbInlierMask t !! i
              = (λ b, b || marked g i) <$> mvbInlierMask g !! i) ∧
           (∀ i, (k ≤ i)%nat → mvbInlierMask t !! i = mvbInlierMask g !! i)))
    in Hrun.
  - destruct Hrun as (Hg' & Hdone & _). split; [assumption|].
    intros i Hi. apply Hdone. lia.
  - split; [destruct g; reflexivity|]. split; [intros i Hi; lia|reflexivity].
  - intros k t t' _ (Ht & Hdone & Htodo) Hstep.
    apply MarkInlier_effect in Hstep as (Ht' & Hk & Hother).
    assert (marked t k = marked g k) as Hm by (rewrite Ht; reflexivity).
    split; [rewrite Ht', Ht; reflexivity|]. split.
    + intros i Hi. destruct (decide (i = k)) as [->|Hne].
      * rewrite Hk, Hm, Htodo by lia. reflexivity.
      * rewrite Hother by assumption. apply Hdone. lia.
    + intros i Hi. rewrite Hother by lia. apply Htodo. lia.
Qed.

Lemma OffsetPass_effect `{DoubleArith} (RotationType GridType : Z)
    (g g' : GMS_Matcher) :
  OffsetPass RotationType GridType g = Some g' →
  ∃ v,
    OffsetVote RotationType GridType g = Some v ∧ MarkInliers v = Some g' ∧
    inputs g' = inputs g ∧ right_grid g' = right_grid g ∧
    ∀ i, (i < mNumberMatches g)%nat →
      (∃ l r old,
         left_cell g GridType i = Some l ∧ right_cell g i = Some r ∧
         mvMatchPairs g !! i = Some old ∧
         mvMatchPairs v !! i = Some (l, if GridType =? 1 then r else old.2) ∧
         mvMatchPairs g' !! i = mvMatchPairs v !! i) ∧
      mvbInlierMask g' !! i = (λ b, b || marked v i) <$> mvbInlierMask g !! i.
Proof.
  unfold OffsetPass. intros Hrun. bind_inv Hrun. rename x into v.
  exists v. split; [assumption|]. split; [assumption|].
  apply OffsetVote_effect in E as (Hin & Hrg & Hmask & Hcells).
  apply MarkInliers_effect in Hrun as (Hg' & Hmarks).
  split; [rewrite Hg'; exact Hin|]. split; [rewrite Hg'; exact Hrg|].
  intros i Hi. split.
  - destruct (Hcells i Hi) as (l & r & old & Hl & Hr & Ho & Hn).
    exists l, r, old. rewrite Hg'. repeat split; assumption.
  - rewrite <- Hmask. apply Hmarks.
    injection Hin as _ _ _ -> _ _ _ _. exact Hi.
Qed.



(** ** The search over the hypotheses *)

(** [Run] starts from the inputs and the right grid alone: it assigns its
    working members before it reads them. *)
Lemma Run_config `{DoubleArith} (RotationType : Z) (g1 g2 : GMS_Matcher) :
  inputs g1 = inputs g2 → right_grid g1 = right_grid g2 →
  Run RotationType g1 = Run RotationType g2.
Proof.
  destruct g1, g2. unfold inputs, right_grid. cbn.
  intros Hin Hrg. injection Hin as -> -> -> -> -> -> -> ->.
  injection Hrg as -> -> ->. reflexivity.
Qed.

Lemma Run_frame `{DoubleArith} (RotationType : Z) (g g' : GMS_Matcher) (n : Z) :
  Run RotationType g = Some (n, g') →
  inputs g' = inputs g ∧ right_grid g' = right_grid g.
Proof.
  unfold Run. intros Hrun. bind_inv Hrun. injection Hrun as _ ->.
  apply (for_loop_inv (λ _ t, inputs t = inputs g ∧ right_grid t = right_grid g))
    in E; [assumption|split; reflexivity|].
  intros k t t' _ [Hin Hrg] Hstep.
  apply OffsetPass_effect in Hstep as (_ & _ & _ & Hin' & Hrg' & _).
  split; congruence.
Qed.

Lemma SetScale_inputs (Scale : Z) (g1 g2 g1' : GMS_Matcher) :
  inputs g1 = inputs g2 →
  SetScale Scale g1 = Some g1' →
  inputs g1' = inputs g1 ∧
  ∃ g2', SetScale Scale g2 = Some g2' ∧
         inputs g2' = inputs g2 ∧ right_grid g2' = right_grid g1'.
Proof.
  unfold SetScale. intros Hin Hset. bind_inv Hset. injection Hset as <-.
  split; [reflexivity|].
  injection Hin as _ _ _ _ HL _ _ _. rewrite <- HL, E, E0. cbn.
  eexists. split; [reflexivity|]. split; reflexivity.
Qed.

(** The grids of a constructed matcher stay in place from [SetScale] on. *)
Lemma scaled_dim_nonneg (Scale n m : Z) :
  0 ≤ n → scaled_dim Scale n = Some m → 0 ≤ m.
Proof.
  intros Hn Hm.
  assert (Scale = 0 ∨ Scale = 1 ∨ Scale = 2 ∨ Scale = 3 ∨ Scale = 4 ∨
          Scale < 0 ∨ 4 < Scale) as Hcases by lia.
  destruct Hcases as [ -> | [ -> | [ -> | [ -> | [ -> | Hout ] ] ] ] ];
    cbn in Hm; try injection Hm as <-.
  - assumption.
  - apply Z.quot_pos; lia.
  - apply Z.sqrt_nonneg.
  - apply Z.sqrt_nonneg.
  - lia.
  - destruct Scale as [|p|p]; [lia| |discriminate].
    do 3 (try destruct p as [p|p|]); cbn in Hm; try discriminate; lia.
Qed.

Lemma SetScale_grids_ready (Scale : Z) (g g' : GMS_Matcher) :
  0 ≤ width (mGridSizeLeft g) → 0 ≤ height (mGridSizeLeft g) →
  mGridNeighborLeft g = NeighborTable (mGridSizeLeft g) →
  SetScale Scale g = Some g' →
  grids_ready g'.
Proof.
  unfold SetScale. intros HW HH Hnb Hset. bind_inv Hset.
  injection Hset as <-. unfold grids_ready. cbn.
  apply scaled_dim_nonneg in E, E0; [|assumption..].
  repeat split; assumption.
Qed.

Lemma grids_ready_config (g g' : GMS_Matcher) :
  inputs g' = inputs g → right_grid g' = right_grid g →
  grids_ready g → grids_ready g'.
Proof.
  intros Hin Hrg. injection Hin as _ _ _ _ HL _ Hnl _.
  injection Hrg as HR _ Hnr. unfold grids_ready.
  rewrite HL, HR, Hnl, Hnr. tauto.
Qed.

Lemma TryRotation_max `{DoubleArith} (RotationType : Z) (s s' : Search) :
  TryRotation RotationType s = Some s' → s.1.1 ≤ s'.1.1.
Proof.
  unfold TryRotation. destruct s as [[max_inlier vbInliers] g].
  intros Hrun. bind_inv Hrun. destruct x as [num_inlier g'].
  destruct (Z.gtb_spec num_inlier max_inlier); injection Hrun as <-; cbn; lia.
Qed.

Lemma TryRotations_max `{DoubleArith} (n : nat) (start : Z) (s s' : Search) :
  for_loop n start TryRotation s = Some s' → s.1.1 ≤ s'.1.1.
Proof.
  intros Hrun.
  apply (for_loop_inv (λ _ t, s.1.1 ≤ t.1.1)) in Hrun; [assumption|lia|].
  intros k t t' _ Ht Hstep. apply TryRotation_max in Hstep. lia.
Qed.

(** The first hypothesis of every search is the one of the plain filter. *)
Lemma TryRotation_first `{DoubleArith} (vbInliers : list bool)
    (g g' : GMS_Matcher) (n : Z) (s : Search) :
  Run 1 g = Some (n, g') →
  TryRotation 1 (0, vbInliers, g) = Some s → n ≤ s.1.1.
Proof.
  unfold TryRotation. intros -> Hs. cbn in Hs.
  destruct (Z.gtb_spec n 0); injection Hs as <-; cbn; lia.
Qed.

Lemma bind_Some_l {A B} (f : A → option B) (x : A) : Some x ≫= f = f x.
Proof. reflexivity. Qed.

Lemma for_loop_S {St} (n : nat) (start : Z) (body : Z → St → option St)
    (s : St) :
  for_loop (S n) start body s = body start s ≫= for_loop n (start + 1) body.
Proof. reflexivity. Qed.

(** C6. Whenever the filter returns with a search enabled (rotation, scale
    or both), its inlier count is at least the count it returns with both
    searches disabled. *)
Theorem GetInlierMask_search_monotone `{DoubleArith}
    (vbInliers vbInliers' : list bool) (WithScale WithRotation : bool)
    (g : GMS_Matcher) (plain searched : Search) :
  GetInlierMask vbInliers false false g = Some plain →
  GetInlierMask vbInliers' WithScale WithRotation g = Some searched →
  plain.1.1 ≤ searched.1.1.
Proof.
  unfold GetInlierMask at 1. cbn [negb andb]. intros Hplain.
  bind_inv Hplain. rename x into gs. destruct x0 as [n g0].
  injection Hplain as <-. cbn [fst].
  unfold GetInlierMask.
  destruct WithScale, WithRotation; cbn [negb andb]; intros Hsearch.
  - rewrite for_loop_S, E in Hsearch. rewrite bind_Some_l in Hsearch.
    rewrite for_loop_S in Hsearch. bind_inv Hsearch. rename x into s2.
    bind_inv E1. rename x into s1.
    pose proof (TryRotation_first _ _ _ _ _ E0 E2) as H1.
    apply TryRotations_max in E1.
    apply (for_loop_inv (λ _ t, s2.1.1 ≤ t.1.1)) in Hsearch; [lia|lia|].
    intros k [[m v] t] t' _ Ht Hstep. bind_inv Hstep.
    apply TryRotations_max in Hstep. cbn [fst snd] in *. lia.
  - rewrite for_loop_S, E in Hsearch. rewrite bind_Some_l in Hsearch.
    bind_inv Hsearch. rename x into s1.
    pose proof (TryRotation_first _ _ _ _ _ E0 E1) as H1.
    apply (for_loop_inv (λ _ t, s1.1.1 ≤ t.1.1)) in Hsearch; [lia|lia|].
    intros k [[m v] t] t' _ Ht Hstep. bind_inv Hstep.
    apply TryRotation_max in Hstep. cbn [fst snd] in *. lia.
  - rewrite E in Hsearch. rewrite bind_Some_l in Hsearch.
    rewrite for_loop_S in Hsearch.
    bind_inv Hsearch. rename x into s1.
    pose proof (TryRotation_first _ _ _ _ _ E0 E1) as H1.
    apply TryRotations_max in Hsearch. lia.
  - rewrite E in Hsearch. rewrite bind_Some_l in Hsearch.
    rewrite E0 in Hsearch. rewrite bind_Some_l in Hsearch.
    injection Hsearch as <-. cbn [fst]. lia.
Qed.

Lemma GetInlierMask_search_monotone_witness :
  ∃ plain searched,
    @GetInlierMask ExactArith [] false false demo_matcher = Some plain ∧
    @GetInlierMask ExactArith [] true true demo_matcher = Some searched ∧
    plain.1.1 ≤ searched.1.1.
Proof.
  destruct (@GetInlierMask ExactArith [] false false demo_matcher)
    as [plain|] eqn:Hplain; [|vm_compute in Hplain; discriminate].
  destruct (@GetInlierMask ExactArith [] true true demo_matcher)
    as [searched|] eqn:Hsearch; [|vm_compute in Hsearch; discriminate].
  exists plain, searched. split; [reflexivity|]. split; [reflexivity|].
  exact (@GetInlierMask_search_monotone ExactArith [] [] true true
           demo_matcher plain searched Hplain Hsearch).
Defined.

Lemma searched_elem (WithScale WithRotation : bool) (Scale RotationType : Z) :
  (if WithScale then 0 ≤ Scale < 5 else Scale = 0) →
  (if WithRotation then 1 ≤ RotationType < 9 else RotationType = 1) →
  (Scale, RotationType) ∈ searched WithScale WithRotation.
Proof.
  intros Hs Hr. unfold searched.
  apply list_elem_of_bind. exists Scale. split.
  - apply list_elem_of_bind. exists RotationType.
    split; [apply list_elem_of_here|].
    destruct WithRotation; [|subst; apply list_elem_of_here].
    assert (RotationType = 1 ∨ RotationType = 2 ∨ RotationType = 3 ∨
            RotationType = 4 ∨ RotationType = 5 ∨ RotationType = 6 ∨
            RotationType = 7 ∨ RotationType = 8) as Hcases by lia.
    rewrite !elem_of_cons. tauto.
  - destruct WithScale; [|subst; apply list_elem_of_here].
    assert (Scale = 0 ∨ Scale = 1 ∨ Scale = 2 ∨ Scale = 3 ∨ Scale = 4)
      as Hcases by lia.
    rewrite !elem_of_cons. tauto.
Qed.

(** A rotation whose inlier count is 0 leaves the maximum and the mask of
    the caller as they are. *)
Lemma TryRotation_zero `{DoubleArith} (RotationType : Z)
    (vbInliers : list bool) (t gs : GMS_Matcher) :
  inputs t = inputs gs → right_grid t = right_grid gs →
  (∃ r, Run RotationType gs = Some r ∧ r.1 = 0) →
  ∃ t', TryRotation RotationType (0, vbInliers, t) = Some (0, vbInliers, t') ∧
        inputs t' = inputs gs ∧ right_grid t' = right_grid gs.
Proof.
  intros Hin Hrg ([n g'] & Hrun & Hn). cbn in Hn. subst n.
  exists g'. unfold TryRotation. rewrite (Run_config _ _ _ Hin Hrg), Hrun.
  cbn. split; [reflexivity|]. eapply Run_frame. eassumption.
Qed.

Lemma TryRotations_zero `{DoubleArith} (n : nat) (start : Z)
    (vbInliers : list bool) (t gs : GMS_Matcher) :
  inputs t = inputs gs → right_grid t = right_grid gs →
  (∀ r, start ≤ r < start + Z.of_nat n →
        ∃ res, Run r gs = Some res ∧ res.1 = 0) →
  ∃ t', for_loop n start TryRotation (0, vbInliers, t) = Some (0, vbInliers, t') ∧
        inputs t' = inputs gs ∧ right_grid t' = right_grid gs.
Proof.
  intros Hin Hrg Hzero.
  destruct (for_loop_total
              (λ _ s, ∃ u, s = (0, vbInliers, u) ∧
                           inputs u = inputs gs ∧ right_grid u = right_grid gs)
              TryRotation n start (0, vbInliers, t))
    as (s' & Hrun & t' & -> & Hin' & Hrg').
  - exists t. repeat split; assumption.
  - intros r s Hr (u & -> & Hu & Hu').
    destruct (TryRotation_zero r vbInliers u gs Hu Hu' (Hzero r Hr))
      as (u' & Hstep & Hin' & Hrg').
    eexists. split; [eassumption|]. exists u'. repeat split; assumption.
  - exists t'. repeat split; assumption.
Qed.

Lemma hypothesis_count_zero `{DoubleArith} (Scale RotationType : Z)
    (g gs : GMS_Matcher) :
  hypothesis_count Scale RotationType g = Some 0 →
  SetScale Scale g = Some gs →
  ∃ res, Run RotationType gs = Some res ∧ res.1 = 0.
Proof.
  unfold hypothesis_count. intros Hcount Hset. rewrite Hset in Hcount.
  cbn in Hcount. bind_inv Hcount. injection Hcount as Hzero.
  eexists. split; [eassumption|assumption].
Qed.

(** C10. When a search is enabled and every hypothesis it evaluates has an
    inlier count of 0, [GetInlierMask] returns 0 and the vector of the
    caller as it was on entry; with both searches disabled the vector it
    returns is the mask of the run, whatever the caller passed. *)
Theorem GetInlierMask_no_inlier `{DoubleArith} (vbInliers : list bool)
    (WithScale WithRotation : bool) (g : GMS_Matcher) :
  WithScale || WithRotation = true →
  (∀ Scale RotationType,
     (Scale, RotationType) ∈ searched WithScale WithRotation →
     hypothesis_count Scale RotationType g = Some 0) →
  (∃ g', GetInlierMask vbInliers WithScale WithRotation g
         = Some (0, vbInliers, g')) ∧
  (∀ n mask g', GetInlierMask vbInliers false false g = Some (n, mask, g') →
                mask = mvbInlierMask g').
Proof.
  intros Hsearch Hzero. split.
  - assert (∀ Scale t,
              (if WithScale then 0 ≤ Scale < 5 else Scale = 0) →
              inputs t = inputs g →
              ∃ ts gs, SetScale Scale t = Some ts ∧ SetScale Scale g = Some gs ∧
                       inputs ts = inputs g ∧ inputs gs = inputs g ∧
                       right_grid ts = right_grid gs) as Hscale.
    { intros Scale t HScale Ht.
      assert (hypothesis_count Scale 1 g = Some 0) as Hcount.
      { apply Hzero, searched_elem; [assumption|].
        destruct WithRotation; lia. }
      unfold hypothesis_count in Hcount. bind_inv Hcount. rename x into gs.
      destruct (SetScale_inputs Scale g t gs) as (Hgs & ts & Hts & Hin & Hrg);
        [congruence|assumption|].
      exists ts, gs. repeat split; congruence. }
    unfold GetInlierMask.
    destruct WithScale, WithRotation; try discriminate; cbn [negb andb].
    + destruct (for_loop_total
                  (λ _ s, ∃ u, s = (0, vbInliers, u) ∧ inputs u = inputs g)
                  (λ Scale '(max_inlier, vbInliers, g0),
                     g1 ← SetScale Scale g0;
                     for_loop 8 1 TryRotation (max_inlier, vbInliers, g1))
                  5 0 (0, vbInliers, g))
        as (s' & Hrun & t' & -> & _).
      * exists g. split; reflexivity.
      * intros Scale s HScale (u & -> & Hu).
        destruct (Hscale Scale u) as (ts & gs & Hts & Hgs & Hin & Hin' & Hrg);
          [lia|assumption|].
        destruct (TryRotations_zero 8 1 vbInliers ts gs) as (t' & Hrot & Ht' & _);
          [congruence|assumption| |].
        -- intros r Hr. apply (hypothesis_count_zero Scale r g gs);
             [|assumption].
           apply Hzero, searched_elem; lia.
        -- rewrite Hts. cbn [mbind option_bind]. rewrite Hrot.
           eexists. split; [reflexivity|]. exists t'.
           split; [reflexivity|congruence].
      * exists t'. exact Hrun.
    + destruct (for_loop_total
                  (λ _ s, ∃ u, s = (0, vbInliers, u) ∧ inputs u = inputs g)
                  (λ Scale '(max_inlier, vbInliers, g0),
                     g1 ← SetScale Scale g0;
                     TryRotation 1 (max_inlier, vbInliers, g1))
                  5 0 (0, vbInliers, g))
        as (s' & Hrun & t' & -> & _).
      * exists g. split; reflexivity.
      * intros Scale s HScale (u & -> & Hu).
        destruct (Hscale Scale u) as (ts & gs & Hts & Hgs & Hin & Hin' & Hrg);
          [lia|assumption|].
        destruct (TryRotation_zero 1 vbInliers ts gs) as (t' & Hrot & Ht' & _);
          [congruence|assumption| |].
        -- apply (hypothesis_count_zero Scale 1 g gs); [|assumption].
           apply Hzero, searched_elem; lia.
        -- rewrite Hts. cbn [mbind option_bind]. rewrite Hrot.
           eexists. split; [reflexivity|]. exists t'.
           split; [reflexivity|congruence].
      * exists t'. exact Hrun.
    + destruct (Hscale 0 g) as (ts & gs & Hts & Hgs & Hin & Hin' & Hrg);
        [reflexivity|reflexivity|].
      destruct (TryRotations_zero 8 1 vbInliers ts gs) as (t' & Hrot & _);
        [congruence|assumption| |].
      * intros r Hr. apply (hypothesis_count_zero 0 r g gs); [|assumption].
        apply Hzero, searched_elem; [reflexivity|lia].
      * rewrite Hts. cbn [mbind option_bind]. exists t'. exact Hrot.
  - unfold GetInlierMask. cbn [negb andb]. intros n mask g' Hrun.
    bind_inv Hrun. destruct x0 as [n' g'']. injection Hrun as _ <- <-.
    reflexivity.
Qed.

Lemma GetInlierMask_no_inlier_witness :
  (∃ g', @GetInlierMask ExactArith [true; false] true true demo_strict
         = Some (0, [true; false], g')) ∧
  (∀ n mask g',
     @GetInlierMask ExactArith [true; false] false false demo_strict
     = Some (n, mask, g') →
     mask = mvbInlierMask g').
Proof.
  apply (@GetInlierMask_no_inlier ExactArith [true; false] true true demo_strict).
  - reflexivity.
  - intros Scale RotationType Hin. unfold searched in Hin. cbn in Hin.
    repeat (apply elem_of_cons in Hin as [Hin|Hin];
            [injection Hin as -> ->; vm_compute; reflexivity|]).
    apply elem_of_nil in Hin. destruct Hin.
Defined.

(** ** The dispatcher *)

Lemma RatioTest_putative (ratio : Q) (i : nat) (p p' : MatchPruner) :
  RatioTest ratio i p = Some p' → putative_matches_ p' = putative_matches_ p.
Proof.
  unfold RatioTest. intros Hrun. bind_inv Hrun.
  destruct (below_ratio _ _ _); injection Hrun as <-; reflexivity.
Qed.

Lemma accept_labelled_putative (labels : list bool) (initial : list DMatch)
    (score : nat → option Q) (p p' : MatchPruner) :
  accept_labelled labels initial score p = Some p' →
  putative_matches_ p' = putative_matches_ p.
Proof.
  unfold accept_labelled. intros Hrun.
  apply (for_size_inv (λ _ t, putative_matches_ t = putative_matches_ p))
    in Hrun; [assumption|reflexivity|].
  intros i t t' _ Ht Hstep. bind_inv Hstep. destruct x.
  - bind_inv Hstep. injection Hstep as <-. exact Ht.
  - injection Hstep as <-. exact Ht.
Qed.

Lemma PruneMatchesByLPM_putative `{LPM_Matcher} (knn0 : Z) (lambda0 tau0 : Q)
    (knn1 : Z) (lambda1 tau1 : Q) (p p' : MatchPruner) :
  PruneMatchesByLPM knn0 lambda0 tau0 knn1 lambda1 tau1 p = Some p' →
  putative_matches_ p' = putative_matches_ p.
Proof.
  unfold PruneMatchesByLPM. intros Hrun. bind_inv Hrun.
  destruct (LPM_Match _ _ knn0 _ _ _) as [cost0 labels0].
  destruct (LPM_Match _ _ knn1 _ _ _) as [cost1 labels1].
  eapply accept_labelled_putative. eassumption.
Qed.

(** C3. With the ratio test selected, a query whose candidate list has
    fewer than two entries makes [PruneMatchesByRatioTest] read
    [tmp_matches[1]] out of range: the behaviour of the dispatcher is
    undefined, it reports no error. *)
Theorem RatioTest_short_candidate_list `{DoubleArith} `{LPM_Matcher}
    (p : MatchPruner) (i : nat) (candidates : list DMatch) :
  pruner_method_ p = PRUNER_RATIO →
  putative_matches_ p !! i = Some candidates →
  (length candidates < 2)%nat →
  RatioTest (8 # 10) i p = None ∧
  PruneMatchesByRatioTest (8 # 10) p = None ∧
  PruneMatches p = None.
Proof.
  intros Hmethod Hi Hshort.
  assert (∀ t, putative_matches_ t = putative_matches_ p →
               RatioTest (8 # 10) i t = None) as Hstuck.
  { intros t Ht. unfold RatioTest. rewrite Ht, Hi. cbn.
    rewrite (lookup_ge_None_2 candidates 1) by lia.
    destruct (candidates !! 0%nat); reflexivity. }
  assert (PruneMatchesByRatioTest (8 # 10) p = None) as Hratio.
  { unfold PruneMatchesByRatioTest.
    apply (for_size_stuck
             (λ t, putative_matches_ t = putative_matches_ p) _ _ _ i).
    - reflexivity.
    - intros j t t' Ht Hstep. apply RatioTest_putative in Hstep. congruence.
    - apply lookup_lt_Some in Hi. lia.
    - exact Hstuck. }
  split; [apply Hstuck; reflexivity|]. split; [exact Hratio|].
  unfold PruneMatches. rewrite Hmethod, Hratio. reflexivity.
Qed.

Lemma RatioTest_short_candidate_list_witness :
  let p := mkPruner (mkSize 100 100) (mkSize 100 100)
                    [mkKeyPoint (mkPoint2f 1 1)] [mkKeyPoint (mkPoint2f 1 1)]
                    [[mkDMatch 0 0 1]] PRUNER_RATIO [] [] [] [] [] in
  RatioTest (8 # 10) 0 p = None ∧
  PruneMatchesByRatioTest (8 # 10) p = None ∧
  @PruneMatches ExactArith KeepAll p = None.
Proof.
  intros p.
  apply (@RatioTest_short_candidate_list ExactArith KeepAll p 0 [mkDMatch 0 0 1]).
  - reflexivity.
  - reflexivity.
  - cbn. lia.
Defined.

(** With no putative match, the GMS strategy accepts nothing and leaves the
    pruner as it is. *)
Lemma PruneMatchesByGMS_no_putative `{DoubleArith} (p : MatchPruner) :
  putative_matches_ p = [] →
  PruneMatchesByGMS (mkSize 15 15) 6 p = Some p.
Proof.
  destruct p as [img0 img1 k0 k1 putative method pruned scores q r knn].
  intros Hp. cbn [putative_matches_] in Hp. subst putative.
  vm_compute. reflexivity.
Qed.

(** C2. With no putative match, the ratio test and the GMS strategy accept
    nothing, and the dispatcher then reads [putative_matches_[0]] to learn
    the length of the candidate lists: the behaviour is undefined under
    each strategy, no error is reported. *)
Theorem PruneMatches_no_putative `{DoubleArith} `{LPM_Matcher} (p : MatchPruner) :
  putative_matches_ p = [] →
  PruneMatchesByRatioTest (8 # 10) p = Some p ∧
  PruneMatchesByGMS (mkSize 15 15) 6 p = Some p ∧
  putative_matches_ p !! 0%nat = None ∧
  PruneMatches p = None.
Proof.
  intros Hempty.
  assert (PruneMatchesByRatioTest (8 # 10) p = Some p) as Hratio
    by (unfold PruneMatchesByRatioTest; rewrite Hempty; reflexivity).
  pose proof (PruneMatchesByGMS_no_putative p Hempty) as Hgms.
  split; [exact Hratio|]. split; [exact Hgms|].
  split; [rewrite Hempty; reflexivity|].
  unfold PruneMatches. destruct (pruner_method_ p).
  - rewrite Hratio. cbn. rewrite Hempty. reflexivity.
  - rewrite Hgms. cbn. rewrite Hempty. reflexivity.
  - destruct (PruneMatchesByLPM _ _ _ _ _ _ p) as [p'|] eqn:Hlpm;
      [|reflexivity].
    apply PruneMatchesByLPM_putative in Hlpm. cbn. rewrite Hlpm, Hempty.
    reflexivity.
Qed.

Lemma PruneMatches_no_putative_witness :
  let p := mkPruner (mkSize 100 100) (mkSize 100 100) [] [] [] PRUNER_GMS
                    [] [] [] [] [] in
  PruneMatchesByRatioTest (8 # 10) p = Some p ∧
  @PruneMatchesByGMS ExactArith (mkSize 15 15) 6 p = Some p ∧
  putative_matches_ p !! 0%nat = None ∧
  @PruneMatches ExactArith KeepAll p = None.
Proof.
  intros p. apply (@PruneMatches_no_putative ExactArith KeepAll p). reflexivity.
Defined.

(** * Further properties *)

(** ** Cells of points inside the image *)

Lemma Qfloor_unit_times (p : Q) (n : Z) :
  (0 <= p)%Q → (p < 1)%Q → 0 < n → 0 ≤ Qfloor (p * inject_Z n) < n.
Proof.
  intros Hp0 Hp1 Hn.
  assert (0 < inject_Z n)%Q as Hn'
    by (change 0%Q with (inject_Z 0); rewrite <- Zlt_Qlt; exact Hn).
  split.
  - change 0 with (Qfloor 0). apply Qfloor_resp_le.
    apply Qmult_le_0_compat; [assumption|]. apply Qlt_le_weak. assumption.
  - rewrite Zlt_Qlt. eapply Qle_lt_trans; [apply Qfloor_le|].
    rewrite <- (Qmult_1_l (inject_Z n)) at 2.
    apply Qmult_lt_compat_r; assumption.
Qed.

Lemma Qfloor_nonneg_times (p : Q) (n : Z) :
  (0 <= p)%Q → 0 ≤ n → 0 ≤ Qfloor (p * inject_Z n).
Proof.
  intros Hp Hn. change 0 with (Qfloor 0). apply Qfloor_resp_le.
  apply Qmult_le_0_compat; [assumption|].
  change 0%Q with (inject_Z 0). rewrite <- Zle_Qle. exact Hn.
Qed.

Lemma Qfloor_nonneg_times_half (p : Q) (n : Z) :
  (0 <= p)%Q → 0 ≤ n → 0 ≤ Qfloor (p * inject_Z n + half).
Proof.
  intros Hp Hn. change 0 with (Qfloor 0). apply Qfloor_resp_le.
  apply Qle_trans with (p * inject_Z n)%Q.
  - apply Qmult_le_0_compat; [assumption|].
    change 0%Q with (inject_Z 0). rewrite <- Zle_Qle. exact Hn.
  - rewrite <- (Qplus_0_r (p * inject_Z n)) at 1.
    apply Qplus_le_r. unfold half. discriminate.
Qed.

Lemma GetGridIndexRight_range (gs : Size) (p : Point2f) :
  0 < width gs → 0 < height gs → in_unit_square p →
  0 ≤ GetGridIndexRight gs p < width gs * height gs.
Proof.
  intros HW HH (Hx0 & Hx1 & Hy0 & Hy1).
  pose proof (Qfloor_unit_times _ _ Hx0 Hx1 HW) as Hx.
  pose proof (Qfloor_unit_times _ _ Hy0 Hy1 HH) as Hy.
  unfold GetGridIndexRight. nia.
Qed.



Lemma bounded_cell (gs : Size) (x y : Z) :
  0 ≤ x → 0 ≤ y →
  (if (x >=? width gs) || (y >=? height gs) then -1 else x + y * width gs) = -1 ∨
  0 ≤ (if (x >=? width gs) || (y >=? height gs) then -1 else x + y * width gs)
    < width gs * height gs.
Proof.
  intros Hx0 Hy0. rewrite !Z.geb_leb.
  destruct (Z.leb_spec (width gs) x), (Z.leb_spec (height gs) y); cbn;
    try (left; reflexivity). right. nia.
Qed.

(** Under every offset the left cell of a point with non-negative
    coordinates is -1 or a cell of the grid: the bound test of
    [GetGridIndexLeft] keeps the shifted coordinates inside. *)
Lemma GetGridIndexLeft_cell_or_excluded (gs : Size) (p : Point2f) (type : Z) :
  0 ≤ width gs → 0 ≤ height gs →
  (0 <= pt_x p)%Q → (0 <= pt_y p)%Q →
  GetGridIndexLeft gs p type = -1 ∨
  0 ≤ GetGridIndexLeft gs p type < width gs * height gs.
Proof.
  intros HW HH Hx Hy.
  pose proof (Qfloor_nonneg_times _ _ Hx HW) as Hx1.
  pose proof (Qfloor_nonneg_times_half _ _ Hx HW) as Hx2.
  pose proof (Qfloor_nonneg_times _ _ Hy HH) as Hy1.
  pose proof (Qfloor_nonneg_times_half _ _ Hy HH) as Hy2.
  unfold GetGridIndexLeft.
  set (x1 := Qfloor (pt_x p * inject_Z (width gs))) in *.
  set (x2 := Qfloor (pt_x p * inject_Z (width gs) + half)) in *.
  set (y1 := Qfloor (pt_y p * inject_Z (height gs))) in *.
  set (y2 := Qfloor (pt_y p * inject_Z (height gs) + half)) in *.
  pose proof (bounded_cell gs) as Hcell.
  destruct (type =? 1), (type =? 2), (type =? 3), (type =? 4);
    apply Hcell; lia.
Qed.

(** ** The neighbour relation *)

Lemma cell_of_coordinates (W x y : Z) :
  0 ≤ x < W → 0 ≤ y →
  Z.rem (x + y * W) W = x ∧ Z.quot (x + y * W) W = y.
Proof.
  intros Hx Hy.
  rewrite Z.rem_mod_nonneg, Z.quot_div_nonneg by nia.
  rewrite Z.mod_add, Z.div_add by lia.
  rewrite Z.mod_small, Z.div_small by lia. lia.
Qed.

Lemma neighbor_slot_range (gs : Size) (idx k : Z) :
  0 < width gs → 0 ≤ idx < width gs * height gs →
  neighbor_slot gs idx k = -1 ∨
  0 ≤ neighbor_slot gs idx k < width gs * height gs.
Proof.
  intros HW Hidx. destruct (cell_coordinates gs idx HW Hidx) as [Hx Hy].
  unfold neighbor_slot.
  set (xx := Z.rem idx (width gs) + (k mod 3 - 1)).
  set (yy := Z.quot idx (width gs) + (k / 3 - 1)).
  destruct (Z.leb_spec 0 xx), (Z.ltb_spec xx (width gs)),
           (Z.leb_spec 0 yy), (Z.ltb_spec yy (height gs));
    cbn; try (left; reflexivity). right. nia.
Qed.

(** X2. The entries of a row of the neighbour table are -1 or cells of the
    grid, so that [VerifyCellPairs] can read the vote matrix and the
    populations at every valid neighbour. *)
Theorem GetNB9_entries (gs : Size) (idx : Z) :
  0 < width gs → 0 ≤ idx < width gs * height gs →
  length (GetNB9 idx gs) = 9%nat ∧
  Forall (λ v, v = -1 ∨ 0 ≤ v < width gs * height gs) (GetNB9 idx gs).
Proof.
  intros HW Hidx. rewrite GetNB9_slots. split; [reflexivity|].
  apply Forall_fmap, Forall_true. intros k. cbn.
  apply neighbor_slot_range; assumption.
Qed.

Lemma GetNB9_entries_witness :
  length (GetNB9 7 (mkSize 3 3)) = 9%nat ∧
  Forall (λ v, v = -1 ∨ 0 ≤ v < 3 * 3) (GetNB9 7 (mkSize 3 3)).
Proof. apply (GetNB9_entries (mkSize 3 3) 7); cbn; lia. Defined.

(** X3. The neighbour relation is symmetric and the table records it in
    opposite slots: when slot [k] of cell [idx] holds the cell [j], slot
    [8 - k] of cell [j] holds [idx]. *)
Theorem GetNB9_opposite_slot (gs : Size) (idx j k : Z) :
  0 < width gs → 0 ≤ idx < width gs * height gs →
  vget (GetNB9 idx gs) k = Some j → j ≠ -1 →
  vget (GetNB9 j gs) (8 - k) = Some idx.
Proof.
  intros HW Hidx Hk Hj. rewrite GetNB9_slots in *.
  pose proof (vget_lt _ _ _ Hk) as Hk9. cbn in Hk9.
  destruct (cell_coordinates gs idx HW Hidx) as [Hx Hy].
  pose proof (Z.quot_rem' idx (width gs)) as Hqr.
  assert (neighbor_slot gs idx k = j) as Hslot.
  { assert (k = 0 ∨ k = 1 ∨ k = 2 ∨ k = 3 ∨ k = 4 ∨ k = 5 ∨ k = 6 ∨ k = 7 ∨
            k = 8) as Hcases by lia.
    destruct Hcases as [ -> | [ -> | [ -> | [ -> | [ -> | [ -> | [ -> |
                       [ -> | -> ] ] ] ] ] ] ] ];
      cbn in Hk; injection Hk as <-; reflexivity. }
  assert (vget (map (neighbor_slot gs j) [0; 1; 2; 3; 4; 5; 6; 7; 8]) (8 - k)
          = Some (neighbor_slot gs j (8 - k))) as ->.
  { assert (k = 0 ∨ k = 1 ∨ k = 2 ∨ k = 3 ∨ k = 4 ∨ k = 5 ∨ k = 6 ∨ k = 7 ∨
            k = 8) as Hcases by lia.
    destruct Hcases as [ -> | [ -> | [ -> | [ -> | [ -> | [ -> | [ -> |
                       [ -> | -> ] ] ] ] ] ] ] ]; reflexivity. }
  f_equal. clear Hk. unfold neighbor_slot in Hslot.
  set (dx := k mod 3 - 1) in *. set (dy := k / 3 - 1) in *.
  assert ((8 - k) mod 3 - 1 = - dx ∧ (8 - k) / 3 - 1 = - dy ∧
          -1 ≤ dx ≤ 1 ∧ -1 ≤ dy ≤ 1) as (Hdx & Hdy & Hbx & Hby).
  { subst dx dy.
    assert (k = 0 ∨ k = 1 ∨ k = 2 ∨ k = 3 ∨ k = 4 ∨ k = 5 ∨ k = 6 ∨ k = 7 ∨
            k = 8) as Hcases by lia.
    destruct Hcases as [ -> | [ -> | [ -> | [ -> | [ -> | [ -> | [ -> |
                       [ -> | -> ] ] ] ] ] ] ] ];
      repeat split; try reflexivity; vm_compute; discriminate. }
  set (x := Z.rem idx (width gs)) in *. set (y := Z.quot idx (width gs)) in *.
  destruct (Z.leb_spec 0 (x + dx)), (Z.ltb_spec (x + dx) (width gs)),
           (Z.leb_spec 0 (y + dy)), (Z.ltb_spec (y + dy) (height gs));
    cbn in Hslot; try (exfalso; lia).
  destruct (cell_of_coordinates (width gs) (x + dx) (y + dy)) as [Hr Hq];
    [lia|lia|].
  unfold neighbor_slot. rewrite <- Hslot, Hr, Hq, Hdx, Hdy.
  destruct (Z.leb_spec 0 (x + dx + - dx)),
           (Z.ltb_spec (x + dx + - dx) (width gs)),
           (Z.leb_spec 0 (y + dy + - dy)),
           (Z.ltb_spec (y + dy + - dy) (height gs)); cbn; lia.
Qed.

Lemma GetNB9_opposite_slot_witness :
  vget (GetNB9 5 (mkSize 3 3)) (8 - 8) = Some 1.
Proof.
  apply (GetNB9_opposite_slot (mkSize 3 3) 1 5 8); cbn; first [lia|reflexivity].
Defined.

(** ** Shapes of the working members *)

Lemma Mat_zeros_shape (rows cols : Z) : Mat_shape (Mat_zeros rows cols) rows cols.
Proof.
  unfold Mat_shape, Mat_zeros. split; [apply length_replicate|].
  apply Forall_replicate. apply length_replicate.
Qed.

Lemma Mat_setTo0_shape (m : Mat) (rows cols : Z) :
  Mat_shape m rows cols → Mat_shape (Mat_setTo0 m) rows cols.
Proof.
  unfold Mat_shape, Mat_setTo0. intros [Hrows Hcols]. split.
  - rewrite length_map. exact Hrows.
  - apply Forall_fmap. eapply Forall_impl; [exact Hcols|].
    intros row Hrow. cbn. rewrite length_map. exact Hrow.
Qed.

Lemma Mat_shape_row (m : Mat) (rows cols i : Z) :
  Mat_shape m rows cols → 0 ≤ i < rows →
  ∃ row, vget m i = Some row ∧ length row = Z.to_nat cols.
Proof.
  intros [Hrows Hcols] Hi.
  destruct (vget_is_Some m i) as [row Hrow]; [lia|].
  exists row. split; [assumption|].
  apply vget_Some in Hrow as [_ Hrow].
  exact (Forall_lookup_1 _ _ _ _ Hcols Hrow).
Qed.

Lemma Mat_at_total (m : Mat) (rows cols i j : Z) :
  Mat_shape m rows cols → 0 ≤ i < rows → 0 ≤ j < cols →
  ∃ v, Mat_at m i j = Some v.
Proof.
  intros Hm Hi Hj. destruct (Mat_shape_row _ _ _ _ Hm Hi) as (row & Hrow & Hlen).
  destruct (vget_is_Some row j) as [v Hv]; [lia|].
  exists v. unfold Mat_at. rewrite Hrow. exact Hv.
Qed.

Lemma Mat_incr_total (m : Mat) (rows cols i j : Z) :
  Mat_shape m rows cols → 0 ≤ i < rows → 0 ≤ j < cols →
  ∃ m', Mat_incr m i j = Some m' ∧ Mat_shape m' rows cols.
Proof.
  intros Hm Hi Hj. destruct (Mat_shape_row _ _ _ _ Hm Hi) as (row & Hrow & Hlen).
  destruct (vget_is_Some row j) as [v Hv]; [lia|].
  eexists. unfold Mat_incr. rewrite Hrow. cbn. rewrite Hv. cbn.
  split; [reflexivity|]. destruct Hm as [Hrows Hcols]. unfold Mat in *. split.
  - rewrite length_insert. exact Hrows.
  - apply Forall_insert; [exact Hcols|]. rewrite length_insert. exact Hlen.
Qed.

(** ** The population of a left cell *)

Lemma row_sum_insert (row : list Z) (j : nat) (v w : Z) :
  row !! j = Some v → row_sum (<[j := w]> row) = row_sum row - v + w.
Proof.
  revert j. induction row as [|a row IH]; intros [|j] Hj; try discriminate.
  - injection Hj as ->. cbn. lia.
  - cbn in Hj. specialize (IH j Hj).
    change (row_sum (<[S j := w]> (a :: row)))
      with (a + row_sum (<[j := w]> row)).
    change (row_sum (a :: row)) with (a + row_sum row). lia.
Qed.

Lemma map_insert {A B} (f : A → B) (l : list A) (i : nat) (x : A) :
  map f (<[i := x]> l) = <[i := f x]> (map f l).
Proof. exact (list_fmap_insert f l i x). Qed.

Lemma map_lookup {A B} (f : A → B) (l : list A) (i : nat) :
  map f l !! i = f <$> l !! i.
Proof. exact (list_lookup_fmap f l i). Qed.

Lemma AssignMatchPair_population (GridType : Z) (i : nat) (g g' : GMS_Matcher) :
  AssignMatchPair GridType i g = Some g' →
  mNumberPointsInPerCellLeft g = map row_sum (mMotionStatistics g) →
  mNumberPointsInPerCellLeft g' = map row_sum (mMotionStatistics g').
Proof.
  unfold AssignMatchPair. intros Hrun Hpop. bind_inv Hrun. cbn zeta in Hrun.
  destruct (_ || _) in Hrun.
  - injection Hrun as <-. exact Hpop.
  - bind_inv Hrun. injection Hrun as <-. cbn in *.
    unfold Mat_incr in E3. bind_inv E3. injection E3 as <-.
    apply vget_Some in E5 as [_ Hrow]. apply vget_Some in E6 as [_ Hv].
    apply vget_Some in E4 as [_ Hn].
    unfold Mat in *.
    rewrite map_insert, (row_sum_insert _ _ _ _ Hv), Hpop.
    f_equal. rewrite Hpop, map_lookup, Hrow in Hn. cbn in Hn.
    injection Hn as <-. lia.
Qed.

Lemma row_sum_zeros (row : list Z) : row_sum (map (λ _, 0) row) = 0.
Proof. induction row as [|a row IH]; [reflexivity|]. cbn. exact IH. Qed.

(** X4. After the vote of an offset, the population counter of every left
    cell is the sum of its row of the vote matrix: a match is counted in
    its left cell exactly when it casts a vote. *)
Theorem OffsetVote_population `{DoubleArith} (RotationType GridType : Z)
    (g g' : GMS_Matcher) :
  OffsetVote RotationType GridType g = Some g' →
  length (mMotionStatistics g) = Z.to_nat (mGridNumberLeft g) →
  mNumberPointsInPerCellLeft g' = map row_sum (mMotionStatistics g').
Proof.
  unfold OffsetVote. intros Hrun Hrows. bind_inv Hrun. rename x into g1.
  apply VerifyCellPairs_frame in Hrun. rewrite Hrun. cbn.
  unfold AssignMatchPairs in E.
  apply (for_size_inv (λ _ t, mNumberPointsInPerCellLeft t
                              = map row_sum (mMotionStatistics t))) in E.
  - exact E.
  - cbn. unfold Mat_setTo0. rewrite <- Hrows. clear.
    induction (mMotionStatistics g) as [|row m IH]; [reflexivity|].
    cbn. rewrite row_sum_zeros. f_equal. exact IH.
  - intros i t t' _ Ht Hstep. eapply AssignMatchPair_population; eassumption.
Qed.

Lemma OffsetVote_population_witness :
  mNumberPointsInPerCellLeft demo_voted
  = map row_sum (mMotionStatistics demo_voted).
Proof.
  apply (@OffsetVote_population ExactArith 1 1 demo_ready demo_voted).
  - vm_compute. reflexivity.
  - vm_compute. reflexivity.
Defined.

(** ** No access out of range *)

Lemma matcher_ready_config (g t : GMS_Matcher) :
  inputs t = inputs g → right_grid t = right_grid g →
  matcher_ready g → matcher_ready t.
Proof.
  intros Hin Hrg. injection Hin as HP1 HP2 HM Hn HL HN Hnl _.
  injection Hrg as HR HNr Hnr.
  unfold matcher_ready, matches_ok, left_grid_ok, right_grid_ok.
  rewrite HP1, HP2, HM, Hn, HL, HN, Hnl, HR, HNr, Hnr. tauto.
Qed.

Lemma AssignMatchPair_total (GridType : Z) (i : nat) (t : GMS_Matcher) :
  matcher_ready t → working_ok t →
  length (mNumberPointsInPerCellLeft t) = Z.to_nat (mGridNumberLeft t) →
  (i < mNumberMatches t)%nat →
  ∃ t', AssignMatchPair GridType i t = Some t' ∧ working_ok t' ∧
        length (mNumberPointsInPerCellLeft t') = Z.to_nat (mGridNumberLeft t').
Proof.
  intros ((Hlen & Hpoints) & (HWl & HHl & HN & _) & (HWr & HHr & HM & _))
         (Hshape & Hpairs & Hmask & Hright) Hpop Hi.
  destruct (lookup_lt_is_Some_2 (mvMatches t) i) as [m Hm]; [lia|].
  destruct (Forall_lookup_1 _ _ _ _ Hpoints Hm)
    as (lp & rp & Hlp & Hrp & Hlsq & Hrsq).
  destruct (lookup_lt_is_Some_2 (mvMatchPairs t) i) as [mp Hmp]; [lia|].
  pose proof (Forall_lookup_1 _ _ _ _ Hright Hmp) as Hmp2. cbn in Hmp2.
  unfold AssignMatchPair. rewrite Hm. cbn [mbind option_bind].
  rewrite Hlp, Hrp. cbn [mbind option_bind]. rewrite Hmp.
  cbn [mbind option_bind]. cbn zeta.
  set (lgidx := GetGridIndexLeft (mGridSizeLeft t) lp GridType).
  set (rgidx := if GridType =? 1
                then GetGridIndexRight (mGridSizeRight t) rp else mp.2).
  assert (lgidx = -1 ∨ 0 ≤ lgidx < mGridNumberLeft t) as Hl.
  { rewrite HN. destruct Hlsq as (Hx & _ & Hy & _).
    apply GetGridIndexLeft_cell_or_excluded; assumption. }
  assert (rgidx < mGridNumberRight t) as Hr.
  { subst rgidx. destruct (GridType =? 1); [|exact Hmp2].
    rewrite HM. apply GetGridIndexRight_range; assumption. }
  assert (Forall (λ mp : Z * Z, mp.2 < mGridNumberRight t)
                 (<[i := (lgidx, rgidx)]> (mvMatchPairs t))) as Hright'.
  { apply Forall_insert; [exact Hright|exact Hr]. }
  destruct (Z.ltb_spec lgidx 0) as [Hl0|Hl0];
    [|destruct (Z.ltb_spec rgidx 0) as [Hr0|Hr0]]; cbn [orb].
  - eexists. split; [reflexivity|]. split; [|exact Hpop].
    split; [exact Hshape|]. cbn. rewrite length_insert.
    split; [exact Hpairs|]. split; [exact Hmask|exact Hright'].
  - eexists. split; [reflexivity|]. split; [|exact Hpop].
    split; [exact Hshape|]. cbn. rewrite length_insert.
    split; [exact Hpairs|]. split; [exact Hmask|exact Hright'].
  - destruct (Mat_incr_total (mMotionStatistics t) (mGridNumberLeft t)
                (mGridNumberRight t) lgidx rgidx) as (stats & Hincr & Hshape');
      [exact Hshape|lia|lia|].
    destruct (vget_is_Some (mNumberPointsInPerCellLeft t) lgidx) as [n Hn];
      [lia|].
    cbn. rewrite Hincr. cbn. rewrite Hn. cbn.
    eexists. split; [reflexivity|]. cbn. rewrite !length_insert.
    split; [|exact Hpop]. unfold working_ok. cbn. rewrite length_insert.
    split; [exact Hshape'|]. split; [exact Hpairs|].
    split; [exact Hmask|exact Hright'].
Qed.

Lemma AssignMatchPairs_total (GridType : Z) (g : GMS_Matcher) :
  matcher_ready g → working_ok g →
  length (mNumberPointsInPerCellLeft g) = Z.to_nat (mGridNumberLeft g) →
  ∃ g', AssignMatchPairs GridType g = Some g' ∧ working_ok g' ∧
        length (mNumberPointsInPerCellLeft g') = Z.to_nat (mGridNumberLeft g').
Proof.
  intros Hready Hwork Hpop. unfold AssignMatchPairs.
  destruct (for_size_total
              (λ _ t, inputs t = inputs g ∧ right_grid t = right_grid g ∧
                      working_ok t ∧
                      length (mNumberPointsInPerCellLeft t)
                      = Z.to_nat (mGridNumberLeft t))
              (AssignMatchPair GridType) (mNumberMatches g) 0 g)
    as (g' & Hrun & _ & _ & Hwork' & Hpop').
  - split; [reflexivity|]. split; [reflexivity|]. split; assumption.
  - intros i t Hi (Hin & Hrg & Hw & Hp).
    assert (mNumberMatches t = mNumberMatches g) as Hn
      by (injection Hin as _ _ _ Hn _ _ _ _; exact Hn).
    destruct (AssignMatchPair_total GridType i t) as (t' & Hstep & Hw' & Hp');
      [eapply matcher_ready_config; eassumption|assumption|assumption|lia|].
    exists t'. split; [assumption|].
    apply AssignMatchPair_frame in Hstep as (Hin' & Hrg' & _ & _).
    split; [congruence|]. split; [congruence|]. split; assumption.
  - exists g'. split; [assumption|]. split; assumption.
Qed.

Lemma rotation_pattern_slots (RotationType : Z) (CurrentRP : list Z) :
  vget kRotationPatterns (RotationType - 1) = Some CurrentRP →
  length CurrentRP = 9%nat ∧ Forall (λ p, 1 ≤ p ≤ 9) CurrentRP.
Proof.
  intros [_ HRP]%vget_Some.
  assert (Forall (λ RP, length RP = 9%nat ∧ Forall (λ p, 1 ≤ p ≤ 9) RP)
                 kRotationPatterns) as Hall.
  { unfold kRotationPatterns.
    repeat (apply Forall_cons; split;
            [split; [reflexivity|repeat (apply Forall_cons; split; [lia|]);
                     apply Forall_nil; exact I]|]).
    apply Forall_nil. exact I. }
  rewrite Forall_forall in Hall. apply Hall.
  eapply list_elem_of_lookup_2. eassumption.
Qed.

Lemma rotation_pattern_exists (RotationType : Z) :
  1 ≤ RotationType ≤ 8 →
  ∃ CurrentRP, vget kRotationPatterns (RotationType - 1) = Some CurrentRP.
Proof.
  intros Hr. apply vget_is_Some.
  change (Z.of_nat (length kRotationPatterns)) with 8. lia.
Qed.

Lemma NeighborTable_row_cells (gs : Size) (idx : Z) :
  0 ≤ width gs → 0 ≤ idx < width gs * height gs →
  ∃ NB9, vget (NeighborTable gs) idx = Some NB9 ∧ length NB9 = 9%nat ∧
         Forall (λ v, v = -1 ∨ 0 ≤ v < width gs * height gs) NB9.
Proof.
  intros HW Hidx.
  assert (0 < width gs) as HW'.
  { destruct (Z.eq_dec (width gs) 0) as [E|E]; [rewrite E in Hidx|]; lia. }
  exists (GetNB9 idx gs). split; [apply NeighborTable_row; assumption|].
  rewrite GetNB9_slots. split; [reflexivity|].
  apply Forall_fmap, Forall_true. intros k. cbn.
  apply neighbor_slot_range; assumption.
Qed.

Lemma support_total (stats : Mat) (population NB9_lt NB9_rt CurrentRP : list Z)
    (leftCells rightCells : Z) :
  Mat_shape stats leftCells rightCells →
  length population = Z.to_nat leftCells →
  length NB9_lt = 9%nat → Forall (λ v, v = -1 ∨ 0 ≤ v < leftCells) NB9_lt →
  length NB9_rt = 9%nat → Forall (λ v, v = -1 ∨ 0 ≤ v < rightCells) NB9_rt →
  length CurrentRP = 9%nat → Forall (λ p, 1 ≤ p ≤ 9) CurrentRP →
  ∃ acc, support stats population NB9_lt NB9_rt CurrentRP = Some acc.
Proof.
  intros Hshape Hpop Hllen Hl Hrlen Hr Hplen Hp. unfold support.
  destruct (for_loop_total (λ _ _, True)
              (support_step stats population NB9_lt NB9_rt CurrentRP)
              9 0 (0, 0, 0)) as (acc & Hrun & _); [exact I| |eauto].
  intros j acc Hj _. unfold support_step.
  destruct (vget_is_Some NB9_lt j) as [ll Hll]; [lia|].
  destruct (vget_is_Some CurrentRP j) as [p Hpj]; [lia|].
  pose proof (Forall_lookup_1 _ _ _ _ Hp (proj2 (proj1 (vget_Some _ _ _) Hpj)))
    as Hprange. cbn in Hprange.
  destruct (vget_is_Some NB9_rt (p - 1)) as [rr Hrr]; [lia|].
  pose proof (Forall_lookup_1 _ _ _ _ Hl (proj2 (proj1 (vget_Some _ _ _) Hll)))
    as Hllrange. cbn in Hllrange.
  pose proof (Forall_lookup_1 _ _ _ _ Hr (proj2 (proj1 (vget_Some _ _ _) Hrr)))
    as Hrrrange. cbn in Hrrrange.
  rewrite Hll. cbn [mbind option_bind]. rewrite Hpj. cbn [mbind option_bind].
  rewrite Hrr. cbn [mbind option_bind].
  destruct (Z.eqb_spec ll (-1)) as [Hle|Hle]; [eauto|].
  destruct (Z.eqb_spec rr (-1)) as [Hre|Hre]; [eauto|]. cbn [orb].
  destruct (Mat_at_total stats leftCells rightCells ll rr) as [v Hv];
    [assumption|lia|lia|].
  destruct (vget_is_Some population ll) as [n Hn]; [lia|].
  rewrite Hv. cbn [mbind option_bind]. rewrite Hn. cbn [mbind option_bind].
  destruct acc as [[score thresh] numpair]. eauto.
Qed.

Lemma max_vote_total (value : list Z) (rightCells cell_pair : Z) :
  length value = Z.to_nat rightCells →
  ∃ found, max_vote value rightCells cell_pair = Some found.
Proof.
  intros Hlen. unfold max_vote.
  destruct (for_loop_total (λ _ _, True) (max_vote_step value)
              (Z.to_nat rightCells) 0 (cell_pair, 0))
    as (found & Hrun & _); [exact I| |eauto].
  intros j acc Hj _. unfold max_vote_step.
  destruct (vget_is_Some value j) as [v Hv]; [lia|].
  rewrite Hv. cbn. destruct (v >? acc.2); eauto.
Qed.

Lemma row_sum_all_zero (value : list Z) :
  Forall (λ v, v = 0) value → row_sum value = 0.
Proof.
  induction 1 as [|v value Hv _ IH]; [reflexivity|].
  change (row_sum (v :: value)) with (v + row_sum value). lia.
Qed.

(** The loop of [max_vote] on a row of counts that do not sum to 0 ends on
    a right cell. *)
Lemma max_vote_cell (value : list Z) (rightCells cell_pair : Z) (found : Z * Z) :
  length value = Z.to_nat rightCells → Forall (Z.le 0) value →
  row_sum value ≠ 0 →
  max_vote value rightCells cell_pair = Some found →
  0 ≤ found.1 < rightCells.
Proof.
  intros Hlen Hnn Hsum Hfound.
  destruct (Z.le_gt_cases 0 rightCells) as [HM|HM].
  - apply max_vote_found in Hfound; [|exact HM].
    destruct Hfound as [[_ Hall]|(_ & Hrange & _)]; [|exact Hrange].
    exfalso. apply Hsum, row_sum_all_zero.
    apply Forall_lookup_2. intros k v Hk.
    pose proof (Forall_lookup_1 _ _ _ _ Hnn Hk) as Hv0. cbn in Hv0.
    specialize (Hall (Z.of_nat k) v). rewrite vget_of_nat in Hall.
    apply lookup_lt_Some in Hk as Hk'. specialize (Hall ltac:(lia) Hk). lia.
  - exfalso. apply Hsum. destruct value; [reflexivity|cbn in Hlen; lia].
Qed.

Lemma VerifyCellPair_total `{DoubleArith} (RotationType : Z)
    (CurrentRP cells : list Z) (i : Z) (t : GMS_Matcher) :
  matcher_ready t →
  Mat_shape (mMotionStatistics t) (mGridNumberLeft t) (mGridNumberRight t) →
  Forall (Forall (Z.le 0)) (mMotionStatistics t) →
  length (mNumberPointsInPerCellLeft t) = Z.to_nat (mGridNumberLeft t) →
  vget kRotationPatterns (RotationType - 1) = Some CurrentRP →
  length cells = Z.to_nat (mGridNumberLeft t) →
  0 ≤ i < mGridNumberLeft t →
  ∃ cells', VerifyCellPair CurrentRP i (set_mCellPairs cells t)
            = Some (set_mCellPairs cells' t) ∧
            length cells' = Z.to_nat (mGridNumberLeft t).
Proof.
  intros (_ & (HWl & HHl & HN & Hnl) & (HWr & HHr & HM & Hnr))
         Hshape Hnn Hpop HRP Hcells Hi.
  destruct (Mat_shape_row _ _ _ _ Hshape Hi) as (value & Hvalue & Hlen).
  assert (Forall (Z.le 0) value) as Hvnn.
  { apply vget_Some in Hvalue as [_ Hv].
    exact (Forall_lookup_1 _ _ _ _ Hnn Hv). }
  assert (∀ c, ∃ cells', vset cells i c = Some cells' ∧
                         length cells' = Z.to_nat (mGridNumberLeft t))
    as Hset.
  { intros c. unfold vset.
    destruct (Z.leb_spec 0 i), (Z.ltb_spec i (Z.of_nat (length cells)));
      try lia. cbn. eexists. split; [reflexivity|].
    rewrite length_insert. exact Hcells. }
  unfold VerifyCellPair. cbn [mMotionStatistics set_mCellPairs mCellPairs].
  rewrite Hvalue. cbn [mbind option_bind].
  destruct (Z.eqb_spec (row_sum value) 0) as [Hsum|Hsum].
  - destruct (Hset (-1)) as (cells' & Hc & Hlen'). rewrite Hc.
    cbn [mbind option_bind]. exists cells'. split; [reflexivity|exact Hlen'].
  - destruct (vget_is_Some cells i) as [cell_pair Hcp]; [lia|].
    rewrite Hcp. cbn [mbind option_bind mGridNumberRight set_mCellPairs].
    destruct (max_vote_total value (mGridNumberRight t) cell_pair Hlen)
      as [found Hfound].
    rewrite Hfound. cbn [mbind option_bind].
    pose proof (max_vote_cell _ _ _ _ Hlen Hvnn Hsum Hfound) as Hcell.
    destruct (NeighborTable_row_cells (mGridSizeLeft t) i)
      as (NB9_lt & Hlt & Hltlen & Hltcells); [exact HWl|lia|].
    destruct (NeighborTable_row_cells (mGridSizeRight t) found.1)
      as (NB9_rt & Hrt & Hrtlen & Hrtcells); [lia|lia|].
    destruct (rotation_pattern_slots _ _ HRP) as [Hplen Hp].
    destruct (support_total (mMotionStatistics t)
                (mNumberPointsInPerCellLeft t) NB9_lt NB9_rt CurrentRP
                (mGridNumberLeft t) (mGridNumberRight t))
      as [[[score thresh] numpair] Hsupport];
      [assumption|assumption|assumption|rewrite HN; assumption|assumption|
       rewrite HM; assumption|assumption|assumption|].
    unfold NeighborSupport.
    cbn [mGridNeighborLeft mGridNeighborRight mMotionStatistics
         mNumberPointsInPerCellLeft set_mCellPairs mAlpha mCellPairs].
    rewrite Hnl, Hlt. cbn [mbind option_bind].
    rewrite Hnr, Hrt. cbn [mbind option_bind].
    rewrite Hsupport. cbn [mbind option_bind].
    destruct (Hset (if score_below_thresh (mAlpha t) score thresh numpair
                    then -2 else found.1)) as (cells' & Hc & Hlen').
    rewrite Hc. cbn [mbind option_bind].
    exists cells'. split; [reflexivity|exact Hlen'].
Qed.

Lemma VerifyCellPairs_total `{DoubleArith} (RotationType : Z) (t : GMS_Matcher) :
  matcher_ready t →
  Mat_shape (mMotionStatistics t) (mGridNumberLeft t) (mGridNumberRight t) →
  Forall (Forall (Z.le 0)) (mMotionStatistics t) →
  length (mNumberPointsInPerCellLeft t) = Z.to_nat (mGridNumberLeft t) →
  length (mCellPairs t) = Z.to_nat (mGridNumberLeft t) →
  1 ≤ RotationType ≤ 8 →
  ∃ cells, VerifyCellPairs RotationType t = Some (set_mCellPairs cells t) ∧
           length cells = Z.to_nat (mGridNumberLeft t).
Proof.
  intros Hready Hshape Hnn Hpop Hcells Hrot.
  destruct (rotation_pattern_exists _ Hrot) as [CurrentRP HRP].
  unfold VerifyCellPairs. rewrite HRP. cbn [mbind option_bind].
  destruct (for_loop_total
              (λ _ u, ∃ cells, u = set_mCellPairs cells t ∧
                               length cells = Z.to_nat (mGridNumberLeft t))
              (VerifyCellPair CurrentRP) (Z.to_nat (mGridNumberLeft t)) 0 t)
    as (u & Hrun & cells & -> & Hlen).
  - exists (mCellPairs t). split; [destruct t; reflexivity|exact Hcells].
  - intros i u Hi (cells & -> & Hlen).
    destruct (VerifyCellPair_total RotationType CurrentRP cells i t)
      as (cells' & Hstep & Hlen'); try assumption; [lia|].
    eexists. split; [exact Hstep|]. exists cells'. split; [reflexivity|exact Hlen'].
  - exists cells. split; assumption.
Qed.

Lemma matcher_ready_left_cell (g : GMS_Matcher) (GridType : Z) (i : nat) (l : Z) :
  matcher_ready g → left_cell g GridType i = Some l →
  l = -1 ∨ 0 ≤ l < mGridNumberLeft g.
Proof.
  intros ((_ & Hpoints) & (HW & HH & HN & _) & _) Hl.
  unfold left_cell in Hl. bind_inv Hl. injection Hl as <-.
  destruct (Forall_lookup_1 _ _ _ _ Hpoints E)
    as (lp & rp & Hlp & _ & (Hx & _ & Hy & _) & _).
  rewrite E0 in Hlp. injection Hlp as <-. rewrite HN.
  apply GetGridIndexLeft_cell_or_excluded; assumption.
Qed.

Lemma OffsetVote_total `{DoubleArith} (RotationType GridType : Z)
    (g : GMS_Matcher) :
  matcher_ready g → working_ok g → 1 ≤ RotationType ≤ 8 →
  ∃ v, OffsetVote RotationType GridType g = Some v ∧ working_ok v ∧
       length (mCellPairs v) = Z.to_nat (mGridNumberLeft v).
Proof.
  intros Hready (Hshape & Hpairs & Hmask & Hright) Hrot. unfold OffsetVote.
  set (g0 := set_mNumberPointsInPerCellLeft _ _).
  assert (matcher_ready g0) as Hready0
    by (apply (matcher_ready_config g); [reflexivity|reflexivity|exact Hready]).
  destruct (AssignMatchPairs_total GridType g0) as (g1 & Hassign & Hwork1 & Hpop1).
  - exact Hready0.
  - split; [apply Mat_setTo0_shape; exact Hshape|].
    split; [exact Hpairs|]. split; [exact Hmask|exact Hright].
  - apply length_replicate.
  - rewrite Hassign. cbn [mbind option_bind].
    pose proof (AssignMatchPairs_frame _ _ _ Hassign) as (Hin & Hrg & Hcells & _).
    pose proof (AssignMatchPairs_nonneg _ _ _ Hassign (Mat_setTo0_nonneg _))
      as Hnn.
    assert (mGridNumberLeft g1 = mGridNumberLeft g) as HN
      by (injection Hin as _ _ _ _ _ HN _ _; exact HN).
    destruct (VerifyCellPairs_total RotationType g1) as (cells & Hverify & Hlen).
    + apply (matcher_ready_config g0); assumption.
    + apply Hwork1.
    + exact Hnn.
    + exact Hpop1.
    + rewrite Hcells, HN. apply length_replicate.
    + exact Hrot.
    + rewrite Hverify. eexists. split; [reflexivity|].
      split; [exact Hwork1|exact Hlen].
Qed.

Lemma MarkInlier_total (i : nat) (u : GMS_Matcher) :
  length (mvMatchPairs u) = mNumberMatches u →
  length (mvbInlierMask u) = mNumberMatches u →
  length (mCellPairs u) = Z.to_nat (mGridNumberLeft u) →
  (∀ mp, mvMatchPairs u !! i = Some mp →
         mp.1 = -1 ∨ 0 ≤ mp.1 < mGridNumberLeft u) →
  (i < mNumberMatches u)%nat →
  ∃ mask, MarkInlier i u = Some (set_mvbInlierMask mask u) ∧
          length mask = mNumberMatches u.
Proof.
  intros Hpairs Hmask Hcells Hleft Hi. unfold MarkInlier.
  destruct (lookup_lt_is_Some_2 (mvMatchPairs u) i) as [mp Hmp]; [lia|].
  rewrite Hmp. cbn [mbind option_bind].
  assert (Some u = Some (set_mvbInlierMask (mvbInlierMask u) u)) as Hsame
    by (destruct u; reflexivity).
  destruct (Z.eqb_spec mp.1 (-1)) as [Hout|Hin].
  - exists (mvbInlierMask u). split; [exact Hsame|exact Hmask].
  - destruct (vget_is_Some (mCellPairs u) mp.1) as [c Hc];
      [destruct (Hleft mp Hmp); lia|].
    rewrite Hc. cbn [mbind option_bind]. destruct (c =? mp.2).
    + destruct (lookup_lt_is_Some_2 (mvbInlierMask u) i) as [b Hb]; [lia|].
      rewrite Hb. cbn [mbind option_bind]. eexists. split; [reflexivity|].
      rewrite length_insert. exact Hmask.
    + exists (mvbInlierMask u). split; [exact Hsame|exact Hmask].
Qed.

Lemma MarkInliers_total (v : GMS_Matcher) :
  length (mvMatchPairs v) = mNumberMatches v →
  length (mvbInlierMask v) = mNumberMatches v →
  length (mCellPairs v) = Z.to_nat (mGridNumberLeft v) →
  (∀ i mp, mvMatchPairs v !! i = Some mp →
           mp.1 = -1 ∨ 0 ≤ mp.1 < mGridNumberLeft v) →
  ∃ mask, MarkInliers v = Some (set_mvbInlierMask mask v) ∧
          length mask = mNumberMatches v.
Proof.
  intros Hpairs Hmask Hcells Hleft. unfold MarkInliers.
  destruct (for_size_total
              (λ _ u, ∃ mask, u = set_mvbInlierMask mask v ∧
                              length mask = mNumberMatches v)
              MarkInlier (mNumberMatches v) 0 v)
    as (u & Hrun & mask & -> & Hlen).
  - exists (mvbInlierMask v). split; [destruct v; reflexivity|exact Hmask].
  - intros i u Hi (mask & -> & Hlen).
    destruct (MarkInlier_total i (set_mvbInlierMask mask v))
      as (mask' & Hstep & Hlen');
      [exact Hpairs|exact Hlen|exact Hcells|apply Hleft|cbn; lia|].
    eexists. split; [exact Hstep|]. exists mask'. split; [reflexivity|exact Hlen'].
  - exists mask. split; assumption.
Qed.

Lemma OffsetPass_total `{DoubleArith} (RotationType GridType : Z)
    (g : GMS_Matcher) :
  matcher_ready g → working_ok g → 1 ≤ RotationType ≤ 8 →
  ∃ g', OffsetPass RotationType GridType g = Some g' ∧ working_ok g'.
Proof.
  intros Hready Hwork Hrot.
  destruct (OffsetVote_total RotationType GridType g Hready Hwork Hrot)
    as (v & Hvote & (Hshape & Hpairs & Hmask & Hright) & Hcells).
  pose proof (OffsetVote_effect _ _ _ _ Hvote) as (Hin & Hrg & _ & Hrec).
  assert (mNumberMatches v = mNumberMatches g) as Hn
    by (injection Hin as _ _ _ Hn _ _ _ _; exact Hn).
  assert (mGridNumberLeft v = mGridNumberLeft g) as HN
    by (injection Hin as _ _ _ _ _ HN _ _; exact HN).
  destruct (MarkInliers_total v) as (mask & Hmark & Hlen);
    [exact Hpairs|exact Hmask|exact Hcells| |].
  - intros i mp Hmp. apply lookup_lt_Some in Hmp as Hi.
    destruct (Hrec i) as (l & r & old & Hl & _ & _ & Hnew); [lia|].
    rewrite Hnew in Hmp. injection Hmp as <-. cbn. rewrite HN.
    eapply matcher_ready_left_cell; eassumption.
  - unfold OffsetPass. rewrite Hvote. cbn [mbind option_bind]. rewrite Hmark.
    eexists. split; [reflexivity|].
    split; [exact Hshape|]. split; [exact Hpairs|].
    split; [exact Hlen|exact Hright].
Qed.

(** With the grids in place and the matched points inside of their images,
    [Run] makes no access out of range. *)
Lemma Run_total `{DoubleArith} (RotationType : Z) (g : GMS_Matcher) :
  matcher_ready g → 1 ≤ RotationType ≤ 8 →
  ∃ r, Run RotationType g = Some r.
Proof.
  intros Hready Hrot. unfold Run.
  destruct (for_loop_total
              (λ _ t, inputs t = inputs g ∧ right_grid t = right_grid g ∧
                      working_ok t)
              (OffsetPass RotationType) 4 1 (RunInit g))
    as (g' & Hrun & _).
  - split; [reflexivity|]. split; [reflexivity|].
    destruct Hready as (_ & _ & (HW & HH & HM & _)).
    split; [apply Mat_zeros_shape|]. cbn.
    split; [apply length_replicate|]. split; [apply length_replicate|].
    apply Forall_replicate. cbn. rewrite HM. nia.
  - intros GridType t _ (Hin & Hrg & Hwork).
    destruct (OffsetPass_total RotationType GridType t) as (t' & Hpass & Hwork');
      [eapply matcher_ready_config; eassumption|assumption|assumption|].
    exists t'. split; [exact Hpass|].
    apply OffsetPass_effect in Hpass as (_ & _ & _ & Hin' & Hrg' & _).
    split; [congruence|]. split; [congruence|exact Hwork'].
  - rewrite Hrun. eauto.
Qed.

(** ** The support of a cell pairing *)

Lemma row_sum_entry (row : list Z) (k : nat) (v : Z) :
  Forall (Z.le 0) row → row !! k = Some v → 0 ≤ v ≤ row_sum row.
Proof.
  intros Hrow. revert k. induction Hrow as [|x row Hx Hrow IH]; intros k Hk.
  - rewrite lookup_nil in Hk. discriminate.
  - pose proof (row_sum_nonneg row Hrow) as Hsum.
    unfold row_sum in *. cbn [foldr]. destruct k as [|k]; cbn in Hk.
    + injection Hk as <-. lia.
    + specialize (IH k Hk). lia.
Qed.

(** X5. With votes that are counts and a population that is the sum of
    the votes of each left cell, the support score of a cell pairing is
    never above its [thresh], the number of matches in the left cells of the
    neighbourhood, and never negative. *)
Theorem NeighborSupport_score_bounded (g : GMS_Matcher) (CurrentRP : list Z)
    (i idx_grid_rt score thresh numpair : Z) :
  Forall (Forall (Z.le 0)) (mMotionStatistics g) →
  mNumberPointsInPerCellLeft g = map row_sum (mMotionStatistics g) →
  NeighborSupport CurrentRP i idx_grid_rt g = Some (score, thresh, numpair) →
  0 ≤ score ≤ thresh.
Proof.
  intros Hvotes Hpop. unfold NeighborSupport, support. intros Hrun.
  bind_inv Hrun. rename x into NB9_lt, x0 into NB9_rt.
  apply (for_loop_inv (λ _ (acc : Z * Z * Z), 0 ≤ acc.1.1 ≤ acc.1.2))
    in Hrun; [exact Hrun|cbn; lia|].
  intros j [[s t] n] acc' _ Hacc Hstep. cbn [fst snd] in Hacc.
  unfold support_step in Hstep. bind_inv Hstep.
  rename x into ll, x0 into slot, x1 into rr.
  destruct ((ll =? -1) || (rr =? -1)); [injection Hstep as <-; exact Hacc|].
  apply bind_Some in Hstep as (v & Hat & Hstep).
  apply bind_Some in Hstep as (pop & Hpopl & Hstep).
  injection Hstep as <-. cbn [fst snd].
  unfold Mat_at in Hat. apply bind_Some in Hat as (row & Hrow & Hv).
  apply vget_Some in Hv as [_ Hv]. apply vget_Some in Hrow as [_ Hrow].
  apply vget_Some in Hpopl as [_ Hpopl].
  rewrite Hpop, map_lookup, Hrow in Hpopl. injection Hpopl as <-.
  pose proof (Forall_lookup_1 _ _ _ _ Hvotes Hrow) as Hnonneg.
  pose proof (row_sum_entry row _ v Hnonneg Hv). lia.
Qed.

Lemma NeighborSupport_score_bounded_witness :
  ∃ CurrentRP score thresh numpair,
    vget kRotationPatterns 0 = Some CurrentRP ∧
    NeighborSupport CurrentRP 0 0 demo_assigned = Some (score, thresh, numpair) ∧
    0 ≤ score ≤ thresh.
Proof.
  destruct (vget kRotationPatterns 0) as [CurrentRP|] eqn:Hrp;
    [|vm_compute in Hrp; discriminate].
  destruct (NeighborSupport CurrentRP 0 0 demo_assigned)
    as [[[score thresh] numpair]|] eqn:Hrun.
  - exists CurrentRP, score, thresh, numpair.
    split; [reflexivity|]. split; [exact Hrun|].
    apply (NeighborSupport_score_bounded demo_assigned CurrentRP 0 0
             score thresh numpair); [| |exact Hrun].
    + apply (bool_decide_unpack _). vm_compute. exact I.
    + vm_compute. reflexivity.
  - injection Hrp as <-. vm_compute in Hrun. discriminate.
Defined.

(** One iteration of [VerifyCellPairs] leaves the index of a right cell
    only after the threshold test on the support of that pairing. *)
Lemma VerifyCellPair_threshold `{DoubleArith} (CurrentRP : list Z) (i c : Z)
    (g g' : GMS_Matcher) :
  VerifyCellPair CurrentRP i g = Some g' →
  vget (mCellPairs g') i = Some c → 0 ≤ c →
  ∃ score thresh numpair,
    NeighborSupport CurrentRP i c g = Some (score, thresh, numpair) ∧
    score_below_thresh (mAlpha g) score thresh numpair = false.
Proof.
  unfold VerifyCellPair. intros Hrun Hc Hpos. bind_inv Hrun.
  rename x into value. destruct (row_sum value =? 0).
  - bind_inv Hrun. injection Hrun as <-. apply vset_Some in E0 as [Hi ->].
    cbn in Hc. rewrite vget_insert_eq in Hc by exact Hi.
    injection Hc as <-. lia.
  - bind_inv Hrun. rename x into cell_pair, x0 into found.
    destruct x1 as [[score thresh] numpair]. bind_inv Hrun.
    injection Hrun as <-. apply vset_Some in E3 as [Hi ->].
    cbn in Hc. rewrite vget_insert_eq in Hc by exact Hi.
    destruct (score_below_thresh _ _ _ _) eqn:Htest;
      injection Hc as <-; [lia|].
    exists score, thresh, numpair. split; [exact E2|exact Htest].
Qed.

(** X6. Every pairing with a right cell that [VerifyCellPairs] leaves has
    passed the threshold test: the support of the left cell and that right
    cell, on the votes of the offset, is not below the threshold; a later
    iteration does not touch it. *)
Theorem VerifyCellPairs_threshold `{DoubleArith} (RotationType : Z)
    (CurrentRP : list Z) (g g' : GMS_Matcher) (i c : Z) :
  vget kRotationPatterns (RotationType - 1) = Some CurrentRP →
  VerifyCellPairs RotationType g = Some g' →
  0 ≤ i < mGridNumberLeft g →
  vget (mCellPairs g') i = Some c → 0 ≤ c →
  ∃ score thresh numpair,
    NeighborSupport CurrentRP i c g = Some (score, thresh, numpair) ∧
    score_below_thresh (mAlpha g) score thresh numpair = false.
Proof.
  unfold VerifyCellPairs. intros Hrp Hrun Hi Hc Hpos. rewrite Hrp in Hrun.
  rewrite bind_Some_l in Hrun.
  apply (for_loop_inv (λ k t,
           t = set_mCellPairs (mCellPairs t) g ∧
           ∀ i c, 0 ≤ i < k → vget (mCellPairs t) i = Some c → 0 ≤ c →
             ∃ score thresh numpair,
               NeighborSupport CurrentRP i c g = Some (score, thresh, numpair) ∧
               score_below_thresh (mAlpha g) score thresh numpair = false))
    in Hrun.
  - destruct Hrun as [_ Hdone]. apply (Hdone i c); [lia|exact Hc|exact Hpos].
  - split; [destruct g; reflexivity|]. intros j d Hj. lia.
  - clear i c Hi Hc Hpos. intros k t t' Hk [Ht Hdone] Hstep.
    pose proof (VerifyCellPair_frame _ _ _ _ Hstep) as (c0 & Hset & Ht').
    apply vset_Some in Hset as [Hkl Hcells].
    split; [rewrite Ht', Ht; reflexivity|].
    intros i c Hi Hc Hpos. destruct (decide (i = k)) as [->|Hne].
    + destruct (VerifyCellPair_threshold _ _ _ _ _ Hstep Hc Hpos)
        as (score & thresh & numpair & Hsup & Htest).
      exists score, thresh, numpair. rewrite Ht in Hsup, Htest.
      split; [exact Hsup|exact Htest].
    + apply (Hdone i c); [lia| |exact Hpos].
      rewrite Hcells, vget_insert_ne in Hc by lia. exact Hc.
Qed.

Lemma VerifyCellPairs_threshold_witness :
  ∃ CurrentRP g' score thresh numpair,
    vget kRotationPatterns (1 - 1) = Some CurrentRP ∧
    @VerifyCellPairs ExactArith 1 demo_assigned = Some g' ∧
    vget (mCellPairs g') 0 = Some 0 ∧
    NeighborSupport CurrentRP 0 0 demo_assigned = Some (score, thresh, numpair) ∧
    @score_below_thresh ExactArith (mAlpha demo_assigned) score thresh numpair
    = false.
Proof.
  destruct (vget kRotationPatterns (1 - 1)) as [CurrentRP|] eqn:Hrp;
    [|vm_compute in Hrp; discriminate].
  destruct (@VerifyCellPairs ExactArith 1 demo_assigned) as [g'|] eqn:Hrun;
    [|vm_compute in Hrun; discriminate].
  assert ((t ← @VerifyCellPairs ExactArith 1 demo_assigned;
           vget (mCellPairs t) 0) = Some 0) as Hc
    by (vm_compute; reflexivity).
  rewrite Hrun, bind_Some_l in Hc.
  destruct (@VerifyCellPairs_threshold ExactArith 1 CurrentRP demo_assigned
              g' 0 0 Hrp Hrun) as (score & thresh & numpair & Hsup & Htest).
  - vm_compute. split; [discriminate|reflexivity].
  - exact Hc.
  - lia.
  - exists CurrentRP, g', score, thresh, numpair.
    split; [reflexivity|]. split; [reflexivity|]. split; [exact Hc|].
    split; [exact Hsup|exact Htest].
Defined.

(** ** The mask and the count of a run *)

Lemma count_inliers_from (mask : list bool) (a : Z) :
  a ≤ foldl (λ num_inlier (i : bool), if i then num_inlier + 1 else num_inlier)
            a mask
    ≤ a + Z.of_nat (length mask).
Proof.
  revert a. induction mask as [|b mask IH]; intros a; cbn [foldl length].
  - lia.
  - destruct b; [specialize (IH (a + 1))|specialize (IH a)]; lia.
Qed.

Lemma count_inliers_bounds (mask : list bool) :
  0 ≤ count_inliers mask ≤ Z.of_nat (length mask).
Proof. unfold count_inliers. pose proof (count_inliers_from mask 0). lia. Qed.

Lemma MarkInliers_length (v g' : GMS_Matcher) :
  MarkInliers v = Some g' →
  length (mvbInlierMask g') = length (mvbInlierMask v).
Proof.
  unfold MarkInliers. intros Hrun.
  apply (for_size_inv (λ _ t, length (mvbInlierMask t)
                              = length (mvbInlierMask v))) in Hrun;
    [assumption|reflexivity|].
  intros i t t' _ Ht Hstep. unfold MarkInlier in Hstep. bind_inv Hstep.
  destruct (x.1 =? -1); [injection Hstep as <-; exact Ht|].
  bind_inv Hstep. destruct (x0 =? x.2); [|injection Hstep as <-; exact Ht].
  bind_inv Hstep. injection Hstep as <-. cbn. rewrite length_insert. exact Ht.
Qed.

(** The mask that [Run] leaves has one entry per match, and the count it
    returns is the number of its [true] entries. *)
Lemma Run_mask `{DoubleArith} (RotationType : Z) (g g' : GMS_Matcher) (n : Z) :
  Run RotationType g = Some (n, g') →
  length (mvbInlierMask g') = mNumberMatches g ∧
  n = count_inliers (mvbInlierMask g') ∧
  0 ≤ n ≤ Z.of_nat (mNumberMatches g).
Proof.
  unfold Run. intros Hrun. bind_inv Hrun. injection Hrun as <- ->.
  apply (for_loop_inv (λ _ t, length (mvbInlierMask t) = mNumberMatches g))
    in E.
  - split; [exact E|]. split; [reflexivity|].
    rewrite <- E. apply count_inliers_bounds.
  - cbn. apply length_replicate.
  - intros k t t' _ Ht Hstep. unfold OffsetPass in Hstep. bind_inv Hstep.
    apply MarkInliers_length in Hstep.
    apply OffsetVote_effect in E0 as (_ & _ & Hmask & _). congruence.
Qed.

(** ** The right grids of the scale search *)

Lemma scaled_dim_positive (Scale n : Z) :
  0 ≤ Scale ≤ 4 → 2 ≤ n → ∃ m, scaled_dim Scale n = Some m ∧ 0 < m.
Proof.
  intros HScale Hn.
  assert (Scale = 0 ∨ Scale = 1 ∨ Scale = 2 ∨ Scale = 3 ∨ Scale = 4)
    as Hcases by lia.
  destruct Hcases as [ -> | [ -> | [ -> | [ -> | -> ] ] ] ]; cbn;
    eexists; (split; [reflexivity|]).
  - lia.
  - assert (1 ≤ Z.quot n 2); [|lia].
    rewrite Z.quot_div_nonneg by lia. apply Z.div_le_lower_bound; lia.
  - assert (1 ≤ Z.sqrt (n * n / 2)); [|lia].
    change 1 with (Z.sqrt 1). apply Z.sqrt_le_mono.
    apply Z.div_le_lower_bound; nia.
  - assert (1 ≤ Z.sqrt (2 * n * n)); [|lia].
    change 1 with (Z.sqrt 1). apply Z.sqrt_le_mono. nia.
  - lia.
Qed.

Lemma SetScale_ready (Scale : Z) (g : GMS_Matcher) :
  matches_ok g → left_grid_ok g →
  0 ≤ Scale ≤ 4 →
  (Scale = 0 ∧ 1 ≤ width (mGridSizeLeft g) ∧ 1 ≤ height (mGridSizeLeft g)) ∨
  (2 ≤ width (mGridSizeLeft g) ∧ 2 ≤ height (mGridSizeLeft g)) →
  ∃ g', SetScale Scale g = Some g' ∧ matcher_ready g' ∧ inputs g' = inputs g.
Proof.
  intros Hmatches Hleft HScale Hdims. unfold SetScale.
  assert (∃ w h, scaled_dim Scale (width (mGridSizeLeft g)) = Some w ∧
                 scaled_dim Scale (height (mGridSizeLeft g)) = Some h ∧
                 0 < w ∧ 0 < h) as (w & h & Hw & Hh & Hwpos & Hhpos).
  { destruct Hdims as [(-> & HW & HH)|[HW HH]].
    - eexists _, _. cbn. repeat split; lia.
    - destruct (scaled_dim_positive Scale _ HScale HW) as (w & Hw & Hwpos).
      destruct (scaled_dim_positive Scale _ HScale HH) as (h & Hh & Hhpos).
      exists w, h. repeat split; assumption. }
  rewrite Hw, Hh. cbn [mbind option_bind]. eexists. split; [reflexivity|].
  split; [|reflexivity].
  split; [exact Hmatches|]. split; [exact Hleft|].
  unfold right_grid_ok. cbn. repeat split; first [assumption|reflexivity].
Qed.

(** ** No access out of range in the filter *)

Lemma inputs_ok_config (g t : GMS_Matcher) :
  inputs t = inputs g →
  matches_ok g → left_grid_ok g → matches_ok t ∧ left_grid_ok t.
Proof.
  intros Hin. injection Hin as HP1 HP2 HM Hn HL HN Hnl _.
  unfold matches_ok, left_grid_ok.
  rewrite HP1, HP2, HM, Hn, HL, HN, Hnl. tauto.
Qed.

Lemma TryRotation_total `{DoubleArith} (RotationType : Z) (s : Search) :
  matcher_ready s.2 → 1 ≤ RotationType ≤ 8 →
  ∃ s', TryRotation RotationType s = Some s' ∧
        inputs s'.2 = inputs s.2 ∧ right_grid s'.2 = right_grid s.2.
Proof.
  destruct s as [[max_inlier vbInliers] g]. cbn [snd]. intros Hready Hrot.
  destruct (Run_total RotationType g Hready Hrot) as [[n g'] Hrun].
  pose proof (Run_frame _ _ _ _ Hrun) as [Hin Hrg].
  unfold TryRotation. rewrite Hrun. cbn [mbind option_bind].
  destruct (n >? max_inlier); eexists; (split; [reflexivity|]);
    split; assumption.
Qed.

Lemma TryRotations_total `{DoubleArith} (n : nat) (start : Z) (s : Search) :
  matcher_ready s.2 → 1 ≤ start → start + Z.of_nat n ≤ 9 →
  ∃ s', for_loop n start TryRotation s = Some s' ∧ inputs s'.2 = inputs s.2.
Proof.
  intros Hready Hstart Hend.
  destruct (for_loop_total
              (λ _ u, inputs u.2 = inputs s.2 ∧ right_grid u.2 = right_grid s.2)
              TryRotation n start s) as (s' & Hrun & Hin & _).
  - split; reflexivity.
  - intros r u Hr [Hin Hrg].
    destruct (TryRotation_total r u) as (u' & Hstep & Hin' & Hrg');
      [eapply matcher_ready_config; eassumption|lia|].
    exists u'. split; [exact Hstep|]. split; congruence.
  - exists s'. split; assumption.
Qed.

(** On a matcher whose matched points lie inside of their images and whose
    left grid fits the searches, [GetInlierMask] makes no access out of
    range and leaves the inputs as they are. *)
Lemma GetInlierMask_total `{DoubleArith} (vbInliers : list bool)
    (WithScale WithRotation : bool) (g : GMS_Matcher) :
  matches_ok g → left_grid_ok g → grid_fits WithScale (mGridSizeLeft g) →
  ∃ res, GetInlierMask vbInliers WithScale WithRotation g = Some res ∧
         inputs res.2 = inputs g.
Proof.
  intros Hmatches Hleft Hfits.
  assert (∀ Scale t,
            inputs t = inputs g → 0 ≤ Scale ≤ 4 →
            (if WithScale then True else Scale = 0) →
            ∃ ts, SetScale Scale t = Some ts ∧ matcher_ready ts ∧
                  inputs ts = inputs g) as Hscale.
  { intros Scale t Ht HScale Hzero.
    destruct (inputs_ok_config g t Ht Hmatches Hleft) as [Hm Hl].
    assert (mGridSizeLeft t = mGridSizeLeft g) as HL
      by (injection Ht as _ _ _ _ HL _ _ _; exact HL).
    destruct (SetScale_ready Scale t Hm Hl HScale) as (ts & Hts & Hready & Hin).
    - rewrite HL. unfold grid_fits in Hfits.
      destruct WithScale; [right; exact Hfits|left; split; [exact Hzero|exact Hfits]].
    - exists ts. split; [exact Hts|]. split; [exact Hready|congruence]. }
  unfold GetInlierMask.
  destruct WithScale, WithRotation; cbn [negb andb].
  - destruct (for_loop_total (λ _ (s : Search), inputs s.2 = inputs g)
                (λ Scale '(max_inlier, vbInliers, g0),
                   g1 ← SetScale Scale g0;
                   for_loop 8 1 TryRotation (max_inlier, vbInliers, g1))
                5 0 (0, vbInliers, g)) as (res & Hrun & Hin);
      [reflexivity| |eauto].
    intros Scale [[m v] t] HScale Ht. cbn [snd] in Ht.
    destruct (Hscale Scale t Ht) as (ts & Hts & Hready & Hin); [lia|exact I|].
    destruct (TryRotations_total 8 1 (m, v, ts)) as (s' & Hrot & Hin');
      [exact Hready|lia|lia|].
    rewrite Hts. cbn [mbind option_bind]. exists s'. split; [exact Hrot|].
    cbn [snd] in Hin'. congruence.
  - destruct (for_loop_total (λ _ (s : Search), inputs s.2 = inputs g)
                (λ Scale '(max_inlier, vbInliers, g0),
                   g1 ← SetScale Scale g0;
                   TryRotation 1 (max_inlier, vbInliers, g1))
                5 0 (0, vbInliers, g)) as (res & Hrun & Hin);
      [reflexivity| |eauto].
    intros Scale [[m v] t] HScale Ht. cbn [snd] in Ht.
    destruct (Hscale Scale t Ht) as (ts & Hts & Hready & Hin); [lia|exact I|].
    destruct (TryRotation_total 1 (m, v, ts)) as (s' & Hrot & Hin' & _);
      [exact Hready|lia|].
    rewrite Hts. cbn [mbind option_bind]. exists s'. split; [exact Hrot|].
    cbn [snd] in Hin'. congruence.
  - destruct (Hscale 0 g) as (ts & Hts & Hready & Hin);
      [reflexivity|lia|reflexivity|].
    destruct (TryRotations_total 8 1 (0, vbInliers, ts)) as (s' & Hrot & Hin');
      [exact Hready|lia|lia|].
    rewrite Hts. cbn [mbind option_bind]. exists s'. split; [exact Hrot|].
    cbn [snd] in Hin'. congruence.
  - destruct (Hscale 0 g) as (ts & Hts & Hready & Hin);
      [reflexivity|lia|reflexivity|].
    destruct (Run_total 1 ts Hready) as [[n g'] Hrun]; [lia|].
    pose proof (Run_frame _ _ _ _ Hrun) as [Hin' _].
    rewrite Hts. cbn [mbind option_bind]. rewrite Hrun.
    cbn [mbind option_bind]. eexists. split; [reflexivity|].
    cbn [snd]. congruence.
Qed.

Lemma NormalizePoints_unit_square (kp : list KeyPoint) (size : Size) (i : Z) :
  0 < width size → 0 < height size →
  Forall (inside_image size) kp →
  0 ≤ i < Z.of_nat (length kp) →
  ∃ p, vget (NormalizePoints kp size) i = Some p ∧ in_unit_square p.
Proof.
  intros HW HH Hkp Hi.
  destruct (vget_is_Some kp i Hi) as [k Hk].
  apply vget_Some in Hk as [Hi0 Hk].
  pose proof (Forall_lookup_1 _ _ _ _ Hkp Hk) as (Hx0 & Hx1 & Hy0 & Hy1).
  eexists. split.
  - apply vget_Some. split; [exact Hi0|].
    unfold NormalizePoints. rewrite map_lookup, Hk. reflexivity.
  - assert (0 < inject_Z (width size))%Q as HWq
      by (change 0%Q with (inject_Z 0); rewrite <- Zlt_Qlt; exact HW).
    assert (0 < inject_Z (height size))%Q as HHq
      by (change 0%Q with (inject_Z 0); rewrite <- Zlt_Qlt; exact HH).
    unfold in_unit_square. cbn. repeat split.
    + apply Qle_shift_div_l; [exact HWq|]. rewrite Qmult_0_l. exact Hx0.
    + apply Qlt_shift_div_r; [exact HWq|]. rewrite Qmult_1_l. exact Hx1.
    + apply Qle_shift_div_l; [exact HHq|]. rewrite Qmult_0_l. exact Hy0.
    + apply Qlt_shift_div_r; [exact HHq|]. rewrite Qmult_1_l. exact Hy1.
Qed.

Lemma GMS_Matcher_new_ok (vkp1 : list KeyPoint) (size1 : Size)
    (vkp2 : list KeyPoint) (size2 : Size) (vDMatches : list DMatch)
    (grid_size : Size) (alpha : Q) :
  0 < width size1 → 0 < height size1 →
  0 < width size2 → 0 < height size2 →
  Forall (inside_image size1) vkp1 → Forall (inside_image size2) vkp2 →
  Forall (match_in_range vkp1 vkp2) vDMatches →
  0 ≤ width grid_size → 0 ≤ height grid_size →
  matches_ok (GMS_Matcher_new vkp1 size1 vkp2 size2 vDMatches grid_size alpha) ∧
  left_grid_ok (GMS_Matcher_new vkp1 size1 vkp2 size2 vDMatches grid_size alpha).
Proof.
  intros HW1 HH1 HW2 HH2 Hkp1 Hkp2 Hm HW HH. split.
  - split; [apply length_map|]. cbn. unfold ConvertMatches.
    apply Forall_fmap. eapply Forall_impl; [exact Hm|].
    intros m [Hq Ht]. cbn.
    destruct (NormalizePoints_unit_square vkp1 size1 (queryIdx m))
      as (lp & Hlp & Hlsq); try assumption.
    destruct (NormalizePoints_unit_square vkp2 size2 (trainIdx m))
      as (rp & Hrp & Hrsq); try assumption.
    exists lp, rp. split; [exact Hlp|]. split; [exact Hrp|].
    split; [exact Hlsq|exact Hrsq].
  - unfold left_grid_ok. cbn. split; [exact HW|]. split; [exact HH|].
    split; reflexivity.
Qed.



(** ** What the search returns *)

Lemma SetScale_frame (Scale : Z) (g gs : GMS_Matcher) :
  SetScale Scale g = Some gs → inputs gs = inputs g.
Proof.
  intros Hset.
  destruct (SetScale_inputs Scale g g gs eq_refl Hset) as [Hin _]. exact Hin.
Qed.

Lemma hypothesis_mask_count `{DoubleArith} (Scale RotationType : Z)
    (g : GMS_Matcher) (c : Z) (mask : list bool) :
  hypothesis_count Scale RotationType g = Some c →
  hypothesis_mask Scale RotationType g = Some mask →
  c = count_inliers mask ∧ length mask = mNumberMatches g ∧
  0 ≤ c ≤ Z.of_nat (mNumberMatches g).
Proof.
  unfold hypothesis_count, hypothesis_mask. intros Hc Hm.
  bind_inv Hc. rename x into gs. rewrite E in Hm. rewrite bind_Some_l in Hm.
  destruct x0 as [n g1]. rewrite E0 in Hm.
  rewrite bind_Some_l in Hm. injection Hc as <-. injection Hm as <-.
  apply Run_mask in E0 as (Hlen & Hcount & Hn).
  apply SetScale_frame in E. injection E as _ _ _ HN _ _ _ _.
  cbn [fst snd]. rewrite <- HN. split; [exact Hcount|]. split; [exact Hlen|exact Hn].
Qed.

(** One evaluated rotation, against the hypothesis it stands for. *)
Lemma TryRotation_step `{DoubleArith} (Scale RotationType max_inlier : Z)
    (vbInliers : list bool) (t g gs : GMS_Matcher) (s' : Search) :
  inputs t = inputs g → SetScale Scale g = Some gs →
  right_grid t = right_grid gs →
  TryRotation RotationType (max_inlier, vbInliers, t) = Some s' →
  ∃ c mask,
    hypothesis_count Scale RotationType g = Some c ∧
    hypothesis_mask Scale RotationType g = Some mask ∧
    inputs s'.2 = inputs g ∧ right_grid s'.2 = right_grid gs ∧
    s'.1 = if c >? max_inlier then (c, mask) else (max_inlier, vbInliers).
Proof.
  intros Hin Hset Hrg Hstep.
  pose proof (SetScale_frame _ _ _ Hset) as Hgs.
  unfold TryRotation in Hstep.
  rewrite (Run_config RotationType t gs) in Hstep by congruence.
  bind_inv Hstep. destruct x as [c g1].
  exists c, (mvbInlierMask g1).
  unfold hypothesis_count, hypothesis_mask. rewrite Hset, !bind_Some_l, E.
  rewrite !bind_Some_l. cbn [fst snd].
  apply Run_frame in E as [Hin1 Hrg1].
  split; [reflexivity|]. split; [reflexivity|].
  destruct (c >? max_inlier); injection Hstep as <-; cbn [fst snd];
    (split; [congruence|]); (split; [congruence|reflexivity]).
Qed.

Lemma best_of_iff `{DoubleArith} (g : GMS_Matcher) (vbInliers : list bool)
    (tried tried' : Z → Z → Prop) (max_inlier : Z) (mask : list bool) :
  (∀ a b, tried a b ↔ tried' a b) →
  best_of g vbInliers tried max_inlier mask →
  best_of g vbInliers tried' max_inlier mask.
Proof.
  intros Hiff [Hall Hbest]. split.
  - intros a b Hab. apply Hall, Hiff, Hab.
  - destruct Hbest as [Hzero|(Hpos & a & b & Hab & Hc & Hm)];
      [left; exact Hzero|right].
    split; [exact Hpos|]. exists a, b. split; [apply Hiff, Hab|].
    split; assumption.
Qed.

Lemma best_of_start `{DoubleArith} (g : GMS_Matcher) (vbInliers : list bool)
    (tried : Z → Z → Prop) :
  (∀ a b, ¬ tried a b) → best_of g vbInliers tried 0 vbInliers.
Proof.
  intros Hnone. split.
  - intros a b Hab. destruct (Hnone a b Hab).
  - left. split; reflexivity.
Qed.

Lemma best_of_step `{DoubleArith} (g : GMS_Matcher) (vbInliers : list bool)
    (tried : Z → Z → Prop) (max_inlier : Z) (mask : list bool)
    (Scale RotationType c : Z) (mask' : list bool) (r : Z * list bool) :
  best_of g vbInliers tried max_inlier mask →
  hypothesis_count Scale RotationType g = Some c →
  hypothesis_mask Scale RotationType g = Some mask' →
  r = (if c >? max_inlier then (c, mask') else (max_inlier, mask)) →
  best_of g vbInliers
          (λ a b, tried a b ∨ (a = Scale ∧ b = RotationType)) r.1 r.2.
Proof.
  intros [Hall Hbest] Hc Hm ->.
  assert (0 ≤ max_inlier) as Hmax by (destruct Hbest as [[-> _]|[? _]]; lia).
  destruct (Z.gtb_spec c max_inlier) as [Hgt|Hle]; cbn [fst snd]; split.
  - intros a b [Hab|[-> ->]].
    + destruct (Hall a b Hab) as (c' & Hc' & Hle). exists c'.
      split; [exact Hc'|lia].
    + exists c. split; [exact Hc|lia].
  - right. split; [lia|]. exists Scale, RotationType.
    split; [right; split; reflexivity|]. split; assumption.
  - intros a b [Hab|[-> ->]].
    + apply Hall, Hab.
    + exists c. split; [exact Hc|lia].
  - destruct Hbest as [Hzero|(Hpos & a & b & Hab & Hc' & Hm')];
      [left; exact Hzero|right].
    split; [exact Hpos|]. exists a, b. split; [left; exact Hab|].
    split; assumption.
Qed.

Lemma TryRotations_best `{DoubleArith} (n : nat) (start Scale max_inlier : Z)
    (vbInliers mask : list bool) (tried : Z → Z → Prop)
    (t g gs : GMS_Matcher) (s' : Search) :
  inputs t = inputs g → SetScale Scale g = Some gs →
  right_grid t = right_grid gs →
  best_of g vbInliers tried max_inlier mask →
  for_loop n start TryRotation (max_inlier, mask, t) = Some s' →
  best_of g vbInliers
          (λ a b, tried a b ∨ (a = Scale ∧ start ≤ b < start + Z.of_nat n))
          s'.1.1 s'.1.2 ∧
  inputs s'.2 = inputs g ∧ right_grid s'.2 = right_grid gs.
Proof.
  intros Hin Hset Hrg Hbest Hrun.
  apply (for_loop_inv
           (λ i s, best_of g vbInliers
                     (λ a b, tried a b ∨ (a = Scale ∧ start ≤ b < i))
                     s.1.1 s.1.2 ∧
                   inputs s.2 = inputs g ∧ right_grid s.2 = right_grid gs))
    in Hrun; [exact Hrun| |].
  - split; [|split; assumption]. cbn [fst snd].
    eapply best_of_iff; [|exact Hbest]. intros a b. split; [tauto|].
    intros [Hab|[_ Hb]]; [exact Hab|lia].
  - intros i [[m v] u] u' Hi (Hb & Hu & Hu') Hstep. cbn [fst snd] in *.
    destruct (TryRotation_step Scale i m v u g gs u' Hu Hset Hu' Hstep)
      as (c & mask' & Hc & Hm & Hin' & Hrg' & Hres).
    split; [|split; assumption].
    pose proof (best_of_step g vbInliers _ m v Scale i c mask' u'.1
                  Hb Hc Hm Hres) as Hb'.
    eapply best_of_iff; [|exact Hb']. intros a b. cbn beta. split.
    + intros [[Hab|[Ha Hb0]]|[Ha Hb0]]; [left; exact Hab|right; lia|right; lia].
    + intros [Hab|[Ha Hb0]]; [left; left; exact Hab|].
      destruct (Z.eq_dec b i); [right; split; assumption|left; right; lia].
Qed.

Lemma searched_spec (WithScale WithRotation : bool) (Scale RotationType : Z) :
  (Scale, RotationType) ∈ searched WithScale WithRotation ↔
  (if WithScale then 0 ≤ Scale < 5 else Scale = 0) ∧
  (if WithRotation then 1 ≤ RotationType < 9 else RotationType = 1).
Proof.
  split; [|intros [Hs Hr]; apply searched_elem; assumption].
  unfold searched. intros Hel.
  apply list_elem_of_bind in Hel as (s & Hel & Hs).
  apply list_elem_of_bind in Hel as (r & Hel & Hr).
  apply list_elem_of_singleton in Hel. injection Hel as -> ->.
  split.
  - destruct WithScale; rewrite ?elem_of_cons, ?elem_of_nil in Hs; lia.
  - destruct WithRotation; rewrite ?elem_of_cons, ?elem_of_nil in Hr; lia.
Qed.

Lemma search_scales_rotations `{DoubleArith} (vbInliers : list bool)
    (g : GMS_Matcher) (s' : Search) :
  for_loop 5 0 (λ Scale '(max_inlier, vbInliers, g),
      g ← SetScale Scale g;
      for_loop 8 1 TryRotation (max_inlier, vbInliers, g))
    (0, vbInliers, g) = Some s' →
  best_of g vbInliers (λ a b, 0 ≤ a < 5 ∧ 1 ≤ b < 9) s'.1.1 s'.1.2 ∧
  inputs s'.2 = inputs g.
Proof.
  intros Hrun.
  apply (for_loop_inv
           (λ k s, best_of g vbInliers (λ a b, 0 ≤ a < k ∧ 1 ≤ b < 9)
                           s.1.1 s.1.2 ∧ inputs s.2 = inputs g))
    in Hrun.
  - exact Hrun.
  - split; [|reflexivity]. apply best_of_start. intros a b. lia.
  - clear Hrun. intros k [[m v] u] u' Hk (Hb & Hu) Hstep.
    cbn [fst snd] in Hb, Hu. bind_inv Hstep. rename x into us.
    destruct (SetScale_inputs k u g us Hu E) as (Hus & gs & Hgs & _ & Hrg).
    destruct (TryRotations_best 8 1 k m vbInliers v
                (λ a b, 0 ≤ a < k ∧ 1 ≤ b < 9) us g gs u')
      as (Hb' & Hin' & _);
      [congruence|exact Hgs|congruence|exact Hb|exact Hstep|].
    split; [|exact Hin'].
    eapply best_of_iff; [|exact Hb']. intros a b. cbn beta. lia.
Qed.

Lemma search_scales `{DoubleArith} (vbInliers : list bool)
    (g : GMS_Matcher) (s' : Search) :
  for_loop 5 0 (λ Scale '(max_inlier, vbInliers, g),
      g ← SetScale Scale g;
      TryRotation 1 (max_inlier, vbInliers, g))
    (0, vbInliers, g) = Some s' →
  best_of g vbInliers (λ a b, 0 ≤ a < 5 ∧ b = 1) s'.1.1 s'.1.2 ∧
  inputs s'.2 = inputs g.
Proof.
  intros Hrun.
  apply (for_loop_inv
           (λ k s, best_of g vbInliers (λ a b, 0 ≤ a < k ∧ b = 1)
                           s.1.1 s.1.2 ∧ inputs s.2 = inputs g))
    in Hrun.
  - exact Hrun.
  - split; [|reflexivity]. apply best_of_start. intros a b. lia.
  - clear Hrun. intros k [[m v] u] u' Hk (Hb & Hu) Hstep.
    cbn [fst snd] in Hb, Hu. bind_inv Hstep. rename x into us.
    destruct (SetScale_inputs k u g us Hu E) as (Hus & gs & Hgs & _ & Hrg).
    destruct (TryRotation_step k 1 m v us g gs u')
      as (c & mask' & Hc & Hm & Hin' & _ & Hres);
      [congruence|exact Hgs|congruence|exact Hstep|].
    split; [|exact Hin'].
    pose proof (best_of_step g vbInliers (λ a b, 0 ≤ a < k ∧ b = 1)
                  m v k 1 c mask' u'.1 Hb Hc Hm Hres) as Hb'.
    eapply best_of_iff; [|exact Hb']. intros a b. cbn beta. lia.
Qed.

Lemma search_rotations `{DoubleArith} (vbInliers : list bool)
    (g gs : GMS_Matcher) (s' : Search) :
  SetScale 0 g = Some gs →
  for_loop 8 1 TryRotation (0, vbInliers, gs) = Some s' →
  best_of g vbInliers (λ a b, a = 0 ∧ 1 ≤ b < 9) s'.1.1 s'.1.2 ∧
  inputs s'.2 = inputs g.
Proof.
  intros Hset Hrun.
  destruct (TryRotations_best 8 1 0 0 vbInliers vbInliers
              (λ _ _, False) gs g gs s')
    as (Hb' & Hin' & _).
  - eapply SetScale_frame. exact Hset.
  - exact Hset.
  - reflexivity.
  - apply best_of_start. intros a b Hf. exact Hf.
  - exact Hrun.
  - split; [|exact Hin'].
    eapply best_of_iff; [|exact Hb']. intros a b. cbn beta. lia.
Qed.

(** The search of [GetInlierMask], whichever of its three loops runs. *)
Lemma GetInlierMask_search `{DoubleArith} (vbInliers : list bool)
    (WithScale WithRotation : bool) (g : GMS_Matcher) (s' : Search) :
  WithScale || WithRotation = true →
  GetInlierMask vbInliers WithScale WithRotation g = Some s' →
  best_of g vbInliers
          (λ a b, (a, b) ∈ searched WithScale WithRotation) s'.1.1 s'.1.2 ∧
  inputs s'.2 = inputs g.
Proof.
  intros Hsearch. unfold GetInlierMask.
  destruct WithScale, WithRotation; try discriminate; cbn [negb andb];
    intros Hrun.
  - apply search_scales_rotations in Hrun as [Hb Hin]. split; [|exact Hin].
    eapply best_of_iff; [|exact Hb]. intros a b. rewrite searched_spec.
    reflexivity.
  - apply search_scales in Hrun as [Hb Hin]. split; [|exact Hin].
    eapply best_of_iff; [|exact Hb]. intros a b. rewrite searched_spec.
    reflexivity.
  - bind_inv Hrun. rename x into gs.
    apply (search_rotations vbInliers g gs s' E) in Hrun as [Hb Hin].
    split; [|exact Hin].
    eapply best_of_iff; [|exact Hb]. intros a b. rewrite searched_spec.
    reflexivity.
Qed.

Lemma GetInlierMask_plain `{DoubleArith} (vbInliers : list bool)
    (g : GMS_Matcher) (s' : Search) :
  GetInlierMask vbInliers false false g = Some s' →
  hypothesis_count 0 1 g = Some s'.1.1 ∧
  hypothesis_mask 0 1 g = Some s'.1.2 ∧
  inputs s'.2 = inputs g.
Proof.
  unfold GetInlierMask, hypothesis_count, hypothesis_mask. cbn [negb andb].
  intros Hrun. bind_inv Hrun. rename x into gs.
  destruct x0 as [n g1]. injection Hrun as <-.
  rewrite E, !bind_Some_l, E0, !bind_Some_l. cbn [fst snd].
  split; [reflexivity|]. split; [reflexivity|].
  apply Run_frame in E0 as [Hin _]. apply SetScale_frame in E. congruence.
Qed.

Lemma GetInlierMask_frame `{DoubleArith} (vbInliers : list bool)
    (WithScale WithRotation : bool) (g : GMS_Matcher) (s' : Search) :
  GetInlierMask vbInliers WithScale WithRotation g = Some s' →
  inputs s'.2 = inputs g.
Proof.
  intros Hrun.
  destruct (WithScale || WithRotation) eqn:Hflags.
  - apply (GetInlierMask_search _ _ _ _ _ Hflags Hrun).
  - apply orb_false_iff in Hflags as [-> ->].
    apply (GetInlierMask_plain _ _ _ Hrun).
Qed.

(** X8. The count and the vector that [GetInlierMask] returns agree: the
    count lies between 0 and the number of matches; the vector has one entry
    per match, the count being the number of the [true] ones, or else a
    search found no inlier, the count is 0 and the vector is the one of the
    caller. *)
Theorem GetInlierMask_mask_count `{DoubleArith} (vbInliers : list bool)
    (WithScale WithRotation : bool) (g g' : GMS_Matcher)
    (max_inlier : Z) (mask : list bool) :
  GetInlierMask vbInliers WithScale WithRotation g
  = Some (max_inlier, mask, g') →
  0 ≤ max_inlier ≤ Z.of_nat (mNumberMatches g) ∧
  ((WithScale || WithRotation = true ∧ max_inlier = 0 ∧ mask = vbInliers) ∨
   (max_inlier = count_inliers mask ∧ length mask = mNumberMatches g)).
Proof.
  intros Hrun. destruct (WithScale || WithRotation) eqn:Hflags.
  - apply (GetInlierMask_search _ _ _ _ _ Hflags) in Hrun as [[_ Hbest] _].
    cbn [fst snd] in Hbest.
    destruct Hbest as [[-> ->]|(Hpos & a & b & _ & Hc & Hm)].
    + split; [lia|]. left. split; [reflexivity|]. split; reflexivity.
    + destruct (hypothesis_mask_count a b g max_inlier mask Hc Hm)
        as (Hcount & Hlen & Hn).
      split; [exact Hn|]. right. split; assumption.
  - apply orb_false_iff in Hflags as [-> ->].
    apply GetInlierMask_plain in Hrun as (Hc & Hm & _). cbn [fst snd] in Hc, Hm.
    destruct (hypothesis_mask_count 0 1 g max_inlier mask Hc Hm)
      as (Hcount & Hlen & Hn).
    split; [exact Hn|]. right. split; assumption.
Qed.

Lemma GetInlierMask_mask_count_witness :
  ∃ max_inlier mask g',
    @GetInlierMask ExactArith [] true true demo_matcher
    = Some (max_inlier, mask, g') ∧
    0 ≤ max_inlier ≤ Z.of_nat (mNumberMatches demo_matcher) ∧
    ((true || true = true ∧ max_inlier = 0 ∧ mask = []) ∨
     (max_inlier = count_inliers mask ∧
      length mask = mNumberMatches demo_matcher)).
Proof.
  destruct (@GetInlierMask ExactArith [] true true demo_matcher)
    as [[[max_inlier mask] g']|] eqn:Hrun; [|vm_compute in Hrun; discriminate].
  exists max_inlier, mask, g'. split; [reflexivity|].
  exact (@GetInlierMask_mask_count ExactArith [] true true demo_matcher g'
           max_inlier mask Hrun).
Defined.

(** X9. With a search enabled, the count that [GetInlierMask] returns is
    the largest inlier count of the hypotheses it evaluates, or 0 if none
    has an inlier: every hypothesis has a count, none above the returned one;
    and either the result is 0 with the vector of the caller, or it is the
    count and the mask of one of the hypotheses. *)
Theorem GetInlierMask_best_hypothesis `{DoubleArith} (vbInliers : list bool)
    (WithScale WithRotation : bool) (g g' : GMS_Matcher)
    (max_inlier : Z) (mask : list bool) :
  WithScale || WithRotation = true →
  GetInlierMask vbInliers WithScale WithRotation g
  = Some (max_inlier, mask, g') →
  (∀ Scale RotationType,
     (Scale, RotationType) ∈ searched WithScale WithRotation →
     ∃ c, hypothesis_count Scale RotationType g = Some c ∧ c ≤ max_inlier) ∧
  ((max_inlier = 0 ∧ mask = vbInliers) ∨
   (0 < max_inlier ∧
    ∃ Scale RotationType,
      (Scale, RotationType) ∈ searched WithScale WithRotation ∧
      hypothesis_count Scale RotationType g = Some max_inlier ∧
      hypothesis_mask Scale RotationType g = Some mask)).
Proof.
  intros Hflags Hrun.
  apply (GetInlierMask_search _ _ _ _ _ Hflags) in Hrun as [Hbest _].
  exact Hbest.
Qed.

Lemma GetInlierMask_best_hypothesis_witness :
  ∃ max_inlier mask g',
    @GetInlierMask ExactArith [] true true demo_matcher
    = Some (max_inlier, mask, g') ∧
    (∀ Scale RotationType,
       (Scale, RotationType) ∈ searched true true →
       ∃ c, @hypothesis_count ExactArith Scale RotationType demo_matcher
            = Some c ∧ c ≤ max_inlier) ∧
    ((max_inlier = 0 ∧ mask = []) ∨
     (0 < max_inlier ∧
      ∃ Scale RotationType,
        (Scale, RotationType) ∈ searched true true ∧
        @hypothesis_count ExactArith Scale RotationType demo_matcher
        = Some max_inlier ∧
        @hypothesis_mask ExactArith Scale RotationType demo_matcher
        = Some mask)).
Proof.
  destruct (@GetInlierMask ExactArith [] true true demo_matcher)
    as [[[max_inlier mask] g']|] eqn:Hrun; [|vm_compute in Hrun; discriminate].
  exists max_inlier, mask, g'. split; [reflexivity|].
  exact (@GetInlierMask_best_hypothesis ExactArith [] true true demo_matcher g'
           max_inlier mask eq_refl Hrun).
Defined.

(** ** Calls on a matcher that was used before *)

Lemma SetScale_then {A} (K : GMS_Matcher → option A) (Scale : Z)
    (g1 g2 : GMS_Matcher) :
  (∀ a b, inputs a = inputs b → right_grid a = right_grid b → K a = K b) →
  inputs g1 = inputs g2 →
  SetScale Scale g1 ≫= K = SetScale Scale g2 ≫= K.
Proof.
  intros HK Hin.
  destruct (SetScale Scale g1) as [g1'|] eqn:H1.
  - destruct (SetScale_inputs Scale g1 g2 g1' Hin H1)
      as (Hin1 & g2' & H2 & Hin2 & Hrg).
    rewrite H2, !bind_Some_l. apply HK; congruence.
  - destruct (SetScale Scale g2) as [g2'|] eqn:H2; [|reflexivity].
    destruct (SetScale_inputs Scale g2 g1 g2' (eq_sym Hin) H2)
      as (_ & g1' & H1' & _). congruence.
Qed.

Lemma TryRotation_config `{DoubleArith} (RotationType max_inlier : Z)
    (vbInliers : list bool) (a b : GMS_Matcher) :
  inputs a = inputs b → right_grid a = right_grid b →
  TryRotation RotationType (max_inlier, vbInliers, a)
  = TryRotation RotationType (max_inlier, vbInliers, b).
Proof.
  intros Hin Hrg. unfold TryRotation.
  rewrite (Run_config RotationType a b Hin Hrg). reflexivity.
Qed.

Lemma TryRotations_config `{DoubleArith} (n : nat) (start max_inlier : Z)
    (vbInliers : list bool) (a b : GMS_Matcher) :
  inputs a = inputs b → right_grid a = right_grid b →
  for_loop (S n) start TryRotation (max_inlier, vbInliers, a)
  = for_loop (S n) start TryRotation (max_inlier, vbInliers, b).
Proof.
  intros Hin Hrg. rewrite !for_loop_S.
  rewrite (TryRotation_config start max_inlier vbInliers a b Hin Hrg).
  reflexivity.
Qed.

(** [GetInlierMask] reads the members that the constructor wrote, and
    nothing of what an earlier call left in the matcher. *)
Lemma GetInlierMask_config `{DoubleArith} (vbInliers : list bool)
    (WithScale WithRotation : bool) (g1 g2 : GMS_Matcher) :
  inputs g1 = inputs g2 →
  GetInlierMask vbInliers WithScale WithRotation g1
  = GetInlierMask vbInliers WithScale WithRotation g2.
Proof.
  intros Hin. unfold GetInlierMask.
  destruct WithScale, WithRotation; cbn [negb andb].
  - rewrite !(for_loop_S 4 0). cbv beta iota.
    rewrite (SetScale_then
               (λ g, for_loop 8 1 TryRotation (0, vbInliers, g)) 0 g1 g2);
      [reflexivity| |exact Hin].
    intros a b. apply TryRotations_config.
  - rewrite !(for_loop_S 4 0). cbv beta iota.
    rewrite (SetScale_then
               (λ g, TryRotation 1 (0, vbInliers, g)) 0 g1 g2);
      [reflexivity| |exact Hin].
    intros a b. apply TryRotation_config.
  - apply (SetScale_then
             (λ g, for_loop 8 1 TryRotation (0, vbInliers, g)) 0 g1 g2);
      [|exact Hin].
    intros a b. apply TryRotations_config.
  - apply (SetScale_then
             (λ g, r ← Run 1 g;
                   let '(max_inlier, g) := r in
                   Some (max_inlier, mvbInlierMask g, g)) 0 g1 g2);
      [|exact Hin].
    intros a b Hab Hrg. rewrite (Run_config 1 a b Hab Hrg). reflexivity.
Qed.

(** X10. A matcher can be used again: a call of [GetInlierMask] on the
    matcher that an earlier call left, with any vector and any searches,
    gives what it gives on the matcher as constructed. *)
Theorem GetInlierMask_reuse `{DoubleArith} (vbInliers vbInliers' : list bool)
    (WithScale WithRotation WithScale' WithRotation' : bool)
    (g : GMS_Matcher) (first : Search) :
  GetInlierMask vbInliers WithScale WithRotation g = Some first →
  GetInlierMask vbInliers' WithScale' WithRotation' first.2
  = GetInlierMask vbInliers' WithScale' WithRotation' g.
Proof.
  intros Hrun. apply GetInlierMask_config.
  eapply GetInlierMask_frame. exact Hrun.
Qed.

Lemma GetInlierMask_reuse_witness :
  ∃ first,
    @GetInlierMask ExactArith [] true true demo_matcher = Some first ∧
    @GetInlierMask ExactArith [true] false true first.2
    = @GetInlierMask ExactArith [true] false true demo_matcher.
Proof.
  destruct (@GetInlierMask ExactArith [] true true demo_matcher)
    as [first|] eqn:Hrun; [|vm_compute in Hrun; discriminate].
  exists first. split; [reflexivity|].
  exact (@GetInlierMask_reuse ExactArith [] [true] true true false true
           demo_matcher first Hrun).
Defined.

(** X11. [SetScale] derives the right grid from the left grid alone: a
    scale set after another one gives the matcher that it gives without the
    earlier one, so the scales of the search do not compound. *)
Theorem SetScale_overrides (Scale Scale' : Z) (g g1 : GMS_Matcher) :
  SetScale Scale g = Some g1 →
  SetScale Scale' g1 = SetScale Scale' g.
Proof.
  unfold SetScale. intros Hset. bind_inv Hset. injection Hset as <-.
  destruct g. reflexivity.
Qed.

Lemma SetScale_overrides_witness :
  ∃ g1, SetScale 4 demo_matcher = Some g1 ∧
        SetScale 1 g1 = SetScale 1 demo_matcher.
Proof.
  eexists. split; [reflexivity|].
  apply (SetScale_overrides 4 1 demo_matcher). reflexivity.
Defined.

(** X12. Without a match, [GetInlierMask] returns 0: with a search
    enabled the vector of the caller stays as it is, without one it becomes
    empty. *)
Theorem GetInlierMask_no_matches `{DoubleArith} (vbInliers : list bool)
    (WithScale WithRotation : bool) (g : GMS_Matcher) :
  mvMatches g = [] → mNumberMatches g = 0%nat →
  left_grid_ok g → grid_fits WithScale (mGridSizeLeft g) →
  ∃ g', GetInlierMask vbInliers WithScale WithRotation g
        = Some (0, if WithScale || WithRotation then vbInliers else [], g').
Proof.
  intros Hnone Hzero Hleft Hfits.
  assert (matches_ok g) as Hmatches.
  { split; [rewrite Hnone, Hzero; reflexivity|].
    rewrite Hnone. apply Forall_nil. exact I. }
  destruct (GetInlierMask_total vbInliers WithScale WithRotation g
              Hmatches Hleft Hfits) as ([[n v] g'] & Hrun & _).
  exists g'. rewrite Hrun. destruct (WithScale || WithRotation) eqn:Hflags.
  - apply (GetInlierMask_search _ _ _ _ _ Hflags) in Hrun as [[_ Hbest] _].
    cbn [fst snd] in Hbest.
    destruct Hbest as [[-> ->]|(Hpos & a & b & _ & Hc & Hm)];
      [reflexivity|].
    destruct (hypothesis_mask_count a b g n v Hc Hm) as (_ & _ & Hn). lia.
  - apply orb_false_iff in Hflags as [-> ->].
    apply GetInlierMask_plain in Hrun as (Hc & Hm & _). cbn [fst snd] in Hc, Hm.
    destruct (hypothesis_mask_count 0 1 g n v Hc Hm) as (Hcount & Hlen & Hn).
    rewrite Hzero in Hlen. apply nil_length_inv in Hlen. subst v.
    assert (n = 0) as -> by lia. reflexivity.
Qed.

Lemma GetInlierMask_no_matches_witness :
  ∃ g', @GetInlierMask ExactArith [true; false] true true demo_unmatched
        = Some (0, [true; false], g').
Proof.
  apply (@GetInlierMask_no_matches ExactArith [true; false] true true
           demo_unmatched).
  - reflexivity.
  - reflexivity.
  - unfold left_grid_ok. cbn. split; [lia|]. split; [lia|].
    split; reflexivity.
  - cbn. lia.
Defined.

(** ** A left grid too thin for the scale search *)

Lemma GetGridIndexLeft_plain_nonneg (gs : Size) (p : Point2f) :
  0 < width gs → 0 < height gs → in_unit_square p →
  0 ≤ GetGridIndexLeft gs p 1.
Proof.
  intros HW HH (Hx0 & Hx1 & Hy0 & Hy1).
  pose proof (Qfloor_unit_times _ _ Hx0 Hx1 HW) as Hx.
  pose proof (Qfloor_unit_times _ _ Hy0 Hy1 HH) as Hy.
  unfold GetGridIndexLeft. cbn [Z.eqb Pos.eqb].
  set (x := Qfloor (pt_x p * inject_Z (width gs))) in *.
  set (y := Qfloor (pt_y p * inject_Z (height gs))) in *.
  rewrite !Z.geb_leb.
  destruct (Z.leb_spec (width gs) x), (Z.leb_spec (height gs) y);
    try lia. cbn [orb]. nia.
Qed.

Lemma GetGridIndexRight_nonneg (gs : Size) (p : Point2f) :
  0 ≤ width gs → 0 ≤ height gs → in_unit_square p →
  0 ≤ GetGridIndexRight gs p.
Proof.
  intros HW HH (Hx0 & _ & Hy0 & _).
  pose proof (Qfloor_nonneg_times _ _ Hx0 HW) as Hx.
  pose proof (Qfloor_nonneg_times _ _ Hy0 HH) as Hy.
  unfold GetGridIndexRight. nia.
Qed.

Lemma vget_nil {A} (i : Z) : vget ([] : list A) i = None.
Proof. unfold vget. destruct (0 <=? i); [apply lookup_nil|reflexivity]. Qed.

(** A vote into a matrix without columns is out of range. *)
Lemma AssignMatchPair_no_column (i : nat) (g : GMS_Matcher) :
  matches_ok g →
  0 < width (mGridSizeLeft g) → 0 < height (mGridSizeLeft g) →
  0 ≤ width (mGridSizeRight g) → 0 ≤ height (mGridSizeRight g) →
  Forall (λ row, length row = 0%nat) (mMotionStatistics g) →
  AssignMatchPair 1 i g = None.
Proof.
  intros [_ Hmatches] HW HH HWr HHr Hrows. unfold AssignMatchPair.
  destruct (mvMatches g !! i) as [m|] eqn:Hm; [|reflexivity].
  rewrite bind_Some_l.
  destruct (Forall_lookup_1 _ _ _ _ Hmatches Hm)
    as (lp & rp & Hlp & Hrp & Hlsq & Hrsq).
  rewrite Hlp, bind_Some_l, Hrp, bind_Some_l.
  destruct (mvMatchPairs g !! i) as [mp|]; [|reflexivity].
  rewrite bind_Some_l. cbv zeta. change (1 =? 1) with true. cbv iota.
  pose proof (GetGridIndexLeft_plain_nonneg _ _ HW HH Hlsq) as Hl.
  pose proof (GetGridIndexRight_nonneg _ _ HWr HHr Hrsq) as Hr.
  destruct (Z.ltb_spec (GetGridIndexLeft (mGridSizeLeft g) lp 1) 0); [lia|].
  destruct (Z.ltb_spec (GetGridIndexRight (mGridSizeRight g) rp) 0); [lia|].
  cbn [orb]. unfold Mat_incr.
  destruct (vget (mMotionStatistics _) (GetGridIndexLeft _ lp 1))
    as [row|] eqn:Hrow; [|reflexivity].
  rewrite bind_Some_l.
  apply vget_Some in Hrow as [_ Hrow].
  pose proof (Forall_lookup_1 _ _ _ _ Hrows Hrow) as Hlen.
  apply nil_length_inv in Hlen. subst row.
  rewrite vget_nil. reflexivity.
Qed.

Lemma Run_no_column `{DoubleArith} (RotationType : Z) (g : GMS_Matcher) :
  matches_ok g → mNumberMatches g ≠ 0%nat →
  0 < width (mGridSizeLeft g) → 0 < height (mGridSizeLeft g) →
  0 ≤ width (mGridSizeRight g) → 0 ≤ height (mGridSizeRight g) →
  mGridNumberRight g = 0 →
  Run RotationType g = None.
Proof.
  intros Hmatches Hsome HW HH HWr HHr Hzero.
  unfold Run. rewrite for_loop_S.
  assert (OffsetPass RotationType 1 (RunInit g) = None) as ->; [|reflexivity].
  unfold OffsetPass.
  assert (OffsetVote RotationType 1 (RunInit g) = None) as ->; [|reflexivity].
  unfold OffsetVote. cbv zeta.
  match goal with
  | |- AssignMatchPairs 1 ?t ≫= _ = None =>
      assert (AssignMatchPairs 1 t = None) as ->; [|reflexivity]
  end.
  unfold AssignMatchPairs.
  match goal with
  | |- for_size ?n _ _ _ = None =>
      change n with (mNumberMatches g)
  end.
  destruct (mNumberMatches g) as [|n] eqn:Hn; [congruence|].
  cbn [for_size]. rewrite AssignMatchPair_no_column; [reflexivity|..].
  - exact Hmatches.
  - exact HW.
  - exact HH.
  - exact HWr.
  - exact HHr.
  - change (Forall (λ row : list Z, length row = 0%nat)
                    (Mat_setTo0 (Mat_zeros (mGridNumberLeft g)
                                           (mGridNumberRight g)))).
    rewrite Hzero.
    apply (Mat_setTo0_shape _ _ _ (Mat_zeros_shape (mGridNumberLeft g) 0)).
Qed.

Lemma TryRotation_frame `{DoubleArith} (RotationType : Z) (s s' : Search) :
  TryRotation RotationType s = Some s' → inputs s'.2 = inputs s.2.
Proof.
  destruct s as [[m v] t]. unfold TryRotation. intros Hstep.
  bind_inv Hstep. destruct x as [n t'].
  apply Run_frame in E as [Hin _].
  destruct (n >? m); injection Hstep as <-; exact Hin.
Qed.

Lemma TryRotations_frame `{DoubleArith} (n : nat) (start : Z) (s s' : Search) :
  for_loop n start TryRotation s = Some s' → inputs s'.2 = inputs s.2.
Proof.
  intros Hrun.
  apply (for_loop_inv (λ _ t, inputs t.2 = inputs s.2)) in Hrun;
    [exact Hrun|reflexivity|].
  intros k t t' _ Ht Hstep. apply TryRotation_frame in Hstep. congruence.
Qed.

(** The right grid of scale 1 on a left grid with a single column or a
    single row has no cell. *)
Lemma SetScale_half_thin (g : GMS_Matcher) :
  matches_ok g → mNumberMatches g ≠ 0%nat →
  0 < width (mGridSizeLeft g) → 0 < height (mGridSizeLeft g) →
  width (mGridSizeLeft g) = 1 ∨ height (mGridSizeLeft g) = 1 →
  ∃ gs, SetScale 1 g = Some gs ∧
        ∀ (arith : DoubleArith) RotationType,
          @Run arith RotationType gs = None.
Proof.
  intros Hmatches Hsome HW HH Hthin. unfold SetScale. cbn [scaled_dim].
  rewrite !bind_Some_l. eexists. split; [reflexivity|].
  intros Harith RotationType.
  assert (0 ≤ Z.quot (width (mGridSizeLeft g)) 2) as HWr
    by (apply Z.quot_pos; lia).
  assert (0 ≤ Z.quot (height (mGridSizeLeft g)) 2) as HHr
    by (apply Z.quot_pos; lia).
  apply Run_no_column; try assumption.
  cbn. destruct Hthin as [-> | ->];
    change (Z.quot 1 2) with 0; lia.
Qed.

Lemma thin_scale_step `{DoubleArith} (WithRotation : bool) (g u : GMS_Matcher)
    (m : Z) (v : list bool) :
  matches_ok g → mNumberMatches g ≠ 0%nat →
  0 < width (mGridSizeLeft g) → 0 < height (mGridSizeLeft g) →
  width (mGridSizeLeft g) = 1 ∨ height (mGridSizeLeft g) = 1 →
  inputs u = inputs g →
  (us ← SetScale 1 u;
   if WithRotation then for_loop 8 1 TryRotation (m, v, us)
   else TryRotation 1 (m, v, us)) = None.
Proof.
  intros Hmatches Hsome HW HH Hthin Hin.
  assert (matches_ok u ∧ mNumberMatches u = mNumberMatches g ∧
          mGridSizeLeft u = mGridSizeLeft g) as (Hm & Hn & HL).
  { injection Hin as HP1 HP2 HM HN HL _ _ _.
    unfold matches_ok. rewrite HP1, HP2, HM, HN, HL.
    split; [exact Hmatches|]. split; reflexivity. }
  destruct (SetScale_half_thin u) as (us & -> & Hnone);
    [exact Hm|congruence|rewrite HL; exact HW|rewrite HL; exact HH|
     rewrite HL; exact Hthin|].
  rewrite bind_Some_l.
  destruct WithRotation; [rewrite for_loop_S|];
    unfold TryRotation; rewrite Hnone; reflexivity.
Qed.

(** X13. The scale search needs a left grid of two columns and two rows
    at least: on a grid with a single column or a single row and with one
    match or more, the right grid of scale 1/2 has no cell, and the vote of
    the first match is an access out of range, whether the rotations are
    searched or not. *)
Theorem GetInlierMask_thin_grid `{DoubleArith} (vbInliers : list bool)
    (WithRotation : bool) (g : GMS_Matcher) :
  matches_ok g → mNumberMatches g ≠ 0%nat →
  0 < width (mGridSizeLeft g) → 0 < height (mGridSizeLeft g) →
  width (mGridSizeLeft g) = 1 ∨ height (mGridSizeLeft g) = 1 →
  GetInlierMask vbInliers true WithRotation g = None.
Proof.
  intros Hmatches Hsome HW HH Hthin. unfold GetInlierMask.
  destruct WithRotation; cbn [negb andb]; rewrite for_loop_S.
  - destruct (SetScale 0 g ≫= _) as [[[m v] u]|] eqn:Hfirst; [|reflexivity].
    rewrite bind_Some_l, for_loop_S. bind_inv Hfirst. rename x into gs.
    apply TryRotations_frame in Hfirst. apply SetScale_frame in E.
    cbn [snd] in Hfirst.
    rewrite (thin_scale_step true g u m v); try assumption; [reflexivity|].
    congruence.
  - destruct (SetScale 0 g ≫= _) as [[[m v] u]|] eqn:Hfirst; [|reflexivity].
    rewrite bind_Some_l, for_loop_S. bind_inv Hfirst. rename x into gs.
    apply TryRotation_frame in Hfirst. apply SetScale_frame in E.
    cbn [snd] in Hfirst.
    rewrite (thin_scale_step false g u m v); try assumption; [reflexivity|].
    congruence.
Qed.

Lemma GetInlierMask_thin_grid_witness :
  @GetInlierMask ExactArith [] true true demo_thin = None.
Proof.
  apply (@GetInlierMask_thin_grid ExactArith [] true demo_thin).
  - apply GMS_Matcher_new_ok; try reflexivity; try discriminate.
    + repeat (apply Forall_cons; split;
              [unfold inside_image; cbn; repeat split; discriminate|]).
      apply Forall_nil. exact I.
    + repeat (apply Forall_cons; split;
              [unfold inside_image; cbn; repeat split; discriminate|]).
      apply Forall_nil. exact I.
    + repeat (apply Forall_cons; split;
              [unfold match_in_range; cbn; lia|]).
      apply Forall_nil. exact I.
  - discriminate.
  - reflexivity.
  - reflexivity.
  - left. reflexivity.
Defined.

(** ** The strategies of the dispatcher *)

Lemma accept_all_app (accepted : list (DMatch * Q)) (ms : DMatch * Q)
    (p : MatchPruner) :
  accept_all (ms :: accepted) p = accept_all accepted (accept_match ms.1 ms.2 p).
Proof. reflexivity. Qed.

(** Appending leaves every member but the matches and their scores. *)
Lemma accept_all_members (accepted : list (DMatch * Q)) (p : MatchPruner) :
  pruned_matches_ (accept_all accepted p) = pruned_matches_ p ++ accepted.*1 ∧
  scores_ (accept_all accepted p) = scores_ p ++ accepted.*2 ∧
  putative_matches_ (accept_all accepted p) = putative_matches_ p ∧
  query_kpts_ (accept_all accepted p) = query_kpts_ p ∧
  refer_kpts_ (accept_all accepted p) = refer_kpts_ p.
Proof.
  revert p. induction accepted as [|ms accepted IH]; intros p.
  - cbn. rewrite !app_nil_r. repeat split; reflexivity.
  - rewrite accept_all_app.
    destruct (IH (accept_match ms.1 ms.2 p)) as (-> & -> & -> & -> & ->).
    cbn. rewrite <- !app_assoc. repeat split; reflexivity.
Qed.


(** The loop of the ratio test from query [start] on. *)
Lemma RatioTest_loop (ratio : Q) (n start : nat) (p : MatchPruner) :
  (start + n)%nat = length (putative_matches_ p) →
  Forall (λ c, (2 ≤ length c)%nat) (putative_matches_ p) →
  ∃ accepted,
    for_size n start (RatioTest ratio) p = Some (accept_all accepted p) ∧
    ∀ m s, (m, s) ∈ accepted ↔
      ∃ i m1 rest, (start ≤ i)%nat ∧
        putative_matches_ p !! i = Some (m :: m1 :: rest) ∧
        s = ratio_score (distance m) (distance m1) ∧
        below_ratio (distance m1) s ratio = true.
Proof.
  revert start p. induction n as [|n IH]; intros start p Hlen Hall.
  - exists []. split; [reflexivity|]. intros m s. split.
    + intros Hin. apply elem_of_nil in Hin. destruct Hin.
    + intros (i & m1 & rest & Hi & Hc & _).
      apply lookup_lt_Some in Hc. lia.
  - destruct (lookup_lt_is_Some_2 (putative_matches_ p) start) as [c Hc];
      [lia|].
    pose proof (Forall_lookup_1 _ _ _ _ Hall Hc) as Hc2.
    destruct c as [|m0 [|m1 rest]]; cbn in Hc2; [lia|lia|].
    assert (RatioTest ratio start p
            = Some (if below_ratio (distance m1)
                         (ratio_score (distance m0) (distance m1)) ratio
                    then accept_match m0
                           (ratio_score (distance m0) (distance m1)) p
                    else p)) as Hstep.
    { unfold RatioTest. rewrite Hc. cbn.
      destruct (below_ratio _ _ _); reflexivity. }
    cbn [for_size]. rewrite Hstep, bind_Some_l.
    destruct (below_ratio (distance m1) _ ratio) eqn:Hbelow.
    + destruct (IH (S start)
                  (accept_match m0 (ratio_score (distance m0) (distance m1)) p))
        as (accepted & Hrun & Hacc); [cbn; lia|exact Hall|].
      exists ((m0, ratio_score (distance m0) (distance m1)) :: accepted).
      split; [rewrite Hrun; reflexivity|].
      intros m s. rewrite elem_of_cons, Hacc. cbn [putative_matches_ accept_match].
      split.
      * intros [Heq|(i & m1' & rest' & Hi & Hci & Hs & Hb)].
        -- injection Heq as -> ->. exists start, m1, rest.
           split; [lia|]. split; [exact Hc|]. split; [reflexivity|exact Hbelow].
        -- exists i, m1', rest'. split; [lia|]. split; [exact Hci|].
           split; assumption.
      * intros (i & m1' & rest' & Hi & Hci & Hs & Hb).
        destruct (decide (i = start)) as [->|Hne].
        -- left. rewrite Hc in Hci. injection Hci as -> -> ->.
           rewrite Hs. reflexivity.
        -- right. exists i, m1', rest'. split; [lia|]. split; [exact Hci|].
           split; assumption.
    + destruct (IH (S start) p) as (accepted & Hrun & Hacc);
        [lia|exact Hall|].
      exists accepted. split; [exact Hrun|].
      intros m s. rewrite Hacc. split.
      * intros (i & m1' & rest' & Hi & Hci & Hs & Hb).
        exists i, m1', rest'. split; [lia|]. split; [exact Hci|].
        split; assumption.
      * intros (i & m1' & rest' & Hi & Hci & Hs & Hb).
        destruct (decide (i = start)) as [->|Hne].
        -- rewrite Hc in Hci. injection Hci as -> -> ->.
           rewrite Hs in Hb. congruence.
        -- exists i, m1', rest'. split; [lia|]. split; [exact Hci|].
           split; assumption.
Qed.



(** The loop that appends the labelled matches, from label [start] on. *)
Lemma accept_labelled_loop (labels : list bool) (initial : list DMatch)
    (score : nat → option Q) (n start : nat) (p p' : MatchPruner) :
  for_size n start (λ i p,
    l ← labels !! i;
    if l : bool then
      m ← initial !! i;
      s ← score i;
      Some (accept_match m s p)
    else Some p) p = Some p' →
  ∃ accepted,
    p' = accept_all accepted p ∧
    Forall2 (λ i ms, initial !! i = Some ms.1 ∧ score i = Some ms.2)
            (filter (λ i, labels !! i = Some true) (seq start n)) accepted.
Proof.
  revert start p. induction n as [|n IH]; intros start p Hrun.
  - injection Hrun as <-. exists []. split; [reflexivity|apply Forall2_nil_2].
  - cbn [for_size] in Hrun. bind_inv Hrun. rename x into p1.
    bind_inv E. rename x into l.
    destruct (IH _ _ Hrun) as (accepted & -> & Hacc).
    cbn [seq]. rewrite filter_cons. destruct l.
    + bind_inv E. rename x into m, x0 into s. injection E as <-.
      rewrite decide_True by exact E0.
      exists ((m, s) :: accepted). split; [reflexivity|].
      apply Forall2_cons; split; [split; assumption|exact Hacc].
    + injection E as <-. rewrite decide_False by congruence.
      exists accepted. split; [reflexivity|exact Hacc].
Qed.

(** X15. The loop that closes [PruneMatchesByGMS] and [PruneMatchesByLPM]
    appends, in the order of the labels, the initial match and the score of
    each label that is set, and nothing else. *)
Theorem accept_labelled_accepted (labels : list bool) (initial : list DMatch)
    (score : nat → option Q) (p p' : MatchPruner) :
  accept_labelled labels initial score p = Some p' →
  ∃ accepted,
    pruned_matches_ p' = pruned_matches_ p ++ accepted.*1 ∧
    scores_ p' = scores_ p ++ accepted.*2 ∧
    Forall2 (λ i ms, initial !! i = Some ms.1 ∧ score i = Some ms.2)
            (labelled_indices labels) accepted.
Proof.
  unfold accept_labelled. intros Hrun.
  apply accept_labelled_loop in Hrun as (accepted & -> & Hacc).
  exists accepted. destruct (accept_all_members accepted p) as (-> & -> & _).
  split; [reflexivity|]. split; [reflexivity|exact Hacc].
Qed.

Lemma accept_labelled_accepted_witness :
  ∃ p' accepted,
    accept_labelled [false; true] [mkDMatch 0 0 1; mkDMatch 1 1 2]
                    (λ _, Some 1%Q) (demo_pruner PRUNER_GMS) = Some p' ∧
    pruned_matches_ p' = [] ++ accepted.*1 ∧
    scores_ p' = [] ++ accepted.*2 ∧
    Forall2 (λ i ms, [mkDMatch 0 0 1; mkDMatch 1 1 2] !! i = Some ms.1 ∧
                     Some 1%Q = Some ms.2)
            (labelled_indices [false; true]) accepted.
Proof.
  eexists.
  destruct (accept_labelled_accepted [false; true]
              [mkDMatch 0 0 1; mkDMatch 1 1 2] (λ _, Some 1%Q)
              (demo_pruner PRUNER_GMS) _ eq_refl) as (accepted & Hacc).
  exists accepted. split; [reflexivity|exact Hacc].
Defined.

(** The labels that are set are as many as [count_inliers] counts. *)
Lemma labelled_from (pre labels : list bool) :
  length (filter (λ i, (pre ++ labels) !! i = Some true)
                 (seq (length pre) (length labels)))
  = length (filter (λ b, b = true) labels).
Proof.
  revert pre. induction labels as [|b labels IH]; intros pre; [reflexivity|].
  cbn [length seq]. rewrite !filter_cons.
  assert ((pre ++ b :: labels) !! length pre = Some b) as Hb
    by (rewrite lookup_app_r, Nat.sub_diag by lia; reflexivity).
  specialize (IH (pre ++ [b])).
  rewrite <- app_assoc, length_app in IH. cbn [app length] in IH.
  rewrite Nat.add_1_r in IH.
  destruct b.
  - rewrite decide_True by exact Hb. rewrite decide_True by reflexivity.
    cbn [length]. rewrite IH. reflexivity.
  - rewrite decide_False by congruence. rewrite decide_False by discriminate.
    exact IH.
Qed.

Lemma count_inliers_filter (labels : list bool) (a : Z) :
  foldl (λ num_inlier (i : bool), if i then num_inlier + 1 else num_inlier)
        a labels
  = a + Z.of_nat (length (filter (λ b, b = true) labels)).
Proof.
  revert a. induction labels as [|b labels IH]; intros a; [cbn; lia|].
  cbn [foldl]. rewrite filter_cons, IH. destruct b.
  - rewrite decide_True by reflexivity. cbn [length]. lia.
  - rewrite decide_False by discriminate. reflexivity.
Qed.

Lemma labelled_indices_length (labels : list bool) :
  length (labelled_indices labels) = Z.to_nat (count_inliers labels).
Proof.
  unfold labelled_indices, count_inliers.
  rewrite count_inliers_filter.
  pose proof (labelled_from [] labels) as Hlen. cbn [app length] in Hlen.
  rewrite Hlen. lia.
Qed.

(** X16. What the GMS strategy accepts: the candidates of rank 0 are the
    initial matches, the filter runs on a fresh matcher with both searches
    and an empty vector, and the strategy appends the initial matches of
    the labels that are set, as many as the inlier count that the filter
    returns, each with the score 1. *)
Theorem PruneMatchesByGMS_accepted `{DoubleArith} (grid_size : Size)
    (alpha : Q) (p p' : MatchPruner) :
  PruneMatchesByGMS grid_size alpha p = Some p' →
  ∃ initial max_inlier labels g' accepted,
    initial_matches (putative_matches_ p) = Some initial ∧
    GetInlierMask [] true true
      (GMS_Matcher_new (query_kpts_ p) (query_image_ p)
                       (refer_kpts_ p) (refer_image_ p)
                       initial grid_size alpha)
    = Some (max_inlier, labels, g') ∧
    pruned_matches_ p' = pruned_matches_ p ++ accepted ∧
    Forall2 (λ i m, initial !! i = Some m) (labelled_indices labels) accepted ∧
    length accepted = Z.to_nat max_inlier ∧
    scores_ p' = scores_ p ++ replicate (Z.to_nat max_inlier) 1%Q.
Proof.
  unfold PruneMatchesByGMS. intros Hrun. bind_inv Hrun.
  rename x into initial. destruct x0 as [[max_inlier labels] g'].
  cbn [fst snd] in Hrun. unfold accept_labelled in Hrun.
  apply accept_labelled_loop in Hrun as (acc & -> & Hacc).
  destruct (accept_all_members acc p) as (Hpruned & Hscores & _).
  assert (length (labelled_indices labels) = Z.to_nat max_inlier) as Hcount.
  { rewrite labelled_indices_length.
    apply (GetInlierMask_search [] true true _ _ eq_refl) in E0
      as [[_ Hbest] _].
    cbn [fst snd] in Hbest.
    destruct Hbest as [[-> ->]|(_ & a & b & _ & Hc & Hm)]; [reflexivity|].
    destruct (hypothesis_mask_count a b _ _ _ Hc Hm) as (-> & _).
    reflexivity. }
  exists initial, max_inlier, labels, g', acc.*1.
  split; [exact E|]. split; [exact E0|]. split; [exact Hpruned|].
  pose proof (Forall2_length _ _ _ Hacc) as Hlen.
  fold (labelled_indices labels) in Hacc, Hlen.
  split; [|split].
  - apply Forall2_fmap_r. eapply Forall2_impl; [exact Hacc|].
    intros i ms [Hm _]. exact Hm.
  - rewrite length_fmap. congruence.
  - rewrite Hscores. f_equal.
    assert (Forall (λ s, s = 1%Q) acc.*2) as Hones.
    { apply Forall_fmap. eapply Forall2_Forall_r; [exact Hacc|].
      apply Forall_forall. intros i _ ms [_ Hs]. cbn.
      injection Hs as <-. reflexivity. }
    rewrite <- Hcount, Hlen, <- (length_fmap snd acc).
    clear -Hones. induction Hones as [|s l -> _ IH]; [reflexivity|].
    cbn. f_equal. exact IH.
Qed.

Lemma PruneMatchesByGMS_accepted_witness :
  ∃ p' initial max_inlier labels g' accepted,
    @PruneMatchesByGMS ExactArith (mkSize 2 2) 1 (demo_pruner PRUNER_GMS)
    = Some p' ∧
    initial_matches demo_putative = Some initial ∧
    @GetInlierMask ExactArith [] true true
      (GMS_Matcher_new (query_kpts_ (demo_pruner PRUNER_GMS)) (mkSize 100 100)
                       (refer_kpts_ (demo_pruner PRUNER_GMS)) (mkSize 100 100)
                       initial (mkSize 2 2) 1)
    = Some (max_inlier, labels, g') ∧
    pruned_matches_ p' = [] ++ accepted ∧
    Forall2 (λ i m, initial !! i = Some m) (labelled_indices labels) accepted ∧
    length accepted = Z.to_nat max_inlier ∧
    scores_ p' = [] ++ replicate (Z.to_nat max_inlier) 1%Q.
Proof.
  destruct (@PruneMatchesByGMS ExactArith (mkSize 2 2) 1
              (demo_pruner PRUNER_GMS)) as [p'|] eqn:Hrun;
    [|vm_compute in Hrun; discriminate].
  exists p'.
  destruct (@PruneMatchesByGMS_accepted ExactArith (mkSize 2 2) 1
              (demo_pruner PRUNER_GMS) p' Hrun)
    as (initial & max_inlier & labels & g' & accepted & Hres).
  exists initial, max_inlier, labels, g', accepted.
  split; [reflexivity|exact Hres].
Defined.

(** ** The outputs of the dispatcher *)

(** X17. When [PruneMatches] returns, its outputs are in step with the
    pruned matches: one query point, one reference point and one row of
    distances per match; the points are those of the keypoints that the
    match names; the row has one entry per candidate of the first query and
    holds the distances of the candidates of the query that the match names,
    which therefore has that many candidates at least. *)
Theorem PruneMatches_outputs `{DoubleArith} `{LPM_Matcher}
    (p p' : MatchPruner) :
  PruneMatches p = Some p' →
  ∃ first,
    putative_matches_ p' !! 0%nat = Some first ∧
    length (query_mpts_ p') = length (pruned_matches_ p') ∧
    length (refer_mpts_ p') = length (pruned_matches_ p') ∧
    length (knn_distances_ p') = length (pruned_matches_ p') ∧
    ∀ i m, pruned_matches_ p' !! i = Some m →
      ∃ q r row,
        vget (query_kpts_ p') (queryIdx m) = Some q ∧
        query_mpts_ p' !! i = Some (pt q) ∧
        vget (refer_kpts_ p') (trainIdx m) = Some r ∧
        refer_mpts_ p' !! i = Some (pt r) ∧
        knn_distances_ p' !! i = Some row ∧
        length row = length first ∧
        ∀ j, (j < length first)%nat →
          ∃ candidates mj,
            vget (putative_matches_ p') (queryIdx m) = Some candidates ∧
            candidates !! j = Some mj ∧
            row !! j = Some (distance mj).
Proof.
  unfold PruneMatches. intros Hrun. bind_inv Hrun.
  rename x into p1, x0 into first, x1 into out. injection Hrun as <-.
  cbn [set_outputs putative_matches_ query_mpts_ refer_mpts_ knn_distances_
       pruned_matches_ query_kpts_ refer_kpts_].
  apply mapM_Some in E1.
  pose proof (Forall2_length _ _ _ E1) as Hlen.
  exists first. split; [exact E0|].
  rewrite !length_map. split; [congruence|]. split; [congruence|].
  split; [congruence|].
  intros i m Hm.
  destruct (Forall2_lookup_l _ _ _ _ _ E1 Hm) as (o & Ho & Hout).
  unfold matched_output in Hout. bind_inv Hout.
  rename x into q, x0 into r, x1 into row. injection Hout as <-.
  exists q, r, row. rewrite !map_lookup, Ho. cbn [fmap option_fmap option_map fst snd].
  split; [exact E2|]. split; [reflexivity|]. split; [exact E3|].
  split; [reflexivity|]. split; [reflexivity|].
  unfold knn_row in E4. apply mapM_Some in E4.
  pose proof (Forall2_length _ _ _ E4) as Hrow. rewrite length_seq in Hrow.
  split; [congruence|].
  intros j Hj.
  assert (seq 0 (length first) !! j = Some j) as Hseq
    by (apply lookup_seq; split; [reflexivity|exact Hj]).
  destruct (Forall2_lookup_l _ _ _ _ _ E4 Hseq) as (d & Hd & Hdist).
  bind_inv Hdist. rename x into candidates.
  apply fmap_Some in Hdist as (mj & Hmj & ->).
  exists candidates, mj. split; [exact E5|]. split; [exact Hmj|exact Hd].
Qed.

Lemma PruneMatches_outputs_witness :
  ∃ p' first,
    @PruneMatches ExactArith KeepAll (demo_pruner PRUNER_RATIO) = Some p' ∧
    putative_matches_ p' !! 0%nat = Some first ∧
    length (query_mpts_ p') = length (pruned_matches_ p') ∧
    length (refer_mpts_ p') = length (pruned_matches_ p') ∧
    length (knn_distances_ p') = length (pruned_matches_ p') ∧
    ∀ i m, pruned_matches_ p' !! i = Some m →
      ∃ q r row,
        vget (query_kpts_ p') (queryIdx m) = Some q ∧
        query_mpts_ p' !! i = Some (pt q) ∧
        vget (refer_kpts_ p') (trainIdx m) = Some r ∧
        refer_mpts_ p' !! i = Some (pt r) ∧
        knn_distances_ p' !! i = Some row ∧
        length row = length first ∧
        ∀ j, (j < length first)%nat →
          ∃ candidates mj,
            vget (putative_matches_ p') (queryIdx m) = Some candidates ∧
            candidates !! j = Some mj ∧
            row !! j = Some (distance mj).
Proof.
  destruct (@PruneMatches ExactArith KeepAll (demo_pruner PRUNER_RATIO))
    as [p'|] eqn:Hrun; [|vm_compute in Hrun; discriminate].
  exists p'.
  destruct (@PruneMatches_outputs ExactArith KeepAll
              (demo_pruner PRUNER_RATIO) p' Hrun) as (first & Hres).
  exists first. split; [reflexivity|exact Hres].
Defined.

(** ** No access out of range in the dispatcher *)

(** The loop that closes [PruneMatches] on pruned matches that are
    candidates of the queries. *)
Lemma outputs_total (p : MatchPruner) (k : nat) :
  knn_shaped p k →
  Forall (λ m, ∃ c, c ∈ putative_matches_ p ∧ m ∈ c) (pruned_matches_ p) →
  ∃ first out,
    putative_matches_ p !! 0%nat = Some first ∧
    mapM (matched_output p (length first)) (pruned_matches_ p) = Some out.
Proof.
  intros (Hsome & Hk & Hidx) Hpruned.
  destruct (putative_matches_ p) as [|first rest] eqn:Hput; [congruence|].
  rewrite <- Hput in *. clear Hsome.
  assert (length first = k) as Hfirst.
  { apply (Forall_forall (λ c, length c = k) (putative_matches_ p));
      [exact Hk|]. rewrite Hput. apply list_elem_of_here. }
  assert (is_Some (mapM (matched_output p (length first)) (pruned_matches_ p)))
    as [out Hout]; [|exists first, out; split;
                     [rewrite Hput; reflexivity|exact Hout]].
  apply mapM_is_Some. eapply Forall_impl; [exact Hpruned|].
  intros m (c & Hc & Hm). cbn.
  pose proof (proj1 (Forall_forall _ _) Hidx c Hc) as Hcidx.
  pose proof (proj1 (Forall_forall _ _) Hcidx m Hm) as (Hq & Hkq & Hkr).
  destruct (vget_is_Some _ _ Hkq) as [q Hkq'].
  destruct (vget_is_Some _ _ Hkr) as [r Hkr'].
  destruct (vget_is_Some _ _ Hq) as [cq Hcq].
  unfold matched_output. rewrite Hkq', bind_Some_l, Hkr', bind_Some_l.
  assert (is_Some (knn_row (putative_matches_ p) (length first) m))
    as [row Hrow]; [|rewrite Hrow; eexists; reflexivity].
  unfold knn_row. apply mapM_is_Some. apply Forall_forall.
  intros j Hj. apply elem_of_seq in Hj. cbn. rewrite Hcq, bind_Some_l.
  assert (length cq = k) as Hlen.
  { apply (proj1 (Forall_forall _ _) Hk).
    apply vget_Some in Hcq as [_ Hcq].
    eapply list_elem_of_lookup_2. exact Hcq. }
  destruct (lookup_lt_is_Some_2 cq j) as [mj Hmj]; [lia|].
  rewrite Hmj. eexists. reflexivity.
Qed.

Lemma knn_shaped_accept_all (accepted : list (DMatch * Q)) (p : MatchPruner)
    (k : nat) :
  knn_shaped p k → knn_shaped (accept_all accepted p) k.
Proof.
  unfold knn_shaped.
  destruct (accept_all_members accepted p) as (_ & _ & -> & -> & ->).
  tauto.
Qed.

(** X18. On candidate lists as [knnMatch] gives them with two neighbours
    or more, the ratio test strategy of a new pruner returns: neither the
    test nor the loop over the pruned matches reads out of range. *)
Theorem PruneMatches_ratio_in_range `{DoubleArith} `{LPM_Matcher}
    (p : MatchPruner) (k : nat) :
  pruner_method_ p = PRUNER_RATIO →
  pruned_matches_ p = [] →
  knn_shaped p k → (2 ≤ k)%nat →
  ∃ p', PruneMatches p = Some p'.
Proof.
  intros Hmethod Hnew Hshape Hk. unfold PruneMatches. rewrite Hmethod.
  destruct (RatioTest_loop (8 # 10) (length (putative_matches_ p)) 0 p)
    as (accepted & Hrun & Hacc); [reflexivity| |].
  { destruct Hshape as (_ & Hlen & _). eapply Forall_impl; [exact Hlen|].
    intros c Hc. cbn in Hc. lia. }
  unfold PruneMatchesByRatioTest. rewrite Hrun, bind_Some_l.
  destruct (outputs_total (accept_all accepted p) k) as (first & out & Hf & Hout).
  - apply knn_shaped_accept_all, Hshape.
  - destruct (accept_all_members accepted p) as (-> & _ & -> & _).
    rewrite Hnew, app_nil_l. apply Forall_forall. intros m Hm.
    apply list_elem_of_fmap in Hm as ([m' s] & -> & Hms).
    apply Hacc in Hms as (i & m1 & rest & _ & Hc & _).
    exists (m' :: m1 :: rest).
    split; [eapply list_elem_of_lookup_2; exact Hc|apply list_elem_of_here].
  - rewrite Hf, bind_Some_l, Hout, bind_Some_l. eexists. reflexivity.
Qed.

Lemma PruneMatches_ratio_in_range_witness :
  ∃ p', @PruneMatches ExactArith KeepAll (demo_pruner PRUNER_RATIO) = Some p'.
Proof.
  apply (@PruneMatches_ratio_in_range ExactArith KeepAll
           (demo_pruner PRUNER_RATIO) 2).
  - reflexivity.
  - reflexivity.
  - split; [discriminate|]. split.
    + repeat (apply Forall_cons; split; [reflexivity|]). apply Forall_nil. exact I.
    + repeat (apply Forall_cons; split;
              [repeat (apply Forall_cons; split;
                       [unfold match_in_range; cbn; lia|]);
               apply Forall_nil; exact I|]).
      apply Forall_nil. exact I.
  - lia.
Defined.




